(** * cryptlib: elliptic-curve arithmetic, RFC 6979 nonces, ECDSA and ECDH

    A shallow embedding of [cryptlib.core.ecc_math],
    [cryptlib.algorithms.deterministic_nonce],
    [cryptlib.algorithms.ecdsa_signer] and [cryptlib.algorithms.ecdh],
    followed by the properties of the specification settled against it.

    Python integers are [Z]; [//] and [%] are [Z.div] and [Z.modulo] (both
    floor towards minus infinity, as Python's), with the division by zero
    written out as an exception.  [bytes] is [list byte].  A Python call
    either returns, raises, or does not come back: [res] has the three
    outcomes, and every loop of the source runs on a fuel counter. *)

From Stdlib Require Import ZArith List Bool Lia Znumtheory Zdivisibility.
From Stdlib Require Import Strings.Byte String Permutation.
From Stdlib Require Import Zmod.
From Stdlib Require NsatzTactic ZmodNsatz Ncring_initial.
Import ListNotations.

Local Open Scope Z_scope.

(* ================================================================== *)
(** ** Outcomes of a Python call *)

Inductive exn : Set :=
| ValueError
| ZeroDivisionError
| OverflowError
| AttributeError
| TypeError.

Inductive res (A : Type) : Type :=
| Ret (a : A)
| Raise (e : exn)
| OutOfFuel.

Arguments Ret {A} a.
Arguments Raise {A} e.
Arguments OutOfFuel {A}.

Definition bind {A B : Type} (m : res A) (k : A -> res B) : res B :=
  match m with
  | Ret a => k a
  | Raise e => Raise e
  | OutOfFuel => OutOfFuel
  end.

Notation "x <- m ;; k" := (bind m (fun x => k))
  (at level 61, m at next level, right associativity).
Notation "' pat <- m ;; k" := (bind m (fun x => match x with pat => k end))
  (at level 61, pat pattern, m at next level, right associativity).

(** What one turn of a loop body decides. *)
Inductive step (S R : Type) : Type :=
| Continue (s : S)
| Break (r : R).

Arguments Continue {S R} s.
Arguments Break {S R} r.

(** [while True: body], left by a [return] inside the body. *)
Fixpoint loop {S R : Type} (fuel : nat) (body : S -> res (step S R)) (s : S)
  : res R :=
  match fuel with
  | O => OutOfFuel
  | Datatypes.S f =>
      st <- body s ;;
      match st with
      | Continue s' => loop f body s'
      | Break r => Ret r
      end
  end.

(** [while cond: body]; the state at exit is the result. *)
Definition while {S : Type} (fuel : nat) (cond : S -> bool)
  (body : S -> res S) (s : S) : res S :=
  loop fuel
    (fun s => if cond s then s' <- body s ;; Ret (Continue s') else Ret (Break s))
    s.

(** [r1] is [r2] unless the fuel ran out. *)
Definition refines {A : Type} (r1 r2 : res A) : Prop :=
  r1 <> OutOfFuel -> r1 = r2.

(* ================================================================== *)
(** ** Python built-ins used by the source *)

Definition bytes := list byte.

Definition byte_to_Z (b : byte) : Z := Z.of_N (Byte.to_N b).

Definition byte_of_Z (z : Z) : byte :=
  match Byte.of_N (Z.to_N (z mod 256)) with
  | Some b => b
  | None => x00
  end.

(** [a % m] *)
Definition py_mod (a m : Z) : res Z :=
  if m =? 0 then Raise ZeroDivisionError else Ret (a mod m).

(** [a // m] *)
Definition py_floordiv (a m : Z) : res Z :=
  if m =? 0 then Raise ZeroDivisionError else Ret (a / m).

(** [x.bit_length()] *)
Definition bit_length (x : Z) : Z :=
  if x =? 0 then 0 else Z.log2 (Z.abs x) + 1.

(** [int.from_bytes(b, "big")] *)
Definition from_bytes (b : bytes) : Z :=
  fold_left (fun acc x => acc * 256 + byte_to_Z x) b 0.

(** The [len] low base-256 digits of [x], most significant first. *)
Fixpoint be_digits (len : nat) (x : Z) : bytes :=
  match len with
  | O => []
  | Datatypes.S l => be_digits l (x / 256) ++ [byte_of_Z x]
  end.

(** [x.to_bytes(len, "big")]: unsigned, so a negative [x] or one that needs
    more than [len] bytes raises [OverflowError]; a negative length raises
    [ValueError]. *)
Definition to_bytes (x len : Z) : res bytes :=
  if len <? 0 then Raise ValueError
  else if x <? 0 then Raise OverflowError
  else if 256 ^ len <=? x then Raise OverflowError
  else Ret (be_digits (Z.to_nat len) x).

(** [len(b)] *)
Definition len (b : bytes) : Z := Z.of_nat (List.length b).

(** [b[:k]] and [b[k:]] for [0 <= k]. *)
Definition slice_to (b : bytes) (k : Z) : bytes := firstn (Z.to_nat k) b.
Definition slice_from (b : bytes) (k : Z) : bytes := skipn (Z.to_nat k) b.

(** [b * k]: the byte repeated. *)
Definition bytes_repeat (b : byte) (k : Z) : bytes := repeat b (Z.to_nat k).

(** Square-and-multiply on the binary digits of the exponent, every
    intermediate value reduced. *)
Fixpoint powmod_pos (a : Z) (e : positive) (m : Z) : Z :=
  match e with
  | xH => a mod m
  | xO e' => let h := powmod_pos a e' m in (h * h) mod m
  | xI e' => let h := powmod_pos a e' m in (((h * h) mod m) * a) mod m
  end.

(** [pow(a, e, m)]: the three-argument power.  A zero modulus raises
    [ValueError]; a negative exponent takes the power of the inverse of
    [a], and raises [ValueError] when [a] has none. *)
Definition py_pow (a e m : Z) : res Z :=
  if m =? 0 then Raise ValueError
  else match e with
       | Z0 => Ret (1 mod m)
       | Zpos e' => Ret (powmod_pos a e' m)
       | Zneg e' =>
           if Z.gcd a m =? 1
           then Ret (powmod_pos (Z.invmod a m) e' m)
           else Raise ValueError
       end.

(** [1 << k] *)
Definition py_shl1 (k : Z) : res Z :=
  if k <? 0 then Raise ValueError else Ret (Z.shiftl 1 k).

(* ================================================================== *)
(** ** cryptlib.core.ecc_math *)

(** [modinv(a, m)] *)
Definition modinv (fuel : nat) (a m : Z) : res Z :=
  if a =? 0 then Raise ValueError
  else
    low0 <- py_mod a m ;;
    '(lm, hm, low, high) <-
      while fuel
        (fun '(lm, hm, low, high) => 1 <? low)
        (fun '(lm, hm, low, high) =>
           let r := high / low in
           let nm := hm - lm * r in
           let new := high - low * r in
           Ret (nm, lm, new, low))
        (1, 0, low0, m) ;;
    py_mod lm m.

(** State of the main loop of [modular_sqrt]: [(m, c, t, r)]. *)
Definition ts_state : Type := Z * Z * Z * Z.

(** [modular_sqrt(a, p)] *)
Definition modular_sqrt (fuel : nat) (a p : Z) : res Z :=
  if a =? 0 then Ret 0
  else if p =? 2 then py_mod a 2
  else
    ls <- py_pow a ((p - 1) / 2) p ;;
    if negb (ls =? 1) then Raise ValueError
    else
      p4 <- py_mod p 4 ;;
      if p4 =? 3 then py_pow a ((p + 1) / 4) p
      else
        '(q, s) <-
          while fuel
            (fun '(q, s) => q mod 2 =? 0)
            (fun '(q, s) => Ret (q / 2, s + 1))
            (p - 1, 0) ;;
        z <-
          loop fuel
            (fun z =>
               e <- py_pow z ((p - 1) / 2) p ;;
               if negb (e =? p - 1) then Ret (Continue (z + 1))
               else Ret (Break z))
            2 ;;
        c <- py_pow z q p ;;
        t <- py_pow a q p ;;
        r <- py_pow a ((q + 1) / 2) p ;;
        loop fuel
          (fun '(m, c, t, r) =>
             if t =? 0 then Ret (Break 0)
             else if t =? 1 then Ret (Break r)
             else
               t2i0 <- py_pow t 2 p ;;
               '(i, t2i) <-
                 while fuel
                   (fun '(i, t2i) => negb (t2i =? 1))
                   (fun '(i, t2i) =>
                      t2i' <- py_pow t2i 2 p ;;
                      Ret (i + 1, t2i'))
                   (1, t2i0) ;;
               sh <- py_shl1 (m - i - 1) ;;
               b <- py_pow c sh p ;;
               let m' := i in
               let c' := (b * b) mod p in
               let t' := (t * c') mod p in
               let r' := (r * b) mod p in
               Ret (Continue (m', c', t', r')))
          ((s, c, t, r) : ts_state).

(** [Point]: a dataclass of two optional integers. *)
Record Point : Set := mkPoint { x : option Z; y : option Z }.

(** [Point.is_infinite] *)
Definition is_infinite (pt : Point) : bool :=
  match x pt, y pt with
  | Some _, Some _ => false
  | _, _ => true
  end.

(** [point is None or point.is_infinite()] *)
Definition none_or_infinite (pt : option Point) : bool :=
  match pt with
  | None => true
  | Some q => is_infinite q
  end.

(** The parameter object handed to [Curve.__init__]; [h] may be missing
    ([getattr(params, "h", 1)]). *)
Record CurveParameters : Set := mkParams {
  cp_name : string;
  cp_p : Z;
  cp_a : Z;
  cp_b : Z;
  cp_gx : Z;
  cp_gy : Z;
  cp_n : Z;
  cp_h : option Z
}.

Record Curve : Set := mkCurve {
  name : string;
  p : Z;
  a : Z;
  b : Z;
  g : Point;
  n : Z;
  h : Z
}.

(** [Curve.__init__] *)
Definition Curve_init (params : CurveParameters) : Curve :=
  {| name := cp_name params;
     p := cp_p params;
     a := cp_a params;
     b := cp_b params;
     g := mkPoint (Some (cp_gx params)) (Some (cp_gy params));
     n := cp_n params;
     h := match cp_h params with Some v => v | None => 1 end |}.

(** [Curve.is_on_curve] *)
Definition is_on_curve (c : Curve) (point : option Point) : res bool :=
  if none_or_infinite point then Ret true
  else
    match point with
    | Some {| x := Some px; y := Some py |} =>
        v <- py_mod (py ^ 2 - (px ^ 3 + a c * px + b c)) (p c) ;;
        Ret (v =? 0)
    | _ => Raise TypeError
    end.

(** [Curve.point_add] *)
Definition point_add (fuel : nat) (c : Curve) (P Q : option Point)
  : res (option Point) :=
  if none_or_infinite P then Ret Q
  else if none_or_infinite Q then Ret P
  else
    match P, Q with
    | Some {| x := Some x1; y := Some y1 |},
      Some {| x := Some x2; y := Some y2 |} =>
        opposite <-
          (if x1 =? x2
           then s <- py_mod (y1 + y2) (p c) ;; Ret (s =? 0)
           else Ret false) ;;
        if opposite then Ret None
        else
          m <-
            (if x1 =? x2
             then i <- modinv fuel (2 * y1) (p c) ;;
                  py_mod ((3 * x1 * x1 + a c) * i) (p c)
             else i <- modinv fuel (x2 - x1) (p c) ;;
                  py_mod ((y2 - y1) * i) (p c)) ;;
          xr <- py_mod (m * m - x1 - x2) (p c) ;;
          yr <- py_mod (m * (x1 - xr) - y1) (p c) ;;
          Ret (Some (mkPoint (Some xr) (Some yr)))
    | _, _ => Raise TypeError
    end.

(** [Curve.scalar_mult]; loop state [(k, result, addend)]. *)
Definition scalar_mult (fuel : nat) (c : Curve) (k : Z) (P : option Point)
  : res (option Point) :=
  let P := match P with None => Some (g c) | Some _ => P end in
  km <- py_mod k (n c) ;;
  if (km =? 0) || (match P with None => true | Some _ => false end)
  then Ret None
  else
    '(_, result, _) <-
      while fuel
        (fun '(k, result, addend) => negb (k =? 0))
        (fun '(k, result, addend) =>
           result' <-
             (if negb (Z.land k 1 =? 0)
              then point_add fuel c result addend
              else Ret result) ;;
           addend' <- point_add fuel c addend addend ;;
           Ret (Z.shiftr k 1, result', addend'))
        (k, (None : option Point), P) ;;
    Ret result.

(** Modelled from the spec: the table of [cryptlib.core.ecc_parameters] is
    not among the sources; the spec names the curve P-256 and gives the
    shape of its entry (prime modulus, coefficients, generator, order,
    cofactor), here with the values of NIST P-256. *)
Definition P256 : CurveParameters :=
  {| cp_name := "P-256";
     cp_p := 0xffffffff00000001000000000000000000000000ffffffffffffffffffffffff;
     cp_a := 0xffffffff00000001000000000000000000000000fffffffffffffffffffffffc;
     cp_b := 0x5ac635d8aa3a93e7b3ebbd55769886bc651d06b0cc53b0f63bce3c3e27d2604b;
     cp_gx := 0x6b17d1f2e12c4247f8bce6e563a440f277037d812deb33a0f4a13945d898c296;
     cp_gy := 0x4fe342e2fe1a7f9b8ee7eb4a7c0f9e162bce33576b315ececbb6406837bf51f5;
     cp_n := 0xffffffff00000000ffffffffffffffffbce6faada7179e84f3b9cac2fc632551;
     cp_h := Some 1 |}.

Definition P256_curve : Curve := Curve_init P256.

(* ================================================================== *)
(** ** Capabilities of the Python library: [hashlib] and [hmac] *)

(** A [hashlib] constructor: the digest of a message, and the two sizes the
    [hmac] module reads off a fresh hash object. *)
Record HashFunc : Type := mkHash {
  digest : bytes -> bytes;
  digest_size : Z;
  block_size : Z
}.

Record Hashlib : Type := mkHashlib {
  sha256 : HashFunc;
  sha384 : HashFunc;
  sha512 : HashFunc
}.

Definition byte_xor (k : Z) (b : byte) : byte :=
  byte_of_Z (Z.lxor (byte_to_Z b) k).

(** [hmac.new(key, msg, hash_func).digest()], as [hmac.py] computes it for
    a hash constructor: a block size below 16 is replaced by 64, a key
    longer than a block is hashed first, and the key is then padded with
    zero bytes to the block size. *)
Definition hmac_new (hf : HashFunc) (key msg : bytes) : bytes :=
  let blocksize := if block_size hf <? 16 then 64 else block_size hf in
  let key := if blocksize <? len key then digest hf key else key in
  let key := key ++ bytes_repeat x00 (blocksize - len key) in
  digest hf (map (byte_xor 0x5c) key ++
             digest hf (map (byte_xor 0x36) key ++ msg)).

(* ================================================================== *)
(** ** cryptlib.algorithms.deterministic_nonce *)

(** [bits2int(b, qlen)] *)
Definition bits2int (b : bytes) (qlen : Z) : Z :=
  let i := from_bytes b in
  let blen := len b * 8 in
  if qlen <? blen then Z.shiftr i (blen - qlen) else i.

(** [int2octets(x, rolen)] *)
Definition int2octets (x rolen : Z) : res bytes := to_bytes x rolen.

(** [bits2octets(b, q, qlen)] *)
Definition bits2octets (b : bytes) (q qlen : Z) : res bytes :=
  let z1 := bits2int b qlen in
  let z2 := if q <=? z1 then z1 - q else z1 in
  let rolen := (qlen + 7) / 8 in
  int2octets z2 rolen.

(** [generate_k(hash_func, q, x, h1)]; the state of the candidate loop is
    [(K, V)], that of the inner loop [(T, V)]. *)
Definition generate_k (fuel : nat) (hash_func : HashFunc) (q x : Z)
  (h1 : bytes) : res Z :=
  let qlen := bit_length q in
  let hlen := digest_size hash_func in
  let rolen := (qlen + 7) / 8 in
  let V := bytes_repeat x01 hlen in
  let K := bytes_repeat x00 hlen in
  xo <- int2octets x rolen ;;
  ho <- bits2octets h1 q qlen ;;
  let bx := xo ++ ho in
  let K := hmac_new hash_func K (V ++ [x00] ++ bx) in
  let V := hmac_new hash_func K V in
  let K := hmac_new hash_func K (V ++ [x01] ++ bx) in
  let V := hmac_new hash_func K V in
  loop fuel
    (fun '(K, V) =>
       '(T, V) <-
         while fuel
           (fun '(T, V) => len T <? rolen)
           (fun '(T, V) =>
              let V := hmac_new hash_func K V in
              Ret (T ++ V, V))
           (([] : bytes), V) ;;
       let k := bits2int T qlen in
       if (1 <=? k) && (k <? q) then Ret (Break k)
       else
         let K := hmac_new hash_func K (V ++ [x00]) in
         let V := hmac_new hash_func K V in
         Ret (Continue (K, V)))
    (K, V).

(* ================================================================== *)
(** ** cryptlib.algorithms.ecdsa_signer *)

(** [pt.x] and [pt.y]: reading an attribute of [None] raises
    [AttributeError]. *)
Definition attr_x (pt : option Point) : res (option Z) :=
  match pt with
  | Some q => Ret (x q)
  | None => Raise AttributeError
  end.

Definition attr_y (pt : option Point) : res (option Z) :=
  match pt with
  | Some q => Ret (y q)
  | None => Raise AttributeError
  end.

(** An optional integer used as an integer: a method call on [None] raises
    [AttributeError], an arithmetic operator [TypeError]. *)
Definition as_int (e : exn) (v : option Z) : res Z :=
  match v with
  | Some z => Ret z
  | None => Raise e
  end.

(** [v.to_bytes((v.bit_length() + 7) // 8, "big")] *)
Definition minimal_bytes (v : Z) : res bytes :=
  to_bytes v ((bit_length v + 7) / 8).

Module ECDSASigner.

Record ECDSASigner : Type := mkSigner {
  curve_params : CurveParameters;
  curve : Curve;
  hash_func : HashFunc
}.

(** [ECDSASigner.__init__]; [get_curve] is the lookup of
    [cryptlib.core.ecc_parameters], [hashlib] the three constructors. *)
Definition init (get_curve : string -> res CurveParameters)
  (hashlib : Hashlib) (curve_name : string) : res ECDSASigner :=
  params <- get_curve curve_name ;;
  Ret {| curve_params := params;
         curve := Curve_init params;
         hash_func :=
           if String.eqb curve_name "P-256" then sha256 hashlib
           else if String.eqb curve_name "P-384" then sha384 hashlib
           else sha512 hashlib |}.

(** [generate_keypair]; [rnd] is what
    [os.urandom(n.bit_length() // 8 + 8)] handed back. *)
Definition generate_keypair (fuel : nat) (self : ECDSASigner) (rnd : bytes)
  : res (bytes * bytes) :=
  private_key <- py_mod (from_bytes rnd) (n (curve self)) ;;
  public_point <- scalar_mult fuel (curve self) private_key None ;;
  ox <- attr_x public_point ;;
  px <- as_int AttributeError ox ;;
  xb <- minimal_bytes px ;;
  oy <- attr_y public_point ;;
  py <- as_int AttributeError oy ;;
  yb <- minimal_bytes py ;;
  let public_key := xb ++ yb in
  private_bytes <-
    to_bytes private_key ((bit_length (n (curve self)) + 7) / 8) ;;
  Ret (public_key, private_bytes).

(** [sign] *)
Definition sign (fuel : nat) (self : ECDSASigner) (private_key message : bytes)
  : res bytes :=
  let z := from_bytes (digest (hash_func self) message) in
  let d := from_bytes private_key in
  k <- generate_k fuel (hash_func self) (n (curve self)) d
         (digest (hash_func self) message) ;;
  R <- scalar_mult fuel (curve self) k None ;;
  ox <- attr_x R ;;
  Rx <- as_int TypeError ox ;;
  r <- py_mod Rx (n (curve self)) ;;
  ki <- modinv fuel k (n (curve self)) ;;
  s <- py_mod (ki * (z + r * d)) (n (curve self)) ;;
  r_bytes <- minimal_bytes r ;;
  s_bytes <- minimal_bytes s ;;
  Ret (r_bytes ++ s_bytes).

(** [verify] *)
Definition verify (fuel : nat) (self : ECDSASigner)
  (public_key message signature : bytes) : res bool :=
  let r_len := len signature / 2 in
  let r := from_bytes (slice_to signature r_len) in
  let s := from_bytes (slice_from signature r_len) in
  let z := from_bytes (digest (hash_func self) message) in
  let x_bytes := slice_to public_key (len public_key / 2) in
  let y_bytes := slice_from public_key (len public_key / 2) in
  let pub_point :=
    Some (mkPoint (Some (from_bytes x_bytes)) (Some (from_bytes y_bytes))) in
  on <- is_on_curve (curve self) pub_point ;;
  if negb on then Ret false
  else
    w <- modinv fuel s (n (curve self)) ;;
    u1 <- py_mod (z * w) (n (curve self)) ;;
    u2 <- py_mod (r * w) (n (curve self)) ;;
    p1 <- scalar_mult fuel (curve self) u1 None ;;
    p2 <- scalar_mult fuel (curve self) u2 pub_point ;;
    point <- point_add fuel (curve self) p1 p2 ;;
    match point with
    | None => Ret false
    | Some _ =>
        ox <- attr_x point ;;
        px <- as_int TypeError ox ;;
        v <- py_mod px (n (curve self)) ;;
        Ret (v =? r)
    end.

End ECDSASigner.

(* ================================================================== *)
(** ** cryptlib.algorithms.ecdh *)

Module ECDH.

Record ECDH : Set := mkECDH {
  params : CurveParameters;
  curve : Curve
}.

(** [ECDH.__init__]; [CURVES] is the table of
    [cryptlib.core.ecc_parameters]. *)
Definition init (CURVES : string -> option CurveParameters)
  (curve_name : string) : res ECDH :=
  match CURVES curve_name with
  | None => Raise ValueError
  | Some ps => Ret {| params := ps; curve := Curve_init ps |}
  end.

(** [generate_keypair]; [rnd] is what [secrets.randbelow(n - 1)] handed
    back, a number of [range(n - 1)]; the call raises [ValueError] when
    that range is empty. *)
Definition generate_keypair (fuel : nat) (self : ECDH) (rnd : Z)
  : res (option Point * Z) :=
  if n (curve self) - 1 <=? 0 then Raise ValueError
  else
    let private_scalar := rnd + 1 in
    public_point <- scalar_mult fuel (curve self) private_scalar None ;;
    Ret (public_point, private_scalar).

(** [derive_shared_secret] *)
Definition derive_shared_secret (fuel : nat) (self : ECDH)
  (private_scalar : Z) (peer_public_point : option Point) : res Z :=
  shared_point <-
    scalar_mult fuel (curve self) private_scalar peer_public_point ;;
  if none_or_infinite shared_point then Raise ValueError
  else ox <- attr_x shared_point ;; as_int TypeError ox.

End ECDH.

(** The signer that [ECDSASigner("P-256")] builds. *)
Definition signer_P256 (hashlib : Hashlib) : ECDSASigner.ECDSASigner :=
  {| ECDSASigner.curve_params := P256;
     ECDSASigner.curve := P256_curve;
     ECDSASigner.hash_func := sha256 hashlib |}.

(** The point that [verify] parses out of a public key. *)
Definition parse_public_key (public_key : bytes) : option Point :=
  Some (mkPoint
          (Some (from_bytes (slice_to public_key (len public_key / 2))))
          (Some (from_bytes (slice_from public_key (len public_key / 2))))).

(** The generator of P-256 as 64 key bytes, 32 per coordinate. *)
Definition G256_bytes : bytes :=
  be_digits 32 (cp_gx P256) ++ be_digits 32 (cp_gy P256).

(** The opposite of a point. *)
Definition negate (c : Curve) (P : option Point) : option Point :=
  match P with
  | Some {| x := Some px; y := Some py |} =>
      Some (mkPoint (Some px) (Some (p c - py)))
  | _ => P
  end.

(** A small instance to run the signer on: a four-byte checksum in the
    place of the hash (its block size, 8, is below 16, so [hmac_new] works
    on blocks of 64 bytes), and the curve [y^2 = x^3 + 2x + 2] over the
    integers modulo 17, whose point [(5, 1)] has order 19. *)
Definition fold_hash : HashFunc :=
  {| digest := fun m => be_digits 4 (from_bytes m * 2654435761 + len m + 40503);
     digest_size := 4;
     block_size := 8 |}.

Definition curve17 : CurveParameters :=
  {| cp_name := "curve17"; cp_p := 17; cp_a := 2; cp_b := 2;
     cp_gx := 5; cp_gy := 1; cp_n := 19; cp_h := None |}.

Definition signer17 : ECDSASigner.ECDSASigner :=
  {| ECDSASigner.curve_params := curve17;
     ECDSASigner.curve := Curve_init curve17;
     ECDSASigner.hash_func := fold_hash |}.

(** The key-exchange object on the small curve. *)
Definition ecdh17 : ECDH.ECDH :=
  {| ECDH.params := curve17; ECDH.curve := Curve_init curve17 |}.

(** What the loop of [modinv] keeps true of [(lm, hm, low, high)]. *)
Definition modinv_inv (a m : Z) (s : Z * Z * Z * Z) : Prop :=
  let '(lm, hm, low, high) := s in
  0 <= low < high /\ 1 < high /\
  (lm * a) mod m = low mod m /\
  (hm * a) mod m = high mod m /\
  Z.gcd low high = Z.gcd a m.

Definition modinv_mu (s : Z * Z * Z * Z) : nat :=
  let '(_, _, low, high) := s in Z.to_nat (Z.log2 (low * high)).

(* ================================================================== *)
(** * Polynomials over a ring and the invariants of Tonelli-Shanks

    Counting the roots of [X^k - 1] gives the non-residue that
    [modular_sqrt] looks for. *)

Module Poly.
Import NsatzTactic Ncring_initial.

Section Eval.

Context {F : Type} {zero one : F} {add mul sub : F -> F -> F} {opp : F -> F}
  {Ro : @Ring_ops F zero one add mul sub opp (@eq F)}.

(** A polynomial is the list of its coefficients, constant term first. *)
Fixpoint peval (l : list F) (v : F) : F :=
  match l with
  | [] => 0
  | c :: l' => c + v * peval l' v
  end.

(** The values at [r] of the suffixes of [l]: the coefficients of the
    quotient of [c :: l] by [X - r] (Horner's rule). *)
Fixpoint tails_eval (r : F) (l : list F) : list F :=
  match l with
  | [] => []
  | c :: l' => peval l r :: tails_eval r l'
  end.

Fixpoint xpow (v : F) (k : nat) : F :=
  match k with
  | O => 1
  | S k' => v * xpow v k'
  end.

(** [X^(k+1) - 1] *)
Definition x_pow_minus_1 (k : nat) : list F :=
  (0 - 1) :: repeat 0 k ++ [1].

End Eval.
End Poly.

(** Invariant of the main loop of [modular_sqrt], on the residues of the
    state: [c] has order [2^m], the order of [t] divides [2^(m-1)], and
    [r^2 = a t]. *)
Definition ts_inv (p a bound : Z) (st : ts_state) : Prop :=
  let '(m, c, t, r) := st in
  1 <= m <= bound /\ 0 <= t < p /\
  Zmod.pow (Zmod.of_Z p c) (2 ^ (m - 1)) = Zmod.opp Zmod.one /\
  Zmod.pow (Zmod.of_Z p t) (2 ^ (m - 1)) = Zmod.one /\
  Zmod.mul (Zmod.of_Z p r) (Zmod.of_Z p r)
    = Zmod.mul (Zmod.of_Z p a) (Zmod.of_Z p t).

(** Invariant of the loop that looks for the least [i] with
    [t^(2^i) = 1]. *)
Definition ts_inner (p m t : Z) (st : Z * Z) : Prop :=
  let '(i, t2i) := st in
  1 <= i <= m - 1 /\ 0 <= t2i < p /\
  Zmod.of_Z p t2i = Zmod.pow (Zmod.of_Z p t) (2 ^ i) /\
  Zmod.pow (Zmod.of_Z p t) (2 ^ (i - 1)) <> Zmod.one.

Definition ts_mu (st : ts_state) : nat :=
  let '(m, _, _, _) := st in Z.to_nat m.

Definition ts_inner_mu (m : Z) (st : Z * Z) : nat :=
  let '(i, _) := st in Z.to_nat (m - 1 - i).

(** Invariant of the loop that splits [p - 1] into [q * 2^s]. *)
Definition ts_split (p : Z) (st : Z * Z) : Prop :=
  let '(q, s) := st in 0 < q /\ 0 <= s /\ q * 2 ^ s = p - 1.

(* ================================================================== *)
(** * Short Weierstrass curves over an integral domain with inverses

    The group law that [Curve.point_add] computes, over any integral
    domain [F] with an inverse for its non-zero elements. *)

Module Weierstrass.
Import NsatzTactic Ncring_initial.

(** An integer constant whose prime factors are 2 and 3 only. *)
Fixpoint only23 (fuel : nat) (c : Z) : bool :=
  match fuel with
  | O => false
  | S f =>
      if (c =? 1)%Z || (c =? -1)%Z then true
      else if (c mod 2 =? 0)%Z then only23 f (c / 2)
      else if (c mod 3 =? 0)%Z then only23 f (c / 3)
      else false
  end.

Section Curve.

Context {F : Type} {zero one : F} {add mul sub : F -> F -> F} {opp : F -> F}
  {Ro : @Ring_ops F zero one add mul sub opp (@eq F)}.

Variable inv : F -> F.
Variable eq_dec : forall u v : F, {u = v} + {u <> v}.
Variables a b : F.

(** A point: [None] is the point at infinity. *)
Definition wpoint : Type := option (F * F).

Definition on (P : wpoint) : Prop :=
  match P with
  | None => True
  | Some (x, y) => y * y = x * x * x + a * x + b
  end.

(** Chord and tangent addition, with the case split of [Curve.point_add]. *)
Definition wadd (P Q : wpoint) : wpoint :=
  match P, Q with
  | None, _ => Q
  | _, None => P
  | Some (x1, y1), Some (x2, y2) =>
      if eq_dec x1 x2 then
        if eq_dec (y1 + y2) 0 then None
        else
          let m := ((1 + 1 + 1) * x1 * x1 + a) * inv ((1 + 1) * y1) in
          let xr := m * m - x1 - x2 in
          Some (xr, m * (x1 - xr) - y1)
      else
        let m := (y2 - y1) * inv (x2 - x1) in
        let xr := m * m - x1 - x2 in
        Some (xr, m * (x1 - xr) - y1)
  end.

(** The coordinates of a double and of a sum, given the inverse [i] of
    the denominator of the slope. *)
Definition dbl_x (x y i : F) : F :=
  ((1 + 1 + 1) * x * x + a) * i * (((1 + 1 + 1) * x * x + a) * i) - x - x.
Definition dbl_y (x y i : F) : F :=
  ((1 + 1 + 1) * x * x + a) * i * (x - dbl_x x y i) - y.
Definition add_x (x1 y1 x2 y2 i : F) : F :=
  (y2 - y1) * i * ((y2 - y1) * i) - x1 - x2.
Definition add_y (x1 y1 x2 y2 i : F) : F :=
  (y2 - y1) * i * (x1 - add_x x1 y1 x2 y2 i) - y1.

(** The three ways two finite points add up, each with the inverse it
    divides by and the equation of the result. *)
Inductive wadd_case (x1 y1 x2 y2 : F) : wpoint -> Prop :=
| case_opp : x1 = x2 -> y1 + y2 = 0 -> wadd_case x1 y1 x2 y2 None
| case_dbl i x3 y3 : x1 = x2 -> y1 = y2 -> (y1 + y1) * i = 1 ->
    x3 = dbl_x x1 y1 i -> y3 = dbl_y x1 y1 i ->
    y3 * y3 = x3 * x3 * x3 + a * x3 + b ->
    wadd_case x1 y1 x2 y2 (Some (x3, y3))
| case_add i x3 y3 : (x2 - x1) * i = 1 ->
    x3 = add_x x1 y1 x2 y2 i -> y3 = add_y x1 y1 x2 y2 i ->
    y3 * y3 = x3 * x3 * x3 + a * x3 + b ->
    wadd_case x1 y1 x2 y2 (Some (x3, y3)).

(** The same three ways with the slope [m] of the chord or of the tangent
    as a variable of its own. *)
Inductive slope_case (x1 y1 x2 y2 : F) : wpoint -> Prop :=
| slope_opp : x1 = x2 -> y1 + y2 = 0 -> slope_case x1 y1 x2 y2 None
| slope_dbl i m x3 y3 : x1 = x2 -> y1 = y2 -> (y1 + y1) * i = 1 ->
    m * (y1 + y1) = (1 + 1 + 1) * x1 * x1 + a ->
    x3 = m * m - x1 - x1 -> y3 = m * (x1 - x3) - y1 ->
    slope_case x1 y1 x2 y2 (Some (x3, y3))
| slope_add i m x3 y3 : (x2 - x1) * i = 1 ->
    m * (x2 - x1) = y2 - y1 ->
    x3 = m * m - x1 - x2 -> y3 = m * (x1 - x3) - y1 ->
    slope_case x1 y1 x2 y2 (Some (x3, y3)).

(** [k] times a point, by repeated addition. *)
Fixpoint wmul (k : nat) (P : wpoint) : wpoint :=
  match k with
  | O => None
  | S k' => wadd P (wmul k' P)
  end.

End Curve.
End Weierstrass.

(* ================================================================== *)
(** * The curve of the library as a Weierstrass curve over [Zmod p] *)

(** Equality of residues is decidable. *)
Definition zeq_dec (m : Z) (u v : Zmod m) : {u = v} + {u <> v}.
Proof.
  destruct (Z.eq_dec (Zmod.to_Z u) (Zmod.to_Z v)) as [E|N].
  - left. now apply Zmod.unsigned_inj.
  - right. intros ->. now apply N.
Defined.

(** The points of a curve of the library, with coordinates read modulo
    its [p]; a [Point] that lacks a coordinate is the point at infinity. *)
Definition to_wpoint (c : Curve) (P : option Point)
  : @Weierstrass.wpoint (Zmod (p c)) :=
  match P with
  | Some {| x := Some px; y := Some py |} =>
      Some (Zmod.of_Z (p c) px, Zmod.of_Z (p c) py)
  | _ => None
  end.

Definition curve_on (c : Curve) : @Weierstrass.wpoint (Zmod (p c)) -> Prop :=
  Weierstrass.on (Ro := ZmodNsatz.Ring_ops_Zmod (p c))
    (Zmod.of_Z (p c) (a c)) (Zmod.of_Z (p c) (b c)).

Definition curve_add (c : Curve)
  : @Weierstrass.wpoint (Zmod (p c)) -> @Weierstrass.wpoint (Zmod (p c)) ->
    @Weierstrass.wpoint (Zmod (p c)) :=
  Weierstrass.wadd (Ro := ZmodNsatz.Ring_ops_Zmod (p c))
    Zmod.inv (zeq_dec (p c)) (Zmod.of_Z (p c) (a c)).

(** [k] times a point of the curve. *)
Definition curve_mul (c : Curve) (k : nat)
  : @Weierstrass.wpoint (Zmod (p c)) -> @Weierstrass.wpoint (Zmod (p c)) :=
  Weierstrass.wmul (Ro := ZmodNsatz.Ring_ops_Zmod (p c))
    Zmod.inv (zeq_dec (p c)) (Zmod.of_Z (p c) (a c)) k.

(** Coordinates in [[0, p - 1]]; nothing is asked of the point at
    infinity. *)
Definition reduced (c : Curve) (P : option Point) : Prop :=
  match P with
  | Some {| x := Some px; y := Some py |} => 0 <= px < p c /\ 0 <= py < p c
  | _ => True
  end.

(** A point of the curve as the library holds it: [is_on_curve] accepts
    it and its coordinates are reduced. *)
Definition valid_point (c : Curve) (P : option Point) : Prop :=
  is_on_curve c P = Ret true /\ reduced c P.

(** The fuel [modinv] needs for the modulus [m]. *)
Definition modinv_fuel (m : Z) : nat := Z.to_nat (2 * Z.log2 m + 2).

(** The point [scalar_mult] multiplies: the generator when none is given. *)
Definition base_point (c : Curve) (P : option Point) : option Point :=
  match P with
  | None => Some (g c)
  | Some _ => P
  end.

(** The fuel [scalar_mult] needs for the scalar [k]: one turn per bit and
    one to leave the loop, and what [modinv] needs in [point_add]. *)
Definition scalar_mult_fuel (c : Curve) (k : Z) : nat :=
  Nat.max (modinv_fuel (p c)) (Z.to_nat (bit_length k) + 1).

(** The two results name the same point of the curve: they are equal, or
    each is one of the encodings of the point at infinity ([None], or a
    [Point] that lacks a coordinate). *)
Definition same_point (A B : option Point) : Prop :=
  A = B \/ (none_or_infinite A = true /\ none_or_infinite B = true).

(** Invariant and measure of the loop of [scalar_mult]. *)
Definition sm_valid (c : Curve) (s : Z * option Point * option Point) : Prop :=
  let '(_, result, addend) := s in
  valid_point c result /\ valid_point c addend.

Definition sm_mu (s : Z * option Point * option Point) : nat :=
  let '(k, _, _) := s in Z.to_nat (bit_length k).

(** [None], or a [Point] with both coordinates: what the arithmetic of
    [Curve] hands back when it is given nothing else. *)
Definition plain_point (P : option Point) : Prop :=
  match P with
  | None => True
  | Some pt => is_infinite pt = false
  end.

(** The fuel [verify] needs: for [modinv] modulo [n] and modulo [p], and a
    turn of [scalar_mult] per bit of a scalar below [n]. *)
Definition verify_fuel (c : Curve) : nat :=
  Nat.max (modinv_fuel (n c))
    (Nat.max (modinv_fuel (p c)) (Z.to_nat (bit_length (n c)) + 1)).

(* ================================================================== *)
(** * Fuel: a result does not depend on how much was left over *)

Lemma refines_refl {A : Type} (r : res A) : refines r r.
Proof. intros _. reflexivity. Qed.

Lemma refines_bind {A B : Type} (m1 m2 : res A) (k1 k2 : A -> res B) :
  refines m1 m2 ->
  (forall v, refines (k1 v) (k2 v)) ->
  refines (bind m1 k1) (bind m2 k2).
Proof.
  intros Hm Hk. destruct m1 as [v|e|]; cbn.
  - rewrite <- Hm by discriminate. cbn. apply Hk.
  - rewrite <- Hm by discriminate. intros _. reflexivity.
  - intros Hne. now elim Hne.
Qed.

Lemma refines_loop {S R : Type} (b1 b2 : S -> res (step S R)) :
  (forall s, refines (b1 s) (b2 s)) ->
  forall f1 f2 s, (f1 <= f2)%nat -> refines (loop f1 b1 s) (loop f2 b2 s).
Proof.
  intros Hb. induction f1 as [|f1 IH]; intros f2 s Hle.
  - intros Hne. now elim Hne.
  - destruct f2 as [|f2]; [lia|]. cbn [loop].
    apply refines_bind; [apply Hb|].
    intros [s'|r]; [apply IH; lia | apply refines_refl].
Qed.

Lemma refines_while {S : Type} (cond : S -> bool) (b1 b2 : S -> res S) :
  (forall s, refines (b1 s) (b2 s)) ->
  forall f1 f2 s, (f1 <= f2)%nat ->
    refines (while f1 cond b1 s) (while f2 cond b2 s).
Proof.
  intros Hb f1 f2 s Hle. unfold while. apply refines_loop; [|exact Hle].
  intros s0. destruct (cond s0); [|apply refines_refl].
  apply refines_bind; [apply Hb | intros; apply refines_refl].
Qed.

Lemma refines_ret {A : Type} (r1 r2 : res A) (v : A) :
  refines r1 r2 -> r1 = Ret v -> r2 = Ret v.
Proof. intros H E. rewrite <- H; [exact E | rewrite E; discriminate]. Qed.

Lemma refines_eq {A : Type} (r1 r2 r : res A) :
  refines r1 r -> refines r2 r ->
  r1 <> OutOfFuel -> r2 <> OutOfFuel -> r1 = r2.
Proof. intros H1 H2 N1 N2. rewrite (H1 N1), (H2 N2). reflexivity. Qed.

(** One step of a monotonicity proof: peel a bind, a loop or a branch. *)
Ltac mono_step :=
  match goal with
  | |- refines ?r ?r => apply refines_refl
  | |- refines (bind _ _) (bind _ _) => apply refines_bind
  | |- refines (loop _ _ _) (loop _ _ _) => apply refines_loop
  | |- refines (while _ _ _ _) (while _ _ _ _) => apply refines_while
  | |- refines (if ?c then _ else _) (if ?c then _ else _) => destruct c
  | |- refines (match ?v with Some _ => _ | None => _ end)
               (match ?v with Some _ => _ | None => _ end) => destruct v
  | |- refines (match ?v with mkPoint _ _ => _ end)
               (match ?v with mkPoint _ _ => _ end) => destruct v
  | |- refines (let '(_, _) := ?v in _) (let '(_, _) := ?v in _) =>
      destruct v
  | |- forall _, _ => intro
  | |- (_ <= _)%nat => assumption
  end.

Ltac mono := repeat mono_step.

Section FuelMonotone.

Variables f1 f2 : nat.
Hypothesis Hle : (f1 <= f2)%nat.

Lemma modinv_mono (a m : Z) : refines (modinv f1 a m) (modinv f2 a m).
Proof. unfold modinv. mono. Qed.

Lemma modular_sqrt_mono (a p : Z) :
  refines (modular_sqrt f1 a p) (modular_sqrt f2 a p).
Proof. unfold modular_sqrt. mono. Qed.

Lemma point_add_mono (c : Curve) (P Q : option Point) :
  refines (point_add f1 c P Q) (point_add f2 c P Q).
Proof. unfold point_add. mono; apply modinv_mono. Qed.

Lemma scalar_mult_mono (c : Curve) (k : Z) (P : option Point) :
  refines (scalar_mult f1 c k P) (scalar_mult f2 c k P).
Proof. unfold scalar_mult. mono; apply point_add_mono. Qed.

Lemma generate_k_mono (hf : HashFunc) (q x : Z) (h1 : bytes) :
  refines (generate_k f1 hf q x h1) (generate_k f2 hf q x h1).
Proof. unfold generate_k. mono. Qed.

Lemma sign_mono (self : ECDSASigner.ECDSASigner) (sk m : bytes) :
  refines (ECDSASigner.sign f1 self sk m) (ECDSASigner.sign f2 self sk m).
Proof.
  unfold ECDSASigner.sign. mono;
    first [apply generate_k_mono | apply scalar_mult_mono | apply modinv_mono].
Qed.

Lemma verify_mono (self : ECDSASigner.ECDSASigner) (pk m sg : bytes) :
  refines (ECDSASigner.verify f1 self pk m sg)
          (ECDSASigner.verify f2 self pk m sg).
Proof.
  unfold ECDSASigner.verify. mono;
    first [apply point_add_mono | apply scalar_mult_mono | apply modinv_mono].
Qed.

Lemma derive_shared_secret_mono (self : ECDH.ECDH) (k : Z) (P : option Point) :
  refines (ECDH.derive_shared_secret f1 self k P)
          (ECDH.derive_shared_secret f2 self k P).
Proof. unfold ECDH.derive_shared_secret. mono; apply scalar_mult_mono. Qed.

End FuelMonotone.

Section FuelMonotoneKeys.

Variables f1 f2 : nat.
Hypothesis Hle : (f1 <= f2)%nat.

Lemma ecdsa_generate_keypair_mono (self : ECDSASigner.ECDSASigner) (rnd : bytes) :
  refines (ECDSASigner.generate_keypair f1 self rnd)
          (ECDSASigner.generate_keypair f2 self rnd).
Proof. unfold ECDSASigner.generate_keypair. mono; now apply scalar_mult_mono. Qed.

Lemma ecdh_generate_keypair_mono (self : ECDH.ECDH) (rnd : Z) :
  refines (ECDH.generate_keypair f1 self rnd)
          (ECDH.generate_keypair f2 self rnd).
Proof. unfold ECDH.generate_keypair. mono; now apply scalar_mult_mono. Qed.

End FuelMonotoneKeys.

(* ================================================================== *)
(** * Guards of [scalar_mult] and [verify] *)

Lemma py_mod_nonzero (v m : Z) : m <> 0 -> py_mod v m = Ret (v mod m).
Proof. intros H. unfold py_mod. now destruct (Z.eqb_spec m 0). Qed.

Lemma scalar_mult_zero_mod (fuel : nat) (c : Curve) (k : Z) (P : option Point) :
  n c <> 0 -> k mod n c = 0 -> scalar_mult fuel c k P = Ret None.
Proof.
  intros Hn Hk. unfold scalar_mult.
  rewrite (py_mod_nonzero _ _ Hn), Hk. reflexivity.
Qed.

Lemma verify_off_curve (fuel : nat) (self : ECDSASigner.ECDSASigner)
  (pk m sg : bytes) :
  is_on_curve (ECDSASigner.curve self) (parse_public_key pk) = Ret false ->
  ECDSASigner.verify fuel self pk m sg = Ret false.
Proof.
  intros H. unfold ECDSASigner.verify. unfold parse_public_key in H.
  rewrite H. reflexivity.
Qed.

Lemma verify_zero_s (fuel : nat) (self : ECDSASigner.ECDSASigner)
  (pk m sg : bytes) :
  is_on_curve (ECDSASigner.curve self) (parse_public_key pk) = Ret true ->
  from_bytes (slice_from sg (len sg / 2)) = 0 ->
  ECDSASigner.verify fuel self pk m sg = Raise ValueError.
Proof.
  intros H Hs. unfold ECDSASigner.verify. unfold parse_public_key in H.
  rewrite H, Hs. reflexivity.
Qed.

(* ================================================================== *)
(** * Where the code leaves the specification *)

(** C1: [verify] is not total over malformed input.  With the generator of
    P-256 as public key, any message and the empty signature (whose second
    half decodes to [s = 0]), the [ValueError] of [modinv] leaves [verify]
    uncaught instead of becoming the result [false]; so does the two-byte
    signature [01 00]. *)
Theorem verify_raises_on_zero_s (fuel : nat) (hashlib : Hashlib) (message : bytes) :
  ECDSASigner.verify fuel (signer_P256 hashlib) G256_bytes message []
    = Raise ValueError /\
  ECDSASigner.verify fuel (signer_P256 hashlib) G256_bytes message [x01; x00]
    = Raise ValueError.
Proof.
  split; apply verify_zero_s; vm_compute; reflexivity.
Qed.

(** C4: [modinv] only rejects the literal [0].  A non-zero multiple of the
    modulus is answered with [1], and an argument sharing a factor with the
    modulus with a number that is no inverse: [modinv(7, 7) = 1],
    [modinv(-14, 7) = 1], [modinv(2, 4) = 2], [modinv(6, 9) = 3]; on P-256,
    [modinv(n, n) = 1]. *)
Theorem modinv_silent_without_inverse (fuel : nat) :
  modinv (3 + fuel) 7 7 = Ret 1 /\
  modinv (3 + fuel) (-14) 7 = Ret 1 /\
  modinv (3 + fuel) 2 4 = Ret 2 /\
  modinv (3 + fuel) 6 9 = Ret 3 /\
  modinv (3 + fuel) (cp_n P256) (cp_n P256) = Ret 1.
Proof.
  assert (M : forall a m v, modinv 3 a m = Ret v -> modinv (3 + fuel) a m = Ret v).
  { intros a m v E. eapply refines_ret; [|exact E]. apply modinv_mono. lia. }
  split; [|split; [|split; [|split]]]; apply M; vm_compute; reflexivity.
Qed.

(** C2: the round trip fails for a key pair that [generate_keypair]
    produces.  On P-256, the random bytes that decode to the private scalar
    43 give a public point whose [y] needs 31 bytes and whose [x] needs 32;
    the key is their 63 bytes, [verify] cuts it after byte 31, reads a point
    that is not on the curve, and answers [false] for every message and
    every signature, that of [sign] included. *)
Theorem round_trip_fails_on_short_y (fuel : nat) (hashlib : Hashlib) :
  exists pk sk : bytes,
    ECDSASigner.generate_keypair (300 + fuel) (signer_P256 hashlib)
      (repeat x00 39 ++ [x2b]) = Ret (pk, sk) /\
    len pk = 63 /\
    forall (fuel' : nat) (message signature : bytes),
      ECDSASigner.verify fuel' (signer_P256 hashlib) pk message signature
        = Ret false.
Proof.
  pose (X := 68940400736695912148960890999721852106142292820061709409680925607912859161229).
  pose (Y := 107423973961867739917642914452788810230878776317276661678353934116262542999).
  exists (be_digits 32 X ++ be_digits 31 Y), (be_digits 32 43).
  split; [|split].
  - eapply refines_ret;
      [apply (ecdsa_generate_keypair_mono 300 (300 + fuel)); lia|].
    vm_compute. reflexivity.
  - vm_compute. reflexivity.
  - intros fuel' message signature. apply verify_off_curve.
    vm_compute. reflexivity.
Qed.

(* ================================================================== *)
(** * Point arithmetic on P-256 *)

(** C7: on P-256, with [G] the generator and [None] the point at infinity:
    [point_add(infinity, G) == G], [point_add(G, negate(G))] is infinity,
    [scalar_mult(n, G)] is infinity, [scalar_mult(1, G) == G], and
    [scalar_mult(k, P)] is infinity for every [k] that is [0] modulo [n]. *)
Theorem point_arithmetic_identities_P256 (fuel : nat) :
  (300 <= fuel)%nat ->
  let c := P256_curve in
  let G := Some (g c) in
  point_add fuel c None G = Ret G /\
  point_add fuel c (Some (mkPoint None None)) G = Ret G /\
  point_add fuel c G (negate c G) = Ret None /\
  scalar_mult fuel c (n c) G = Ret None /\
  scalar_mult fuel c 1 G = Ret G /\
  scalar_mult fuel c 1 None = Ret G /\
  (forall (k : Z) (P : option Point),
      k mod n c = 0 -> scalar_mult fuel c k P = Ret None).
Proof.
  intros Hf c G.
  assert (Hn : n c <> 0) by (vm_compute; discriminate).
  split; [|split; [|split; [|split; [|split; [|split]]]]].
  - reflexivity.
  - reflexivity.
  - vm_compute. reflexivity.
  - apply scalar_mult_zero_mod; [exact Hn | vm_compute; reflexivity].
  - eapply refines_ret; [apply (scalar_mult_mono 300 fuel Hf)|].
    vm_compute. reflexivity.
  - eapply refines_ret; [apply (scalar_mult_mono 300 fuel Hf)|].
    vm_compute. reflexivity.
  - intros k P Hk. now apply scalar_mult_zero_mod.
Qed.

Lemma point_arithmetic_identities_P256_witness :
  (300 <= 300)%nat /\
  point_add 300 P256_curve None (Some (g P256_curve))
    = Ret (Some (g P256_curve)) /\
  scalar_mult 300 P256_curve 1 (Some (g P256_curve))
    = Ret (Some (g P256_curve)) /\
  (2 * n P256_curve) mod n P256_curve = 0 /\
  scalar_mult 300 P256_curve (2 * n P256_curve) None = Ret None.
Proof.
  assert (H : (300 <= 300)%nat) by lia.
  pose proof (point_arithmetic_identities_P256 300 H) as T.
  cbv zeta in T.
  destruct T as (T1 & _ & _ & _ & T5 & _ & T7).
  assert (E : (2 * n P256_curve) mod n P256_curve = 0) by (vm_compute; reflexivity).
  split; [exact H|]. split; [exact T1|]. split; [exact T5|].
  split; [exact E|]. exact (T7 _ None E).
Defined.

(* ================================================================== *)
(** * Bytes and integers *)

Lemma byte_to_Z_range (b : byte) : 0 <= byte_to_Z b < 256.
Proof.
  unfold byte_to_Z. pose proof (Byte.to_N_bounded b). lia.
Qed.

Lemma byte_to_of_Z (z : Z) : byte_to_Z (byte_of_Z z) = z mod 256.
Proof.
  unfold byte_to_Z, byte_of_Z.
  pose proof (Z.mod_pos_bound z 256 ltac:(lia)) as Hr.
  destruct (Byte.of_N (Z.to_N (z mod 256))) as [b|] eqn:E.
  - apply Byte.to_of_N in E. rewrite E. lia.
  - apply Byte.of_N_None_iff in E. lia.
Qed.

Lemma from_bytes_snoc (l : bytes) (b : byte) :
  from_bytes (l ++ [b]) = from_bytes l * 256 + byte_to_Z b.
Proof. unfold from_bytes. rewrite fold_left_app. reflexivity. Qed.

Lemma from_bytes_range (l : bytes) : 0 <= from_bytes l < 256 ^ len l.
Proof.
  unfold len. induction l as [|b l IH] using rev_ind.
  - cbn. lia.
  - rewrite from_bytes_snoc, length_app, Nat.add_comm. cbn [length Nat.add].
    rewrite Nat2Z.inj_succ, Z.pow_succ_r by lia.
    pose proof (byte_to_Z_range b). nia.
Qed.

Lemma length_be_digits (k : nat) (v : Z) : List.length (be_digits k v) = k.
Proof.
  revert v. induction k as [|k IH]; intros v; cbn; [reflexivity|].
  rewrite length_app, IH. cbn. lia.
Qed.

Lemma from_bytes_be_digits (k : nat) (v : Z) :
  from_bytes (be_digits k v) = v mod 256 ^ Z.of_nat k.
Proof.
  revert v. induction k as [|k IH]; intros v.
  - cbn. now rewrite Z.mod_1_r.
  - cbn [be_digits]. rewrite from_bytes_snoc, IH, byte_to_of_Z.
    rewrite Nat2Z.inj_succ, Z.pow_succ_r by lia.
    rewrite Z.rem_mul_r by lia.
    lia.
Qed.

Lemma to_bytes_fits (v k : Z) :
  0 <= k -> 0 <= v < 256 ^ k ->
  exists bs, to_bytes v k = Ret bs /\ len bs = k /\ from_bytes bs = v.
Proof.
  intros Hk Hv. exists (be_digits (Z.to_nat k) v). unfold to_bytes.
  destruct (Z.ltb_spec k 0); [lia|].
  destruct (Z.ltb_spec v 0); [lia|].
  destruct (Z.leb_spec (256 ^ k) v); [lia|].
  split; [reflexivity|]. split.
  - unfold len. rewrite length_be_digits. lia.
  - rewrite from_bytes_be_digits, Z2Nat.id by lia. apply Z.mod_small. lia.
Qed.

(* ================================================================== *)
(** * [bits2int] and [bits2octets] *)

Lemma bit_length_spec (q : Z) :
  0 < q -> 0 < bit_length q /\ 2 ^ (bit_length q - 1) <= q < 2 ^ bit_length q.
Proof.
  intros Hq. unfold bit_length.
  destruct (Z.eqb_spec q 0); [lia|].
  rewrite Z.abs_eq by lia.
  pose proof (Z.log2_nonneg q). pose proof (Z.log2_spec q Hq) as Hs.
  replace (Z.log2 q + 1 - 1) with (Z.log2 q) by lia.
  replace (Z.log2 q + 1) with (Z.succ (Z.log2 q)) by lia. lia.
Qed.

Lemma bits2int_range (b : bytes) (qlen : Z) :
  0 <= qlen -> 0 <= bits2int b qlen < 2 ^ qlen.
Proof.
  intros Hq. unfold bits2int.
  pose proof (from_bytes_range b) as Hr.
  assert (E : 256 ^ len b = 2 ^ (len b * 8)).
  { change 256 with (2 ^ 8). rewrite <- Z.pow_mul_r; unfold len; try lia.
    f_equal. lia. }
  rewrite E in Hr.
  destruct (Z.ltb_spec qlen (len b * 8)) as [Hlt|Hge].
  - rewrite Z.shiftr_div_pow2 by lia. split.
    + apply Z.div_pos; [lia | apply Z.pow_pos_nonneg; lia].
    + apply Z.div_lt_upper_bound; [apply Z.pow_pos_nonneg; lia|].
      rewrite <- Z.pow_add_r by lia.
      replace (len b * 8 - qlen + qlen) with (len b * 8) by lia. lia.
  - split; [lia|]. eapply Z.lt_le_trans; [apply Hr|].
    apply Z.pow_le_mono_r; lia.
Qed.

(** C5: for every byte string [h1] and every positive [q] (a prime group
    order in particular), with [qlen = bitlen(q)] and
    [rolen = ceil(qlen / 8)]: [bits2int] yields [z1 < 2^qlen <= 2q], so the
    single conditional subtraction is the reduction modulo [q], the result
    fits in [rolen] bytes, and [bits2octets(h1, q, qlen)] returns the
    [rolen]-byte big-endian encoding of [bits2int(h1, qlen) mod q]. *)
Theorem bits2octets_reduces_mod_q (h1 : bytes) (q : Z) :
  0 < q ->
  let qlen := bit_length q in
  let rolen := (qlen + 7) / 8 in
  let z1 := bits2int h1 qlen in
  0 <= z1 < 2 ^ qlen /\ 2 ^ qlen <= 2 * q /\
  (if q <=? z1 then z1 - q else z1) = z1 mod q /\
  bits2octets h1 q qlen = to_bytes (z1 mod q) rolen /\
  exists bs : bytes,
    bits2octets h1 q qlen = Ret bs /\
    len bs = rolen /\
    from_bytes bs = z1 mod q /\
    bs = be_digits (Z.to_nat rolen) (z1 mod q).
Proof.
  intros Hq qlen rolen z1.
  destruct (bit_length_spec q Hq) as (Hpos & Hlo & Hhi). fold qlen in Hpos, Hlo, Hhi.
  assert (Hz : 0 <= z1 < 2 ^ qlen) by (apply bits2int_range; lia).
  assert (H2 : 2 ^ qlen <= 2 * q).
  { replace qlen with (Z.succ (qlen - 1)) at 1 by lia.
    rewrite Z.pow_succ_r by lia. lia. }
  assert (Hmod : (if q <=? z1 then z1 - q else z1) = z1 mod q).
  { destruct (Z.leb_spec q z1).
    - apply Z.mod_unique with 1; lia.
    - symmetry. apply Z.mod_small. lia. }
  assert (Hbo : bits2octets h1 q qlen = to_bytes (z1 mod q) rolen).
  { unfold bits2octets, int2octets. fold z1. rewrite Hmod. reflexivity. }
  repeat split; try lia; try assumption.
  assert (Hro : 0 <= rolen) by (apply Z.div_pos; lia).
  assert (Hfit : 0 <= z1 mod q < 256 ^ rolen).
  { pose proof (Z.mod_pos_bound z1 q Hq).
    split; [lia|]. apply Z.lt_le_trans with (2 ^ qlen); [lia|].
    change 256 with (2 ^ 8). rewrite <- Z.pow_mul_r by lia.
    apply Z.pow_le_mono_r; [lia|].
    unfold rolen. pose proof (Z.mul_div_le (qlen + 7) 8 ltac:(lia)).
    pose proof (Z.mod_pos_bound (qlen + 7) 8 ltac:(lia)).
    pose proof (Z.div_mod (qlen + 7) 8 ltac:(lia)). lia. }
  exists (be_digits (Z.to_nat rolen) (z1 mod q)).
  rewrite Hbo. unfold to_bytes.
  destruct (Z.ltb_spec rolen 0); [lia|].
  destruct (Z.ltb_spec (z1 mod q) 0); [lia|].
  destruct (Z.leb_spec (256 ^ rolen) (z1 mod q)); [lia|].
  split; [reflexivity|]. split; [|split; [|reflexivity]].
  - unfold len. rewrite length_be_digits. lia.
  - rewrite from_bytes_be_digits, Z2Nat.id by lia. apply Z.mod_small. lia.
Qed.

Lemma bits2octets_reduces_mod_q_witness :
  0 < cp_n P256 /\
  exists bs : bytes,
    bits2octets (repeat xff 32) (cp_n P256) (bit_length (cp_n P256)) = Ret bs /\
    len bs = 32 /\
    from_bytes bs = (2 ^ 256 - 1) mod cp_n P256.
Proof.
  assert (H : 0 < cp_n P256) by reflexivity.
  split; [exact H|].
  destruct (bits2octets_reduces_mod_q (repeat xff 32) (cp_n P256) H)
    as (_ & _ & _ & _ & bs & E1 & E2 & E3 & _).
  exists bs. split; [exact E1|]. split; [exact E2|]. exact E3.
Defined.

(* ================================================================== *)
(** * Loops: invariant and variant *)

Lemma loop_rule {S R : Type} (I : S -> Prop) (Q : R -> Prop) (mu : S -> nat)
  (body : S -> res (step S R)) :
  (forall s, I s ->
     (exists s', body s = Ret (Continue s') /\ I s' /\ (mu s' < mu s)%nat) \/
     (exists r, body s = Ret (Break r) /\ Q r)) ->
  forall fuel s, I s -> (mu s < fuel)%nat ->
    exists r, loop fuel body s = Ret r /\ Q r.
Proof.
  intros Hbody. induction fuel as [|fuel IH]; intros s Hs Hmu; [lia|].
  cbn [loop].
  destruct (Hbody s Hs) as [(s' & E & Hs' & Hlt) | (r & E & Hr)]; rewrite E; cbn.
  - apply IH; [exact Hs' | lia].
  - exists r. split; [reflexivity | exact Hr].
Qed.

Lemma while_rule {S : Type} (I : S -> Prop) (mu : S -> nat)
  (cond : S -> bool) (body : S -> res S) :
  (forall s, I s -> cond s = true ->
     exists s', body s = Ret s' /\ I s' /\ (mu s' < mu s)%nat) ->
  forall fuel s, I s -> (mu s < fuel)%nat ->
    exists s', while fuel cond body s = Ret s' /\ I s' /\ cond s' = false.
Proof.
  intros Hbody fuel s Hs Hmu. unfold while.
  apply (loop_rule I (fun s' => I s' /\ cond s' = false) mu); try assumption.
  intros s0 Hs0. destruct (cond s0) eqn:Ec.
  - left. destruct (Hbody s0 Hs0 Ec) as (s' & E & Hs' & Hlt).
    exists s'. rewrite E. cbn. auto.
  - right. exists s0. auto.
Qed.

(* ================================================================== *)
(** * [modinv] *)

Lemma modinv_step (a m lm hm low high : Z) :
  modinv_inv a m (lm, hm, low, high) -> 1 < low ->
  let r := high / low in
  modinv_inv a m (hm - lm * r, lm, high - low * r, low) /\
  Nat.lt (modinv_mu (hm - lm * r, lm, high - low * r, low))
         (modinv_mu (lm, hm, low, high)).
Proof.
  intros Hinv H1. cbv beta iota zeta delta [modinv_inv modinv_mu] in *.
  destruct Hinv as (Hlow & Hhigh & Hlm & Hhm & Hg). set (r := high / low).
  assert (Hnew : high - low * r = high mod low).
  { unfold r. rewrite Z.mod_eq by lia. reflexivity. }
  pose proof (Z.mod_pos_bound high low ltac:(lia)) as Hb.
  assert (Hr : 1 <= r).
  { unfold r. apply Z.div_le_lower_bound; lia. }
  split; [split; [|split; [|split; [|split]]]|].
  - lia.
  - lia.
  - rewrite Z.mul_sub_distr_r, Zminus_mod, Hhm.
    replace (lm * r * a) with (r * (lm * a)) by ring.
    rewrite <- (Zmult_mod_idemp_r (lm * a)), Hlm, Zmult_mod_idemp_r.
    rewrite <- Zminus_mod. f_equal. ring.
  - exact Hlm.
  - rewrite <- Hg, Hnew. apply Z.gcd_mod. lia.
  - assert (H2 : 2 * ((high - low * r) * low) < low * high) by nia.
    destruct (Z.eq_dec (high - low * r) 0) as [E0|N0].
    + rewrite E0. cbn [Z.mul Z.log2 Z.to_nat].
      assert (2 <= Z.log2 (low * high)).
      { apply Z.log2_le_pow2; nia. }
      lia.
    + assert (Hpos : 0 < (high - low * r) * low) by nia.
      pose proof (Z.log2_double _ Hpos) as Hd.
      pose proof (Z.log2_le_mono (2 * ((high - low * r) * low)) (low * high) ltac:(lia)).
      pose proof (Z.log2_nonneg ((high - low * r) * low)).
      lia.
Qed.

Lemma modinv_coprime (fuel : nat) (a m : Z) :
  1 < m -> Z.gcd a m = 1 -> 2 * Z.log2 m + 2 <= Z.of_nat fuel ->
  exists v, modinv fuel a m = Ret v /\ 0 <= v < m /\ (a * v) mod m = 1.
Proof.
  intros Hm Hg Hf. unfold modinv.
  destruct (Z.eqb_spec a 0) as [->|Ha].
  { rewrite Z.gcd_0_l in Hg. lia. }
  rewrite py_mod_nonzero by lia. cbn [bind].
  pose proof (Z.mod_pos_bound a m ltac:(lia)) as Hb.
  match goal with
  | |- context [while fuel ?c ?b ?s0] =>
      destruct (fun H => while_rule (modinv_inv a m) modinv_mu c b H fuel s0)
        as ([[[lm hm] low] high] & E & Hinv & Hc)
  end.
  - intros [[[lm hm] low] high] Hinv Hc.
    apply Z.ltb_lt in Hc. eexists. split; [reflexivity|].
    apply modinv_step; assumption.
  - cbv beta iota delta [modinv_inv]. split; [lia|]. split; [lia|]. split.
    + rewrite Z.mul_1_l. now rewrite Z.mod_mod by lia.
    + split; [cbn; now rewrite Z.mod_same by lia|].
      rewrite Z.gcd_mod by lia. apply Z.gcd_comm.
  - cbv beta iota delta [modinv_mu].
    assert (Z.log2 (a mod m * m) <= 2 * Z.log2 m + 1).
    { destruct (Z.eq_dec (a mod m) 0) as [->|N0].
      - change (Z.log2 (0 * m)) with 0. pose proof (Z.log2_nonneg m). lia.
      - pose proof (Z.log2_mul_below (a mod m) m ltac:(lia) ltac:(lia)).
        pose proof (Z.log2_mul_above (a mod m) m ltac:(lia) ltac:(lia)).
        pose proof (Z.log2_le_mono (a mod m) m ltac:(lia)). lia. }
    pose proof (Z.log2_nonneg (a mod m * m)).
    revert H H0 Hf. generalize (Z.log2 (a mod m * m)) (Z.log2 m). lia.
  - rewrite E. cbn [bind]. rewrite py_mod_nonzero by lia.
    apply Z.ltb_ge in Hc. cbv beta iota delta [modinv_inv] in Hinv.
    destruct Hinv as (Hlow & Hhigh & Hlm & _ & Hg').
    assert (low = 1).
    { destruct (Z.eq_dec low 0) as [->|]; [|lia].
      rewrite Z.gcd_0_l, Z.abs_eq in Hg' by lia. lia. }
    subst low. exists (lm mod m). split; [reflexivity|]. split.
    + apply Z.mod_pos_bound. lia.
    + rewrite Zmult_mod_idemp_r, Z.mul_comm, Hlm. apply Z.mod_1_l. lia.
Qed.

(* ================================================================== *)
(** * The group law: closure and commutativity *)

Module WeierstrassFacts.
Import NsatzTactic Ncring_initial.

Section Curve.

Context {F : Type} {zero one : F} {add mul sub : F -> F -> F} {opp : F -> F}
  {Ro : @Ring_ops F zero one add mul sub opp (@eq F)}
  {Rr : Ring (Ro := Ro)} {Rcr : Cring (Rr := Rr)}
  {Rid : Integral_domain (Rcr := Rcr)}.

Variable inv : F -> F.
Hypothesis inv_ok : forall v : F, v <> 0 -> v * inv v = 1.
Variable eq_dec : forall u v : F, {u = v} + {u <> v}.
Variables a b : F.

Local Abbreviation wpoint := (@Weierstrass.wpoint F).
Local Abbreviation on := (Weierstrass.on a b).
Local Abbreviation wadd := (Weierstrass.wadd inv eq_dec a).
Local Abbreviation wadd_case := (Weierstrass.wadd_case a b).

Lemma same_x (x y1 y2 : F) :
  y1 * y1 = x * x * x + a * x + b ->
  y2 * y2 = x * x * x + a * x + b ->
  y1 + y2 <> 0 -> y1 = y2.
Proof.
  intros H1 H2 N.
  assert (E : (y1 - y2) * (y1 + y2) = 0) by nsatz.
  destruct (integral_domain_product _ _ E) as [E1|E1].
  - nsatz.
  - contradiction.
Qed.

Lemma wadd_spec (x1 y1 x2 y2 : F) :
  y1 * y1 = x1 * x1 * x1 + a * x1 + b ->
  y2 * y2 = x2 * x2 * x2 + a * x2 + b ->
  wadd_case x1 y1 x2 y2 (wadd (Some (x1, y1)) (Some (x2, y2))).
Proof.
  intros H1 H2. unfold Weierstrass.wadd.
  destruct (eq_dec x1 x2) as [Ex|Nx].
  - destruct (eq_dec (y1 + y2) 0) as [Ey|Ny].
    + now apply Weierstrass.case_opp.
    + subst x2. assert (Ey : y1 = y2) by (now apply (same_x x1)). subst y2.
      assert (N2 : (1 + 1) * y1 <> 0).
      { intros E. apply Ny. rewrite <- E. nsatz. }
      pose proof (inv_ok _ N2) as Hi.
      cbv zeta.
      set (i := inv ((1 + 1) * y1)) in *. clearbody i.
      apply (Weierstrass.case_dbl a b _ _ _ _ i); try reflexivity.
      * nsatz.
      * unfold Weierstrass.dbl_x, Weierstrass.dbl_y. nsatz.
  - assert (N2 : x2 - x1 <> 0).
    { intros E. apply Nx. nsatz. }
    pose proof (inv_ok _ N2) as Hi. cbv zeta.
    set (i := inv (x2 - x1)) in *. clearbody i.
    apply (Weierstrass.case_add a b _ _ _ _ i); try reflexivity; try assumption.
    unfold Weierstrass.add_x, Weierstrass.add_y. nsatz.
Qed.

Lemma inv_unique (d i j : F) : d * i = 1 -> d * j = 1 -> j = i.
Proof.
  intros Hi Hj.
  assert (E : j = (d * i) * j) by (rewrite Hi; nsatz).
  rewrite E. transitivity (i * (d * j)); [nsatz | rewrite Hj; nsatz].
Qed.

Lemma inv_opp_unique (u v i j : F) :
  (u - v) * i = 1 -> (v - u) * j = 1 -> j = 0 - i.
Proof.
  intros Hi Hj. apply (inv_unique (v - u)); [|exact Hj].
  rewrite <- Hi. nsatz.
Qed.

Lemma no_inverse_of_zero (u i : F) : (u - u) * i = 1 -> False.
Proof.
  intros H. apply (integral_domain_one_zero (Integral_domain := Rid)).
  rewrite <- H. nsatz.
Qed.

(** Two inverses of one denominator are one variable, and a difference
    [u - u] has none. *)
Ltac same_inverses :=
  try match goal with
    | H : (?u - ?u) * _ = 1 |- _ =>
        exfalso; exact (no_inverse_of_zero _ _ H)
    end;
  repeat match goal with
    | H1 : ?d * ?i = 1, H2 : ?d * ?j = 1 |- _ =>
        assert_fails (constr_eq i j);
        pose proof (inv_unique d i j H1 H2); subst j; clear H2
    | H1 : (?u - ?v) * ?i = 1, H2 : (?v - ?u) * ?j = 1 |- _ =>
        pose proof (inv_opp_unique u v i j H1 H2); subst j; clear H2
    end.

Ltac contra :=
  exfalso; apply (integral_domain_one_zero (Integral_domain := Rid)).

Ltac split_case :=
  first
    [ reflexivity
    | match goal with
      | |- Some _ = Some _ => f_equal; f_equal
      | |- Some _ = None => contra
      | |- None = Some _ => contra
      end ];
  unfold Weierstrass.dbl_y, Weierstrass.add_y in *;
  unfold Weierstrass.dbl_x, Weierstrass.add_x in *; subst.

(** The slope of the chord does not depend on the order of its ends. *)
Lemma slope_swap (x1 y1 x2 y2 i j : F) :
  (x2 - x1) * i = 1 -> (x1 - x2) * j = 1 ->
  (y2 - y1) * i = (y1 - y2) * j.
Proof. intros Hi Hj. same_inverses. nsatz. Qed.

(** The sum of two points of the curve is on the curve. *)
Lemma wadd_on (P Q : wpoint) : on P -> on Q -> on (wadd P Q).
Proof.
  destruct P as [[x1 y1]|], Q as [[x2 y2]|];
    try (cbn [Weierstrass.on Weierstrass.wadd]; now auto).
  intros H1 H2.
  destruct (wadd_spec x1 y1 x2 y2 H1 H2); cbn [Weierstrass.on]; trivial.
Qed.

(** Addition is commutative on the curve. *)
Lemma wadd_comm (P Q : wpoint) : on P -> on Q -> wadd P Q = wadd Q P.
Proof.
  destruct P as [[x1 y1]|], Q as [[x2 y2]|];
    try (cbn [Weierstrass.on Weierstrass.wadd]; now auto).
  intros H1 H2.
  destruct (wadd_spec x1 y1 x2 y2 H1 H2), (wadd_spec x2 y2 x1 y1 H2 H1).
  all: split_case; same_inverses.
  all: nsatz.
Qed.

End Curve.
End WeierstrassFacts.

Section Bridge.

Variable c : Curve.
Hypothesis Hp : Z.prime (p c).

Let Hp2 : 2 <= p c := Z.prime_ge_2 _ Hp.

Lemma of_Z_small_inj (u v : Z) :
  0 <= u < p c -> 0 <= v < p c ->
  Zmod.of_Z (p c) u = Zmod.of_Z (p c) v -> u = v.
Proof.
  intros Hu Hv E. apply Zmod.of_Z_inj in E.
  rewrite !Z.mod_small in E by lia. exact E.
Qed.

Lemma of_Z_zero_iff (u : Z) :
  Zmod.of_Z (p c) u = Zmod.zero <-> u mod p c = 0.
Proof.
  rewrite <- Zmod.of_Z_0, Zmod.of_Z_inj. now rewrite Z.mod_0_l by lia.
Qed.

Lemma zinv_ok (v : Zmod (p c)) :
  v <> Zmod.zero -> Zmod.mul v (Zmod.inv v) = Zmod.one.
Proof. intros H. now apply Zmod.mul_inv_same_r_prime. Qed.

Lemma is_on_curve_finite (x1 y1 : Z) :
  is_on_curve c (Some (mkPoint (Some x1) (Some y1))) = Ret true <->
  curve_on c (to_wpoint c (Some (mkPoint (Some x1) (Some y1)))).
Proof.
  unfold is_on_curve, curve_on. cbn [none_or_infinite is_infinite x y to_wpoint Weierstrass.on].
  rewrite py_mod_nonzero by lia. cbn [bind].
  cbv [Algebra_syntax.multiplication Algebra_syntax.addition
       Ncring.mul_notation Ncring.add_notation].
  rewrite <- !Zmod.of_Z_mul, <- !Zmod.of_Z_add, Zmod.of_Z_inj.
  split.
  - intros E. injection E as E. apply Z.eqb_eq in E.
    rewrite ?Z.pow_pos_fold in E. apply Z.cong_iff_0. rewrite <- E. f_equal. ring.
  - intros E. f_equal. apply Z.eqb_eq. apply Z.cong_iff_0 in E.
    rewrite <- E. f_equal. ring.
Qed.


Lemma gcd_prime_nonzero (u : Z) : u mod p c <> 0 -> Z.gcd u (p c) = 1.
Proof.
  intros H. rewrite Z.gcd_comm. apply Z.coprime_prime_l; [exact Hp|].
  intros D. apply H. apply Z.mod_divide in D; [exact D | lia].
Qed.

Lemma modinv_prime (fuel : nat) (u : Z) :
  u mod p c <> 0 -> (modinv_fuel (p c) <= fuel)%nat ->
  exists v, modinv fuel u (p c) = Ret v /\ 0 <= v < p c /\
            (u * v) mod p c = 1 mod p c.
Proof.
  intros Hu Hf.
  destruct (modinv_coprime fuel u (p c)) as (v & E & Hv & Hm).
  - lia.
  - now apply gcd_prime_nonzero.
  - unfold modinv_fuel in Hf. pose proof (Z.log2_nonneg (p c)). lia.
  - exists v. split; [exact E|]. split; [exact Hv|].
    rewrite Hm. symmetry. apply Z.mod_1_l. lia.
Qed.

Local Abbreviation zA := (Zmod.of_Z (p c) (a c)).
Local Abbreviation zB := (Zmod.of_Z (p c) (b c)).
Local Abbreviation zRid := (ZmodNsatz.Integral_domain_Zmod (p c) Hp).
Local Notation "u [+] v" :=
  (@Algebra_syntax.addition _ (@Ncring.add_notation _ _ _ _ _ _ _ _
     (ZmodNsatz.Ring_ops_Zmod (p c))) u v) (at level 50, left associativity).
Local Notation "u [-] v" :=
  (@Algebra_syntax.subtraction _ (@Ncring.sub_notation _ _ _ _ _ _ _ _
     (ZmodNsatz.Ring_ops_Zmod (p c))) u v) (at level 50, left associativity).
Local Notation "u [*] v" :=
  (@Algebra_syntax.multiplication _ _ (@Ncring.mul_notation _ _ _ _ _ _ _ _
     (ZmodNsatz.Ring_ops_Zmod (p c))) u v) (at level 40, left associativity).
Local Notation "[0]" :=
  (@Algebra_syntax.zero _ (@Ncring.zero_notation _ _ _ _ _ _ _ _
     (ZmodNsatz.Ring_ops_Zmod (p c)))).
Local Notation "[1]" :=
  (@Algebra_syntax.one _ (@Ncring.one_notation _ _ _ _ _ _ _ _
     (ZmodNsatz.Ring_ops_Zmod (p c)))).

(** [Zmod.of_Z] is a ring morphism, in the notation of the curve theory. *)
Lemma ofZ_add (u v : Z) :
  Zmod.of_Z (p c) (u + v) = Zmod.of_Z (p c) u [+] Zmod.of_Z (p c) v.
Proof. exact (Zmod.of_Z_add u v). Qed.

Lemma ofZ_sub (u v : Z) :
  Zmod.of_Z (p c) (u - v) = Zmod.of_Z (p c) u [-] Zmod.of_Z (p c) v.
Proof. exact (Zmod.of_Z_sub u v). Qed.

Lemma ofZ_mul (u v : Z) :
  Zmod.of_Z (p c) (u * v) = Zmod.of_Z (p c) u [*] Zmod.of_Z (p c) v.
Proof. exact (Zmod.of_Z_mul u v). Qed.

Lemma ofZ_0 : Zmod.of_Z (p c) 0 = [0].
Proof. exact (Zmod.of_Z_0 (p c)). Qed.

Lemma ofZ_1 : Zmod.of_Z (p c) 1 = [1].
Proof. exact (Zmod.of_Z_1 (p c)). Qed.

Lemma ofZ_3 : Zmod.of_Z (p c) 3 = [1] [+] [1] [+] [1].
Proof. rewrite <- !ofZ_1, <- !ofZ_add. reflexivity. Qed.

Lemma ofZ_zero_iff (u : Z) : Zmod.of_Z (p c) u = [0] <-> u mod p c = 0.
Proof. exact (of_Z_zero_iff u). Qed.

Lemma zinv_ok' (v : Zmod (p c)) : v <> [0] -> v [*] Zmod.inv v = [1].
Proof. exact (zinv_ok v). Qed.

Lemma zero_has_no_inverse (i : Zmod (p c)) : [0] [*] i = [1] -> False.
Proof.
  intros H. apply (Zmod.one_neq_zero (m := p c)); [lia|].
  change ([1] = [0]). rewrite <- H. exact (Zmod.mul_0_l i).
Qed.

Lemma zsub_same (u : Zmod (p c)) : u [-] u = [0].
Proof. exact (Zmod.sub_same u). Qed.

Ltac push_of_Z :=
  repeat first
    [ rewrite Zmod.of_Z_mod | rewrite ofZ_sub | rewrite ofZ_add | rewrite ofZ_mul ].

Lemma point_add_finite (fuel : nat) (x1 y1 x2 y2 : Z) :
  let P := Some (mkPoint (Some x1) (Some y1)) in
  let Q := Some (mkPoint (Some x2) (Some y2)) in
  valid_point c P -> valid_point c Q -> (modinv_fuel (p c) <= fuel)%nat ->
  exists R,
    point_add fuel c P Q = Ret R /\
    (R = None \/
     exists xr yr, R = Some (mkPoint (Some xr) (Some yr)) /\
                   0 <= xr < p c /\ 0 <= yr < p c) /\
    to_wpoint c R = curve_add c (to_wpoint c P) (to_wpoint c Q).
Proof.
  intros P Q [OP RP] [OQ RQ] Hf. subst P Q.
  apply is_on_curve_finite in OP, OQ.
  cbn [reduced] in RP, RQ. destruct RP as [Rx1 Ry1], RQ as [Rx2 Ry2].
  unfold curve_add, curve_on in *. cbn [to_wpoint] in *.
  cbn [Weierstrass.on] in OP, OQ.
  pose proof (WeierstrassFacts.wadd_spec (Rid := zRid) Zmod.inv zinv_ok'
                (zeq_dec (p c)) zA zB _ _ _ _ OP OQ) as W.
  set (S := Weierstrass.wadd _ _ _ _ _) in *. clearbody S.
  unfold point_add. cbn [none_or_infinite is_infinite x y].
  assert (Hpos : forall v, 0 <= v mod p c < p c)
    by (intros v; apply Z.mod_pos_bound; lia).
  destruct (Z.eqb_spec x1 x2) as [Ex|Nx].
  - subst x2. rewrite py_mod_nonzero by lia. cbn [bind].
    destruct (Z.eqb_spec ((y1 + y2) mod p c) 0) as [Ey|Ny].
    + (* opposite points *)
      exists None. split; [reflexivity|]. split; [now left|]. cbn [to_wpoint].
      apply ofZ_zero_iff in Ey. rewrite ofZ_add in Ey.
      destruct W as [E1 E2 | i x3 y3 E1 E2 Hi E3 E4 C0 | i x3 y3 Hi E3 E4 C0].
      * reflexivity.
      * exfalso. rewrite <- E2 in Ey. rewrite Ey in Hi.
        exact (zero_has_no_inverse _ Hi).
      * exfalso. rewrite zsub_same in Hi. exact (zero_has_no_inverse _ Hi).
    + (* doubling *)
      assert (NY : Zmod.of_Z (p c) y1 [+] Zmod.of_Z (p c) y2 <> [0]).
      { rewrite <- ofZ_add. now rewrite ofZ_zero_iff. }
      destruct W as [E1 E2 | i x3 y3 E1 E2 Hi E3 E4 C0 | i x3 y3 Hi E3 E4 C0].
      * contradiction.
      * apply (of_Z_small_inj y1 y2 Ry1 Ry2) in E2. subst y2.
        destruct (modinv_prime fuel (2 * y1)) as (v & Ev & Rv & Hv).
        { replace (2 * y1) with (y1 + y1) by ring. exact Ny. }
        { exact Hf. }
        rewrite Ev. cbn [bind]. repeat (rewrite py_mod_nonzero by lia; cbn [bind]).
        assert (Ei : i = Zmod.of_Z (p c) v).
        { apply (WeierstrassFacts.inv_unique (Rid := zRid)
                   (Zmod.of_Z (p c) y1 [+] Zmod.of_Z (p c) y1)); [|exact Hi].
          rewrite <- ofZ_add, <- ofZ_mul, <- ofZ_1. apply Zmod.of_Z_inj.
          rewrite <- Hv. f_equal. ring. }
        eexists. split; [reflexivity|]. split.
        { right. do 2 eexists. split; [reflexivity|]. split; apply Hpos. }
        cbn [to_wpoint]. rewrite E3, E4, Ei.
        unfold Weierstrass.dbl_y, Weierstrass.dbl_x.
        do 2 f_equal; push_of_Z; rewrite ?ofZ_3; reflexivity.
      * exfalso. rewrite zsub_same in Hi. exact (zero_has_no_inverse _ Hi).
  - (* chord *)
    cbn [bind].
    assert (NX : Zmod.of_Z (p c) x1 <> Zmod.of_Z (p c) x2).
    { intros E. apply Nx. now apply of_Z_small_inj. }
    destruct W as [E1 E2 | i x3 y3 E1 E2 Hi E3 E4 C0 | i x3 y3 Hi E3 E4 C0];
      try contradiction.
    destruct (modinv_prime fuel (x2 - x1)) as (v & Ev & Rv & Hv).
    { intros E. apply Nx. symmetry. apply Z.cong_iff_0 in E.
      rewrite !Z.mod_small in E by lia. exact E. }
    { exact Hf. }
    rewrite Ev. cbn [bind]. repeat (rewrite py_mod_nonzero by lia; cbn [bind]).
    assert (Ei : i = Zmod.of_Z (p c) v).
    { apply (WeierstrassFacts.inv_unique (Rid := zRid)
               (Zmod.of_Z (p c) x2 [-] Zmod.of_Z (p c) x1)); [|exact Hi].
      rewrite <- ofZ_sub, <- ofZ_mul, <- ofZ_1. apply Zmod.of_Z_inj.
      rewrite <- Hv. reflexivity. }
    eexists. split; [reflexivity|]. split.
    { right. do 2 eexists. split; [reflexivity|]. split; apply Hpos. }
    cbn [to_wpoint]. rewrite E3, E4, Ei.
    unfold Weierstrass.add_y, Weierstrass.add_x.
    do 2 f_equal; push_of_Z; reflexivity.
Qed.


Lemma to_wpoint_infinite (P : option Point) :
  none_or_infinite P = true -> to_wpoint c P = None.
Proof. destruct P as [[[px|] [py|]]|]; cbn; congruence. Qed.

Lemma finite_shape (P : option Point) :
  none_or_infinite P = false ->
  exists px py, P = Some (mkPoint (Some px) (Some py)).
Proof. destruct P as [[[px|] [py|]]|]; cbn; try discriminate; eauto. Qed.

Lemma valid_infinite (P : option Point) :
  none_or_infinite P = true -> valid_point c P.
Proof.
  intros H. split.
  - unfold is_on_curve. now rewrite H.
  - destruct P as [[[px|] [py|]]|]; cbn in *; trivial; discriminate.
Qed.

Lemma valid_on (P : option Point) :
  valid_point c P -> curve_on c (to_wpoint c P).
Proof.
  intros V. destruct (none_or_infinite P) eqn:E.
  - rewrite (to_wpoint_infinite P E). exact I.
  - destruct (finite_shape P E) as (px & py & ->).
    apply is_on_curve_finite. apply V.
Qed.

Lemma curve_add_on (P Q : @Weierstrass.wpoint (Zmod (p c))) :
  curve_on c P -> curve_on c Q -> curve_on c (curve_add c P Q).
Proof.
  exact (WeierstrassFacts.wadd_on (Rid := zRid) Zmod.inv zinv_ok' (zeq_dec (p c))
           zA zB P Q).
Qed.

Lemma curve_add_comm (P Q : @Weierstrass.wpoint (Zmod (p c))) :
  curve_on c P -> curve_on c Q -> curve_add c P Q = curve_add c Q P.
Proof.
  exact (WeierstrassFacts.wadd_comm (Rid := zRid) Zmod.inv zinv_ok' (zeq_dec (p c))
           zA zB P Q).
Qed.

(** [point_add] on points of the curve returns a point of the curve, the
    sum of the two in the group law. *)
Lemma point_add_valid (fuel : nat) (P Q : option Point) :
  valid_point c P -> valid_point c Q -> (modinv_fuel (p c) <= fuel)%nat ->
  exists R,
    point_add fuel c P Q = Ret R /\ valid_point c R /\
    to_wpoint c R = curve_add c (to_wpoint c P) (to_wpoint c Q).
Proof.
  intros VP VQ Hf.
  destruct (none_or_infinite P) eqn:EP.
  { exists Q. unfold point_add. rewrite EP. split; [reflexivity|].
    split; [exact VQ|]. now rewrite (to_wpoint_infinite P EP). }
  destruct (none_or_infinite Q) eqn:EQ.
  { exists P. unfold point_add. rewrite EP, EQ. split; [reflexivity|].
    split; [exact VP|]. rewrite (to_wpoint_infinite Q EQ).
    unfold curve_add. now destruct (to_wpoint c P) as [[? ?]|]. }
  destruct (finite_shape P EP) as (x1 & y1 & ->).
  destruct (finite_shape Q EQ) as (x2 & y2 & ->).
  destruct (point_add_finite fuel x1 y1 x2 y2 VP VQ Hf) as (R & E & Sh & ER).
  exists R. split; [exact E|]. split; [|exact ER].
  pose proof (curve_add_on _ _ (valid_on _ VP) (valid_on _ VQ)) as On.
  rewrite <- ER in On.
  destruct Sh as [->|(xr & yr & -> & Hx & Hy)].
  - now apply valid_infinite.
  - split; [now apply is_on_curve_finite | now split].
Qed.

(** The same without a bound on the fuel: whatever [point_add] returns on
    points of the curve is a point of the curve. *)
Lemma point_add_valid_any (fuel : nat) (P Q R : option Point) :
  valid_point c P -> valid_point c Q ->
  point_add fuel c P Q = Ret R ->
  valid_point c R /\
  to_wpoint c R = curve_add c (to_wpoint c P) (to_wpoint c Q).
Proof.
  intros VP VQ E.
  destruct (point_add_valid (Nat.max fuel (modinv_fuel (p c))) P Q VP VQ)
    as (R' & E' & V & ER); [lia|].
  assert (R' = R).
  { pose proof (point_add_mono fuel (Nat.max fuel (modinv_fuel (p c)))
                  ltac:(lia) c P Q) as M.
    rewrite (refines_ret _ _ _ M E) in E'. congruence. }
  subst R'. now split.
Qed.

End Bridge.

Lemma loop_partial {S R : Type} (I : S -> Prop) (Q : R -> Prop)
  (body : S -> res (step S R)) :
  (forall s s', I s -> body s = Ret (Continue s') -> I s') ->
  (forall s r, I s -> body s = Ret (Break r) -> Q r) ->
  forall fuel s r, I s -> loop fuel body s = Ret r -> Q r.
Proof.
  intros Hc Hb. induction fuel as [|fuel IH]; intros s r Hs E; [discriminate|].
  cbn [loop] in E. destruct (body s) as [[s'|r']| |] eqn:Eb; cbn in E;
    try discriminate.
  - eapply IH; [|exact E]. eapply Hc; eauto.
  - injection E as <-. eapply Hb; eauto.
Qed.

Lemma while_partial {S : Type} (I : S -> Prop) (cond : S -> bool)
  (body : S -> res S) :
  (forall s s', I s -> cond s = true -> body s = Ret s' -> I s') ->
  forall fuel s s', I s -> while fuel cond body s = Ret s' ->
    I s' /\ cond s' = false.
Proof.
  intros Hb fuel s s' Hs E. unfold while in E.
  apply (loop_partial I (fun s' => I s' /\ cond s' = false)) in E; trivial.
  - intros s0 s1 H0. destruct (cond s0) eqn:Ec; [|discriminate].
    destruct (body s0) eqn:Eb; cbn; try discriminate.
    intros [= <-]. eapply Hb; eauto.
  - intros s0 r H0. destruct (cond s0) eqn:Ec.
    + destruct (body s0); cbn; discriminate.
    + intros [= <-]. now split.
Qed.

Section ScalarMult.

Variable c : Curve.
Hypothesis Hp : Z.prime (p c).

Lemma valid_None : valid_point c None.
Proof. now apply valid_infinite. Qed.

Lemma scalar_mult_valid_any (fuel : nat) (k : Z) (P R : option Point) :
  valid_point c (base_point c P) ->
  scalar_mult fuel c k P = Ret R -> valid_point c R.
Proof.
  intros VP. unfold scalar_mult. fold (base_point c P).
  destruct (py_mod k (n c)) as [km| |]; cbn [bind]; try discriminate.
  destruct ((km =? 0) || _).
  { intros [= <-]. apply valid_None. }
  match goal with
  | |- context [while fuel ?cond ?body ?s0] =>
      destruct (while fuel cond body s0) as [[[k' result] addend]| |] eqn:E;
      cbn [bind]; try discriminate;
      apply (while_partial (sm_valid c) cond body) in E
  end.
  - intros [= <-]. apply E.
  - intros [[k0 r0] a0] [[k1 r1] a1] [Vr Va] _.
    destruct (negb (Z.land k0 1 =? 0)).
    + destruct (point_add fuel c r0 a0) as [r'| |] eqn:E1; cbn [bind]; try discriminate.
      destruct (point_add fuel c a0 a0) as [a'| |] eqn:E2; cbn [bind]; try discriminate.
      intros [= <- <- <-]. split.
      * eapply point_add_valid_any; [exact Hp| | |exact E1]; assumption.
      * eapply point_add_valid_any; [exact Hp| | |exact E2]; assumption.
    + cbn [bind].
      destruct (point_add fuel c a0 a0) as [a'| |] eqn:E2; cbn [bind]; try discriminate.
      intros [= <- <- <-]. split; [assumption|].
      eapply point_add_valid_any; [exact Hp| | |exact E2]; assumption.
  - split; [apply valid_None | exact VP].
Qed.


Lemma bit_length_halves (k : Z) :
  0 < k -> 0 <= bit_length (Z.shiftr k 1) < bit_length k.
Proof.
  intros Hk. rewrite Z.shiftr_div_pow2 by lia. change (2 ^ 1) with 2.
  unfold bit_length.
  destruct (Z.eqb_spec k 0); [lia|].
  pose proof (Z.div_mod k 2 ltac:(lia)) as Hd.
  pose proof (Z.mod_pos_bound k 2 ltac:(lia)) as Hm.
  destruct (Z.eqb_spec (k / 2) 0) as [E0|N0].
  - pose proof (Z.log2_nonneg (Z.abs k)). lia.
  - assert (Hh : 0 < k / 2) by (pose proof (Z.div_pos k 2); lia).
    rewrite !Z.abs_eq by lia.
    assert (Z.log2 k = Z.log2 (k / 2) + 1).
    { assert (Hc : k mod 2 = 0 \/ k mod 2 = 1) by lia.
      destruct Hc as [Ec|Ec]; rewrite Ec in Hd.
      - rewrite Hd at 1. rewrite Z.add_0_r. now apply Z.log2_double.
      - rewrite Hd at 1. now apply Z.log2_succ_double. }
    pose proof (Z.log2_nonneg (k / 2)). lia.
Qed.

Lemma scalar_mult_valid (fuel : nat) (k : Z) (P : option Point) :
  valid_point c (base_point c P) -> n c <> 0 -> 0 <= k ->
  (scalar_mult_fuel c k <= fuel)%nat ->
  exists R, scalar_mult fuel c k P = Ret R /\ valid_point c R.
Proof.
  intros VP Hn Hk Hf. unfold scalar_mult. fold (base_point c P).
  rewrite py_mod_nonzero by exact Hn. cbn [bind].
  destruct ((k mod n c =? 0) || _).
  { exists None. split; [reflexivity | apply valid_None]. }
  unfold scalar_mult_fuel in Hf.
  match goal with
  | |- context [while fuel ?cond ?body ?s0] =>
      destruct (fun H => while_rule
                  (fun s => sm_valid c s /\ 0 <= fst (fst s)) sm_mu cond body H fuel s0)
        as ([[k' result] addend] & E & [Hv _] & _)
  end.
  - intros [[k0 r0] a0] [[Vr Va] H0] Hc. cbn [fst] in H0.
    apply negb_true_iff, Z.eqb_neq in Hc.
    destruct (point_add_valid c Hp fuel a0 a0 Va Va ltac:(lia)) as (a' & Ea & Va' & _).
    assert (Hmu : (Z.to_nat (bit_length (Z.shiftr k0 1)) < Z.to_nat (bit_length k0))%nat).
    { pose proof (bit_length_halves k0 ltac:(lia)). lia. }
    assert (H1 : 0 <= Z.shiftr k0 1) by (apply Z.shiftr_nonneg; lia).
    destruct (negb (Z.land k0 1 =? 0)).
    + destruct (point_add_valid c Hp fuel r0 a0 Vr Va ltac:(lia)) as (r' & Er & Vr' & _).
      rewrite Er. cbn [bind]. rewrite Ea. cbn [bind].
      eexists. split; [reflexivity|]. cbn [sm_valid sm_mu fst]. auto.
    + cbn [bind]. rewrite Ea. cbn [bind].
      eexists. split; [reflexivity|]. cbn [sm_valid sm_mu fst]. auto.
  - cbn [sm_valid fst]. split; [split; [apply valid_None | exact VP] | exact Hk].
  - cbn [sm_mu]. lia.
  - rewrite E. cbn [bind]. exists result. split; [reflexivity | apply Hv].
Qed.

End ScalarMult.

Lemma prime_17 : Z.prime 17.
Proof.
  split; [lia|]. intros m Hm [q Hq].
  assert (Hc : m = 2 \/ m = 3 \/ m = 4 \/ m = 5 \/ m = 6 \/ m = 7 \/ m = 8 \/
               m = 9 \/ m = 10 \/ m = 11 \/ m = 12 \/ m = 13 \/ m = 14 \/
               m = 15 \/ m = 16) by lia.
  repeat (destruct Hc as [->|Hc]; [lia|]). subst m. lia.
Qed.

(** C9: group closure.  On a curve over a prime field, [point_add] of two
    points that [is_on_curve] accepts and whose coordinates lie in
    [[0, p - 1]] (the point at infinity included) returns a point that
    [is_on_curve] accepts, with coordinates in [[0, p - 1]] again.
    Consequently whatever [scalar_mult] returns from such a point (the
    generator when no point is given) is on the curve, and for a scalar
    [k >= 0] it does return, within one turn of its loop per bit of [k]. *)
Theorem point_add_closed (c : Curve) :
  Z.prime (p c) ->
  (forall (fuel : nat) (P Q : option Point),
      valid_point c P -> valid_point c Q ->
      (modinv_fuel (p c) <= fuel)%nat ->
      exists R, point_add fuel c P Q = Ret R /\
                is_on_curve c R = Ret true /\ reduced c R) /\
  (forall (fuel : nat) (k : Z) (P R : option Point),
      valid_point c (base_point c P) ->
      scalar_mult fuel c k P = Ret R ->
      is_on_curve c R = Ret true /\ reduced c R) /\
  (forall (fuel : nat) (k : Z) (P : option Point),
      valid_point c (base_point c P) -> n c <> 0 -> 0 <= k ->
      (scalar_mult_fuel c k <= fuel)%nat ->
      exists R, scalar_mult fuel c k P = Ret R /\
                is_on_curve c R = Ret true /\ reduced c R).
Proof.
  intros Hp. split; [|split].
  - intros fuel P Q VP VQ Hf.
    destruct (point_add_valid c Hp fuel P Q VP VQ Hf) as (R & E & V & _).
    exists R. split; [exact E | exact V].
  - intros fuel k P R VP E. exact (scalar_mult_valid_any c Hp fuel k P R VP E).
  - intros fuel k P VP Hn Hk Hf.
    destruct (scalar_mult_valid c Hp fuel k P VP Hn Hk Hf) as (R & E & V).
    exists R. split; [exact E | exact V].
Qed.

Lemma point_add_closed_witness :
  Z.prime (p (Curve_init curve17)) /\
  (exists R, point_add 20 (Curve_init curve17)
               (Some (mkPoint (Some 5) (Some 1))) (Some (mkPoint (Some 6) (Some 3)))
             = Ret R /\
             is_on_curve (Curve_init curve17) R = Ret true /\
             reduced (Curve_init curve17) R) /\
  (exists R, scalar_mult 20 (Curve_init curve17) 11 None = Ret R /\
             is_on_curve (Curve_init curve17) R = Ret true /\
             reduced (Curve_init curve17) R).
Proof.
  pose proof (point_add_closed (Curve_init curve17) prime_17) as (T1 & _ & T3).
  split; [exact prime_17|]. split.
  - apply T1.
    + split; [reflexivity | cbn; lia].
    + split; [reflexivity | cbn; lia].
    + vm_compute. lia.
  - apply T3.
    + split; [reflexivity | cbn; lia].
    + cbn. lia.
    + lia.
    + vm_compute. lia.
Defined.

Section Commutative.

Variable c : Curve.
Hypothesis Hp : Z.prime (p c).

Lemma to_wpoint_inj (A B : option Point) :
  reduced c A -> reduced c B ->
  to_wpoint c A = to_wpoint c B -> same_point A B.
Proof.
  intros RA RB E.
  destruct (none_or_infinite A) eqn:EA, (none_or_infinite B) eqn:EB.
  - right. now split.
  - exfalso. rewrite (to_wpoint_infinite c A EA) in E.
    destruct (finite_shape B EB) as (x2 & y2 & ->). discriminate.
  - exfalso. rewrite (to_wpoint_infinite c B EB) in E.
    destruct (finite_shape A EA) as (x1 & y1 & ->). discriminate.
  - left. destruct (finite_shape A EA) as (x1 & y1 & ->).
    destruct (finite_shape B EB) as (x2 & y2 & ->).
    cbn [to_wpoint reduced] in *.
    assert (E1 : Zmod.of_Z (p c) x1 = Zmod.of_Z (p c) x2) by congruence.
    assert (E2 : Zmod.of_Z (p c) y1 = Zmod.of_Z (p c) y2) by congruence.
    apply (of_Z_small_inj c) in E1, E2; try tauto. now subst.
Qed.

Lemma slope_symmetric (fuel : nat) (x1 y1 x2 y2 : Z) :
  0 <= x1 < p c -> 0 <= x2 < p c -> x1 <> x2 ->
  (modinv_fuel (p c) <= fuel)%nat ->
  exists i j,
    modinv fuel (x2 - x1) (p c) = Ret i /\
    modinv fuel (x1 - x2) (p c) = Ret j /\
    ((y2 - y1) * i) mod p c = ((y1 - y2) * j) mod p c.
Proof.
  intros R1 R2 Nx Hf.
  pose proof (Z.prime_ge_2 _ Hp) as Hp2.
  assert (N21 : (x2 - x1) mod p c <> 0).
  { intros E. apply Nx. symmetry. apply Z.cong_iff_0 in E.
    rewrite !Z.mod_small in E by lia. exact E. }
  assert (N12 : (x1 - x2) mod p c <> 0).
  { intros E. apply Nx. apply Z.cong_iff_0 in E.
    rewrite !Z.mod_small in E by lia. exact E. }
  destruct (modinv_prime c Hp fuel _ N21 Hf) as (i & Ei & Ri & Hi).
  destruct (modinv_prime c Hp fuel _ N12 Hf) as (j & Ej & Rj & Hj).
  exists i, j. split; [exact Ei|]. split; [exact Ej|].
  apply Zmod.of_Z_inj. rewrite !(ofZ_mul c), !(ofZ_sub c).
  apply (WeierstrassFacts.slope_swap
           (Rid := ZmodNsatz.Integral_domain_Zmod (p c) Hp)
           (Zmod.of_Z (p c) x1) _ (Zmod.of_Z (p c) x2)).
  - rewrite <- (ofZ_sub c), <- (ofZ_mul c), <- (ofZ_1 c). now apply Zmod.of_Z_inj.
  - rewrite <- (ofZ_sub c), <- (ofZ_mul c), <- (ofZ_1 c). now apply Zmod.of_Z_inj.
Qed.

End Commutative.

(** C10, amended: point addition is commutative.  On a curve over a prime
    field, for two points [P], [Q] that [is_on_curve] accepts with
    coordinates in [[0, p - 1]] (infinity included), [point_add P Q] and
    [point_add Q P] both return and name the same point: the results are
    equal, except when [P] and [Q] are two different encodings of the point
    at infinity, where each call returns its second argument.  In the
    general-addition branch the chord slope
    [(y2 - y1) * modinv (x2 - x1) p mod p] is the same after swapping the
    arguments. *)
Theorem point_add_commutative (c : Curve) (fuel : nat) (P Q : option Point) :
  Z.prime (p c) ->
  valid_point c P -> valid_point c Q ->
  (modinv_fuel (p c) <= fuel)%nat ->
  (exists R1 R2,
      point_add fuel c P Q = Ret R1 /\ point_add fuel c Q P = Ret R2 /\
      same_point R1 R2 /\
      ((none_or_infinite P = true -> none_or_infinite Q = true -> P = Q) ->
       point_add fuel c P Q = point_add fuel c Q P)) /\
  (forall x1 y1 x2 y2,
      P = Some (mkPoint (Some x1) (Some y1)) ->
      Q = Some (mkPoint (Some x2) (Some y2)) ->
      x1 <> x2 ->
      exists i j,
        modinv fuel (x2 - x1) (p c) = Ret i /\
        modinv fuel (x1 - x2) (p c) = Ret j /\
        ((y2 - y1) * i) mod p c = ((y1 - y2) * j) mod p c).
Proof.
  intros Hp VP VQ Hf. split.
  - destruct (point_add_valid c Hp fuel P Q VP VQ Hf) as (R1 & E1 & V1 & W1).
    destruct (point_add_valid c Hp fuel Q P VQ VP Hf) as (R2 & E2 & V2 & W2).
    exists R1, R2. split; [exact E1|]. split; [exact E2|].
    assert (EW : to_wpoint c R1 = to_wpoint c R2).
    { rewrite W1, W2. apply curve_add_comm; [exact Hp| |]; now apply valid_on. }
    pose proof (to_wpoint_inj c R1 R2 (proj2 V1) (proj2 V2) EW) as SP.
    split; [exact SP|].
    intros Hinf. rewrite E1, E2. f_equal.
    destruct (none_or_infinite P) eqn:EP.
    + unfold point_add in E1, E2. rewrite EP in E1. injection E1 as E1.
      subst R1. destruct (none_or_infinite Q) eqn:EQ.
      * injection E2 as E2. subst R2. symmetry. now apply Hinf.
      * rewrite EP in E2. injection E2 as E2. now subst R2.
    + destruct (none_or_infinite Q) eqn:EQ.
      * unfold point_add in E1, E2. rewrite EP, EQ in E1. rewrite EQ in E2.
        injection E1 as E1. injection E2 as E2. now subst.
      * destruct SP as [SP|[I1 I2]]; [exact SP|].
        destruct (finite_shape P EP) as (x1 & y1 & ->).
        destruct (finite_shape Q EQ) as (x2 & y2 & ->).
        destruct (point_add_finite c Hp fuel x1 y1 x2 y2 VP VQ Hf)
          as (R & E & Sh & _).
        destruct (point_add_finite c Hp fuel x2 y2 x1 y1 VQ VP Hf)
          as (R' & E' & Sh' & _).
        rewrite E1 in E. injection E as <-. rewrite E2 in E'. injection E' as <-.
        destruct Sh as [->|(xr & yr & -> & _)]; [|discriminate].
        destruct Sh' as [->|(xr' & yr' & -> & _)]; [reflexivity | discriminate].
  - intros x1 y1 x2 y2 -> -> Nx.
    destruct VP as [_ [RP _]], VQ as [_ [RQ _]].
    now apply slope_symmetric.
Qed.

Lemma point_add_commutative_witness :
  Z.prime (p (Curve_init curve17)) /\
  point_add 20 (Curve_init curve17)
    (Some (mkPoint (Some 5) (Some 1))) (Some (mkPoint (Some 6) (Some 3)))
  = point_add 20 (Curve_init curve17)
      (Some (mkPoint (Some 6) (Some 3))) (Some (mkPoint (Some 5) (Some 1))).
Proof.
  split; [exact prime_17|].
  destruct (point_add_commutative (Curve_init curve17) 20
              (Some (mkPoint (Some 5) (Some 1))) (Some (mkPoint (Some 6) (Some 3)))
              prime_17) as [(R1 & R2 & _ & _ & _ & T) _].
  - split; [reflexivity | cbn; lia].
  - split; [reflexivity | cbn; lia].
  - vm_compute. lia.
  - apply T. intros H. discriminate H.
Defined.

(** C10, as stated: [None] and a [Point] without coordinates both encode the
    point at infinity and [is_on_curve] accepts both; added in the two
    orders they give two results that are not equal, since [point_add]
    returns its second argument when the first is infinite. *)
Lemma point_add_infinities_differ :
  valid_point P256_curve None /\
  valid_point P256_curve (Some (mkPoint None None)) /\
  point_add 0 P256_curve None (Some (mkPoint None None))
    = Ret (Some (mkPoint None None)) /\
  point_add 0 P256_curve (Some (mkPoint None None)) None = Ret None /\
  point_add 0 P256_curve None (Some (mkPoint None None))
    <> point_add 0 P256_curve (Some (mkPoint None None)) None.
Proof.
  split; [split; [reflexivity | exact I]|].
  split; [split; [reflexivity | exact I]|].
  split; [reflexivity|]. split; [reflexivity|].
  cbn [point_add none_or_infinite is_infinite x y orb]. discriminate.
Qed.

(* ================================================================== *)
(** * Square roots modulo a prime *)

Module PolyFacts.
Import NsatzTactic Ncring_initial.
Import Poly.

Section Roots.

Context {F : Type} {zero one : F} {add mul sub : F -> F -> F} {opp : F -> F}
  {Ro : @Ring_ops F zero one add mul sub opp (@eq F)}
  {Rr : Ring (Ro := Ro)} {Rcr : Cring (Rr := Rr)}
  {Rid : Integral_domain (Rcr := Rcr)}.

Lemma peval_factor (r v c : F) (l : list F) :
  peval (c :: l) v = peval (c :: l) r + (v - r) * peval (tails_eval r l) v.
Proof.
  revert c. induction l as [|c1 l IH]; intros c.
  - cbn [peval tails_eval]. nsatz.
  - specialize (IH c1). cbn [tails_eval].
    change (peval (c :: c1 :: l) v) with (c + v * peval (c1 :: l) v).
    change (peval (c :: c1 :: l) r) with (c + r * peval (c1 :: l) r).
    change (peval (peval (c1 :: l) r :: tails_eval r l) v)
      with (peval (c1 :: l) r + v * peval (tails_eval r l) v).
    rewrite IH. generalize (peval (c1 :: l) r) (peval (tails_eval r l) v).
    intros u w. nsatz.
Qed.

Lemma length_tails_eval (r : F) (l : list F) :
  length (tails_eval r l) = length l.
Proof. induction l; cbn [tails_eval length]; congruence. Qed.

Lemma last_tails_eval (r : F) (l : list F) :
  last (tails_eval r l) 0 = last l 0.
Proof.
  induction l as [|c [|c1 l] IH].
  - reflexivity.
  - cbn [tails_eval last peval]. nsatz.
  - change (tails_eval r (c :: c1 :: l))
      with (peval (c :: c1 :: l) r :: tails_eval r (c1 :: l)).
    change (last (c :: c1 :: l) 0) with (last (c1 :: l) 0).
    rewrite <- IH. reflexivity.
Qed.

(** A polynomial with [n + 1] coefficients, the leading one not zero, has
    at most [n] roots. *)
Lemma roots_bound (n : nat) :
  forall (l : list F) (rs : list F),
    length l = S n -> last l 0 <> 0 -> NoDup rs ->
    (forall r, In r rs -> peval l r = 0) ->
    (length rs <= n)%nat.
Proof.
  induction n as [|n IH]; intros l rs Hl Hlast Hnd Hroots.
  - destruct l as [|c [|? ?]]; try discriminate.
    destruct rs as [|r rs]; [cbn; lia|]. exfalso. apply Hlast.
    specialize (Hroots r (or_introl eq_refl)). cbn [peval last] in *.
    rewrite <- Hroots. nsatz.
  - destruct rs as [|r rs]; [cbn; lia|].
    destruct l as [|c l]; [discriminate|]. injection Hl as Hl.
    inversion Hnd as [|? ? Hnotin Hnd']; subst.
    cbn [length]. apply le_n_S.
    apply (IH (tails_eval r l) rs).
    + now rewrite length_tails_eval.
    + rewrite last_tails_eval. destruct l; [discriminate | exact Hlast].
    + exact Hnd'.
    + intros r' Hin.
      pose proof (Hroots r (or_introl eq_refl)) as E0.
      pose proof (Hroots r' (or_intror Hin)) as E1.
      rewrite (peval_factor r r') in E1. rewrite E0 in E1.
      assert (E2 : (r' - r) * peval (tails_eval r l) r' = 0).
      { rewrite <- E1. nsatz. }
      destruct (integral_domain_product _ _ E2) as [E3|E3]; [|exact E3].
      exfalso. apply Hnotin. replace r with r'; [exact Hin|]. nsatz.
Qed.

Lemma peval_repeat_0 (k : nat) (l : list F) (v : F) :
  peval (repeat 0 k ++ l) v = xpow v k * peval l v.
Proof.
  induction k as [|k IH]; cbn [repeat app peval xpow].
  - nsatz.
  - rewrite IH. nsatz.
Qed.

Lemma peval_x_pow_minus_1 (k : nat) (v : F) :
  peval (x_pow_minus_1 k) v = xpow v (S k) - 1.
Proof.
  unfold x_pow_minus_1. cbn [peval xpow]. rewrite peval_repeat_0.
  cbn [peval]. nsatz.
Qed.

(** At most [k] elements have [k]-th power one. *)
Lemma roots_of_unity_bound (k : nat) (rs : list F) :
  (0 < k)%nat -> NoDup rs -> (forall r, In r rs -> xpow r k = 1) ->
  (length rs <= k)%nat.
Proof.
  intros Hk Hnd Hr. destruct k as [|k]; [lia|].
  apply (roots_bound (S k) (x_pow_minus_1 k) rs).
  - unfold x_pow_minus_1. cbn [length]. rewrite length_app, repeat_length.
    cbn [length]. lia.
  - unfold x_pow_minus_1.
    change ((0 - 1) :: repeat 0 k ++ [1]) with (((0 - 1) :: repeat 0 k) ++ [1]).
    rewrite last_last.
    intros E. apply (integral_domain_one_zero (Integral_domain := Rid)). exact E.
  - exact Hnd.
  - intros r Hin. rewrite peval_x_pow_minus_1, (Hr r Hin). nsatz.
Qed.

End Roots.
End PolyFacts.

Lemma powmod_pos_spec (a : Z) (e : positive) (m : Z) :
  powmod_pos a e m = a ^ Zpos e mod m.
Proof.
  induction e as [e IH|e IH|]; cbn [powmod_pos].
  - rewrite IH. rewrite Pos2Z.inj_xI.
    rewrite Z.pow_add_r, Z.pow_1_r by lia.
    rewrite Z.mul_comm with (n := 2), Z.pow_mul_r by lia.
    rewrite Z.pow_2_r. rewrite <- Zmult_mod.
    now rewrite Zmult_mod_idemp_l.
  - rewrite IH. rewrite Pos2Z.inj_xO.
    rewrite Z.mul_comm with (n := 2), Z.pow_mul_r by lia.
    rewrite Z.pow_2_r. now rewrite <- Zmult_mod.
  - now rewrite Z.pow_1_r.
Qed.

(** [pow(a, e, m)] for a non-negative exponent is [a ^ e mod m]. *)
Lemma py_pow_spec (a e m : Z) :
  m <> 0 -> 0 <= e -> py_pow a e m = Ret (a ^ e mod m).
Proof.
  intros Hm He. unfold py_pow.
  destruct (Z.eqb_spec m 0); [contradiction|].
  destruct e as [|e|e]; [reflexivity | | lia].
  now rewrite powmod_pos_spec.
Qed.

Lemma prime_odd (p : Z) : Z.prime p -> 3 <= p -> p mod 2 = 1.
Proof.
  intros [_ H] H3.
  pose proof (Z.mod_pos_bound p 2 ltac:(lia)) as Hb.
  destruct (Z.eq_dec (p mod 2) 0) as [E|N]; [|lia].
  exfalso. apply (H 2); [lia|]. apply Z.mod_divide; [lia | exact E].
Qed.

Section NonResidue.

Variable p : Z.
Hypothesis Hp : Z.prime p.
Hypothesis Hp3 : 3 <= p.

Lemma xpow_pow (v : Zmod p) (k : nat) :
  Poly.xpow (Ro := ZmodNsatz.Ring_ops_Zmod p) v k = Zmod.pow v (Z.of_nat k).
Proof.
  induction k as [|k IH].
  - symmetry. apply Zmod.pow_0_r.
  - rewrite Nat2Z.inj_succ, Zmod.pow_succ_nonneg_r by lia.
    rewrite <- IH. reflexivity.
Qed.

Lemma zmod_pow_half_sq (z : Zmod p) :
  z <> Zmod.zero ->
  Zmod.pow (Zmod.pow z ((p - 1) / 2)) 2 = Zmod.one.
Proof.
  intros Hz. pose proof (prime_odd p Hp Hp3) as Hodd.
  rewrite <- Zmod.pow_mul_r_nonneg by (Z.to_euclidean_division_equations; lia).
  replace ((p - 1) / 2 * 2) with (Z.pred p)
    by (Z.to_euclidean_division_equations; lia).
  now apply Zmod.fermat_nz.
Qed.

(** Some unit is not a root of [X^((p-1)/2) - 1]: that polynomial has at
    most [(p-1)/2] roots and there are [p - 1] units. *)
Lemma non_residue_Zmod :
  exists z : Zmod p,
    z <> Zmod.zero /\ Zmod.pow z ((p - 1) / 2) = Zmod.opp Zmod.one.
Proof.
  pose proof (prime_odd p Hp Hp3) as Hodd.
  set (k := Z.to_nat ((p - 1) / 2)).
  assert (Hk : Z.of_nat k = (p - 1) / 2)
    by (unfold k; Z.to_euclidean_division_equations; lia).
  destruct (Forall_Exists_dec
              (fun r : Zmod p => Zmod.pow r (Z.of_nat k) = Zmod.one)
              (fun r => zeq_dec p _ _) (Zmod.invertibles p)) as [Hall|Hex].
  - exfalso. rewrite Forall_forall in Hall.
    pose proof (PolyFacts.roots_of_unity_bound
                  (Rid := ZmodNsatz.Integral_domain_Zmod p Hp)
                  k (Zmod.invertibles p)) as B.
    rewrite Zmod.length_invertibles_prime in B by exact Hp.
    assert (Z.to_nat (p - 1) <= k)%nat.
    { apply B.
      - unfold k. Z.to_euclidean_division_equations; lia.
      - apply Zmod.NoDup_invertibles.
      - intros r Hin. rewrite xpow_pow. now apply Hall. }
    unfold k in *. Z.to_euclidean_division_equations; lia.
  - apply Exists_exists in Hex. destruct Hex as (z & Hin & Hz).
    apply Zmod.in_invertibles in Hin. rewrite Hk in Hz.
    assert (Hnz : z <> Zmod.zero).
    { intros ->. unfold Z.coprime in Hin. rewrite Zmod.to_Z_0, Z.gcd_0_l in Hin. lia. }
    exists z. split; [exact Hnz|].
    destruct (proj1 (Zmod.square_roots_1_prime Hp _) (zmod_pow_half_sq z Hnz));
      [contradiction | assumption].
Qed.

(** An integer in [[2, p - 1]] whose Euler power is [p - 1]: the loop
    that looks for [z] finds one. *)
Lemma non_residue :
  exists z : Z, 2 <= z < p /\ z ^ ((p - 1) / 2) mod p = p - 1.
Proof.
  destruct non_residue_Zmod as (z & Hnz & Hz).
  assert (Hh : 0 <= (p - 1) / 2) by (Z.to_euclidean_division_equations; lia).
  exists (Zmod.to_Z z).
  pose proof (Zmod.unsigned_pos_bound z ltac:(lia)) as Hb.
  pose proof (Zmod.unsigned_nz z Hnz) as Hn0.
  split.
  - assert (Zmod.to_Z z <> 1); [|lia].
    intros E. assert (z = Zmod.one).
    { apply Zmod.unsigned_inj. rewrite E. symmetry. apply Zmod.unsigned_1_pos. lia. }
    subst z. rewrite Zmod.pow_1_l in Hz.
    symmetry in Hz. revert Hz. apply Zmod.opp_1_neq_1. lia.
  - rewrite <- Zmod.unsigned_pow_nonneg_r by exact Hh.
    rewrite Hz. apply Zmod.unsigned_m1_pos. lia.
Qed.

End NonResidue.

Section TonelliShanks.

Variables p a : Z.
Hypothesis Hp : Z.prime p.
Hypothesis Hp3 : 3 <= p.

Local Abbreviation zp := (Zmod.of_Z p).

Lemma zp_powmod (v e : Z) : 0 <= e -> zp (v ^ e mod p) = Zmod.pow (zp v) e.
Proof. intros He. now rewrite Zmod.of_Z_mod, Zmod.of_Z_pow. Qed.

Lemma zp_mulmod (u v : Z) : zp ((u * v) mod p) = Zmod.mul (zp u) (zp v).
Proof. now rewrite Zmod.of_Z_mod, Zmod.of_Z_mul. Qed.

Lemma zp_one_iff (t : Z) : 0 <= t < p -> zp t = Zmod.one <-> t = 1.
Proof.
  intros Ht. rewrite <- Zmod.of_Z_1, Zmod.of_Z_inj.
  rewrite !Z.mod_small by lia. reflexivity.
Qed.

Lemma zp_zero_iff (t : Z) : 0 <= t < p -> zp t = Zmod.zero <-> t = 0.
Proof.
  intros Ht. rewrite <- Zmod.of_Z_0, Zmod.of_Z_inj.
  rewrite !Z.mod_small by lia. reflexivity.
Qed.

Lemma pow2_pos (k : Z) : 0 <= k -> 0 < 2 ^ k.
Proof. intros. apply Z.pow_pos_nonneg; lia. Qed.

Lemma pow2_succ (k : Z) : 1 <= k -> 2 ^ k = 2 ^ (k - 1) * 2.
Proof.
  intros. replace k with (Z.succ (k - 1)) at 1 by lia.
  rewrite Z.pow_succ_r by lia. ring.
Qed.

Lemma pow2_split (m i : Z) :
  1 <= i < m -> 2 ^ (m - 1) = 2 ^ (m - i - 1) * 2 * 2 ^ (i - 1).
Proof.
  intros H. replace (m - 1) with ((m - i - 1) + 1 + (i - 1)) by lia.
  rewrite !Z.pow_add_r by lia. now rewrite Z.pow_1_r.
Qed.

(** The inner loop stops at the least [i] with [t^(2^i) = 1]; the power
    before it is [-1]. *)
Lemma ts_inner_loop (fuel : nat) (m t : Z) :
  0 <= t < p -> t <> 1 -> 1 <= m ->
  Zmod.pow (zp t) (2 ^ (m - 1)) = Zmod.one ->
  (Z.to_nat m <= fuel)%nat ->
  exists i t2i,
    while fuel
      (fun '(i, t2i) => negb (t2i =? 1))
      (fun '(i, t2i) => t2i' <- py_pow t2i 2 p ;; Ret (i + 1, t2i'))
      (1, t ^ 2 mod p) = Ret (i, t2i) /\
    1 <= i <= m - 1 /\
    Zmod.pow (zp t) (2 ^ (i - 1)) = Zmod.opp Zmod.one.
Proof.
  intros Ht Ht1 Hm Hord Hf.
  assert (HT1 : zp t <> Zmod.one) by (now rewrite zp_one_iff).
  assert (Hm2 : 2 <= m).
  { destruct (Z.eq_dec m 1) as [->|]; [|lia].
    exfalso. apply HT1. now rewrite Zmod.pow_1_r in Hord. }
  match goal with
  | |- context [while fuel ?c ?b ?s0] =>
      destruct (fun H => while_rule (ts_inner p m t) (ts_inner_mu m) c b H fuel s0)
        as ([i t2i] & E & Hinv & Hc)
  end.
  - intros [i t2i] (Hi & Hb & Et & Hprev) Hc.
    apply negb_true_iff, Z.eqb_neq in Hc.
    rewrite py_pow_spec by lia. cbn [bind].
    eexists. split; [reflexivity|].
    assert (Hne : Zmod.pow (zp t) (2 ^ i) <> Zmod.one).
    { rewrite <- Et. now rewrite zp_one_iff. }
    assert (i <> m - 1) by (intros ->; contradiction).
    cbn [ts_inner ts_inner_mu]. split; [|lia].
    split; [lia|]. split; [apply Z.mod_pos_bound; lia|]. split.
    + rewrite zp_powmod by lia. rewrite Et.
      rewrite <- Zmod.pow_mul_r_nonneg by (pose proof (pow2_pos i); lia).
      f_equal. rewrite (pow2_succ (i + 1)) by lia. now replace (i + 1 - 1) with i by lia.
    + now replace (i + 1 - 1) with i by lia.
  - cbn [ts_inner]. split; [lia|]. split; [apply Z.mod_pos_bound; lia|]. split.
    + rewrite zp_powmod by lia. reflexivity.
    + change (2 ^ (1 - 1)) with 1. now rewrite Zmod.pow_1_r.
  - cbn [ts_inner_mu]. lia.
  - exists i, t2i. split; [exact E|].
    destruct Hinv as (Hi & Hb & Et & Hprev).
    apply negb_false_iff, Z.eqb_eq in Hc. subst t2i.
    split; [exact Hi|].
    assert (Hsq : Zmod.pow (Zmod.pow (zp t) (2 ^ (i - 1))) 2 = Zmod.one).
    { rewrite <- Zmod.pow_mul_r_nonneg by (pose proof (pow2_pos (i - 1)); lia).
      rewrite <- pow2_succ by lia. rewrite <- Et. apply Zmod.of_Z_1. }
    apply (Zmod.square_roots_1_prime Hp) in Hsq.
    destruct Hsq; [contradiction | assumption].
Qed.

(** One turn of the main loop. *)
Lemma ts_step (fuel : nat) (bound m c t r : Z) :
  ts_inv p a bound (m, c, t, r) -> t <> 1 ->
  (Z.to_nat bound <= fuel)%nat ->
  exists i t2i,
    while fuel
      (fun '(i, t2i) => negb (t2i =? 1))
      (fun '(i, t2i) => t2i' <- py_pow t2i 2 p ;; Ret (i + 1, t2i'))
      (1, t ^ 2 mod p) = Ret (i, t2i) /\
    1 <= i < m /\
    ts_inv p a bound
      (i,
       (c ^ 2 ^ (m - i - 1) mod p * (c ^ 2 ^ (m - i - 1) mod p)) mod p,
       (t * ((c ^ 2 ^ (m - i - 1) mod p * (c ^ 2 ^ (m - i - 1) mod p)) mod p)) mod p,
       (r * (c ^ 2 ^ (m - i - 1) mod p)) mod p).
Proof.
  intros (Hm & Ht & Hc & Hord & Hr) Ht1 Hf.
  destruct (ts_inner_loop fuel m t Ht Ht1 ltac:(lia) Hord ltac:(lia))
    as (i & t2i & E & Hi & Hprev).
  exists i, t2i. split; [exact E|]. split; [lia|].
  assert (H2 : 0 < 2 ^ (m - i - 1)) by (apply pow2_pos; lia).
  assert (H3 : 0 < 2 ^ (i - 1)) by (apply pow2_pos; lia).
  set (b := c ^ 2 ^ (m - i - 1) mod p).
  assert (Eb : zp b = Zmod.pow (zp c) (2 ^ (m - i - 1))).
  { unfold b. apply zp_powmod. lia. }
  assert (Ec' : Zmod.pow (Zmod.mul (zp b) (zp b)) (2 ^ (i - 1)) = Zmod.opp Zmod.one).
  { rewrite <- Zmod.pow_2_r, Eb.
    rewrite <- !Zmod.pow_mul_r_nonneg by lia.
    rewrite <- Hc. f_equal.
    rewrite (pow2_split m i) by lia. ring. }
  cbn [ts_inv]. split; [lia|]. split; [apply Z.mod_pos_bound; lia|].
  rewrite !zp_mulmod. split; [exact Ec'|]. split.
  - rewrite Zmod.pow_mul_l_nonneg by lia. rewrite Hprev, Ec'.
    rewrite Zmod.mul_opp_opp. apply Zmod.mul_1_l.
  - transitivity (Zmod.mul (Zmod.mul (zp r) (zp r)) (Zmod.mul (zp b) (zp b))).
    + rewrite !Zmod.mul_assoc. f_equal.
      rewrite <- !Zmod.mul_assoc. f_equal. apply Zmod.mul_comm.
    + rewrite Hr. symmetry. apply Zmod.mul_assoc.
Qed.

End TonelliShanks.

Section ModularSqrt.

Variables p a : Z.
Hypothesis Hp : Z.prime p.
Hypothesis Hp3 : 3 <= p.

Local Abbreviation zp := (Zmod.of_Z p).

Lemma half_nonneg : 0 <= (p - 1) / 2.
Proof. Z.to_euclidean_division_equations; lia. Qed.

(** Euler's criterion, the direction the guard of [modular_sqrt] needs. *)
Lemma euler_residue (v : Z) :
  a mod p <> 0 -> (v * v) mod p = a mod p -> a ^ ((p - 1) / 2) mod p = 1.
Proof.
  intros Ha Hv. pose proof (prime_odd p Hp Hp3) as Hodd.
  assert (EA : zp a = Zmod.pow (zp v) 2).
  { rewrite Zmod.pow_2_r, <- Zmod.of_Z_mul. symmetry. now apply Zmod.of_Z_inj. }
  assert (NV : zp v <> Zmod.zero).
  { intros E. rewrite E, Zmod.pow_2_r, Zmod.mul_0_l in EA.
    now apply (Zmod.of_Z_nz a Ha). }
  assert (E1 : zp (a ^ ((p - 1) / 2) mod p) = zp 1).
  { rewrite (zp_powmod p) by apply half_nonneg. rewrite EA.
    rewrite <- Zmod.pow_mul_r_nonneg by (pose proof half_nonneg; lia).
    replace (2 * ((p - 1) / 2)) with (Z.pred p)
      by (Z.to_euclidean_division_equations; lia).
    rewrite Zmod.fermat_nz by assumption. symmetry. apply Zmod.of_Z_1. }
  apply Zmod.of_Z_inj in E1. rewrite Z.mod_mod in E1 by lia.
  rewrite E1. apply Z.mod_1_l. lia.
Qed.

Lemma zp_square (r t : Z) :
  Zmod.mul (zp r) (zp r) = Zmod.mul (zp a) (zp t) -> t = 1 ->
  (r * r) mod p = a mod p.
Proof.
  intros E ->. apply Zmod.of_Z_inj. rewrite Zmod.of_Z_mul, E.
  rewrite Zmod.of_Z_1. apply Zmod.mul_1_r.
Qed.

(** The fast path for [p = 3 mod 4]. *)
Lemma fast_path_square :
  p mod 4 = 3 -> a ^ ((p - 1) / 2) mod p = 1 ->
  (a ^ ((p + 1) / 4) mod p * (a ^ ((p + 1) / 4) mod p)) mod p = a mod p.
Proof.
  intros H4 Hls.
  assert (He : 0 <= (p + 1) / 4) by (Z.to_euclidean_division_equations; lia).
  apply Zmod.of_Z_inj. rewrite Zmod.of_Z_mul, (zp_powmod p) by exact He.
  rewrite <- Zmod.pow_2_r, <- Zmod.pow_mul_r_nonneg by lia.
  replace ((p + 1) / 4 * 2) with (Z.succ ((p - 1) / 2))
    by (Z.to_euclidean_division_equations; lia).
  rewrite Zmod.pow_succ_nonneg_r by apply half_nonneg.
  rewrite <- (zp_powmod p) by apply half_nonneg. rewrite Hls.
  rewrite Zmod.of_Z_1. apply Zmod.mul_1_r.
Qed.

(** What the state of the main loop starts from. *)
Lemma ts_inv_init (q s z : Z) :
  0 < q -> 1 <= s -> q * 2 ^ s = p - 1 -> q mod 2 = 1 ->
  z ^ ((p - 1) / 2) mod p = p - 1 ->
  a ^ ((p - 1) / 2) mod p = 1 ->
  ts_inv p a s (s, z ^ q mod p, a ^ q mod p, a ^ ((q + 1) / 2) mod p).
Proof.
  intros Hq Hs Hqs Hq2 Hz Hls.
  assert (Hh : q * 2 ^ (s - 1) = (p - 1) / 2).
  { rewrite (pow2_succ s) in Hqs by lia.
    pose proof (pow2_pos (s - 1) ltac:(lia)).
    Z.to_euclidean_division_equations; nia. }
  pose proof (pow2_pos (s - 1) ltac:(lia)) as H2.
  cbn [ts_inv]. split; [lia|]. split; [apply Z.mod_pos_bound; lia|].
  rewrite !(zp_powmod p) by (Z.to_euclidean_division_equations; lia).
  rewrite <- !Zmod.pow_mul_r_nonneg by lia. rewrite Hh.
  rewrite <- !(zp_powmod p) by apply half_nonneg. rewrite Hz, Hls.
  split; [|split].
  - replace (p - 1) with (-1 + 1 * p) by ring.
    rewrite <- Zmod.of_Z_mod, Z.mod_add, Zmod.of_Z_mod by lia.
    apply Zmod.of_Z_m1.
  - apply Zmod.of_Z_1.
  - rewrite <- Zmod.pow_2_r.
    rewrite <- Zmod.pow_mul_r_nonneg by (Z.to_euclidean_division_equations; lia).
    replace ((q + 1) / 2 * 2) with (Z.succ q)
      by (Z.to_euclidean_division_equations; lia).
    now rewrite Zmod.pow_succ_nonneg_r by lia.
Qed.

Lemma ts_inv_nonzero (bound m c r : Z) : ~ ts_inv p a bound (m, c, 0, r).
Proof.
  intros (Hm & _ & _ & Hord & _).
  rewrite Zmod.of_Z_0, Zmod.pow_0_l in Hord
    by (pose proof (pow2_pos (m - 1) ltac:(lia)); lia).
  symmetry in Hord. revert Hord. apply Zmod.one_neq_zero. lia.
Qed.

End ModularSqrt.

(** [modular_sqrt] returns a square root of every non-zero residue that has
    one, given one unit of fuel per value below [p]. *)
Lemma modular_sqrt_residue (fuel : nat) (a p : Z) :
  Z.prime p -> a mod p <> 0 -> (exists v, (v * v) mod p = a mod p) ->
  (Z.to_nat p <= fuel)%nat ->
  exists r, modular_sqrt fuel a p = Ret r /\ (r * r) mod p = a mod p.
Proof.
  intros Hp Ha [v Hv] Hf. pose proof (Z.prime_ge_2 _ Hp) as Hp2.
  unfold modular_sqrt.
  destruct (Z.eqb_spec a 0) as [->|Ha0].
  { rewrite Z.mod_0_l in Ha by lia. contradiction. }
  destruct (Z.eqb_spec p 2) as [->|Hn2].
  { rewrite py_mod_nonzero by lia. exists (a mod 2). split; [reflexivity|].
    assert (E : a mod 2 = 1) by (pose proof (Z.mod_pos_bound a 2); lia).
    rewrite E. reflexivity. }
  assert (Hp3 : 3 <= p) by lia.
  pose proof (prime_odd p Hp Hp3) as Hodd.
  pose proof (half_nonneg p Hp3) as Hh.
  pose proof (euler_residue p a Hp Hp3 v Ha Hv) as Hls.
  rewrite py_pow_spec by lia. cbn [bind]. rewrite Hls.
  change (negb (1 =? 1)) with false. cbv iota.
  rewrite py_mod_nonzero by lia. cbn [bind].
  destruct (Z.eqb_spec (p mod 4) 3) as [H4|H4].
  { rewrite py_pow_spec by (Z.to_euclidean_division_equations; lia).
    eexists. split; [reflexivity|]. now apply fast_path_square. }
  (* p - 1 = q * 2^s *)
  match goal with
  | |- context [while fuel ?c ?b ?s0] =>
      destruct (fun H => while_rule (ts_split p) (fun st => Z.to_nat (fst st))
                  c b H fuel s0)
        as ([q s] & E & (Hq & Hs & Hqs) & Hc)
  end.
  { intros [q s] (Hq & Hs & Hqs) Hc. apply Z.eqb_eq in Hc.
    eexists. split; [reflexivity|]. cbn [ts_split fst].
    split; [|Z.to_euclidean_division_equations; lia].
    split; [Z.to_euclidean_division_equations; lia|]. split; [lia|].
    rewrite Z.pow_add_r, Z.pow_1_r by lia. rewrite <- Hqs.
    Z.to_euclidean_division_equations; nia. }
  { cbn [ts_split]. split; [lia|]. split; [lia|]. cbn. lia. }
  { cbn [fst]. lia. }
  rewrite E. cbn [bind]. apply Z.eqb_neq in Hc.
  assert (Hq2 : q mod 2 = 1) by (pose proof (Z.mod_pos_bound q 2); lia).
  assert (Hs1 : 1 <= s).
  { destruct (Z.eq_dec s 0) as [->|]; [|lia]. exfalso.
    rewrite Z.pow_0_r, Z.mul_1_r in Hqs. subst q.
    Z.to_euclidean_division_equations; lia. }
  assert (Hsp : s < p).
  { pose proof (Z.pow_gt_lin_r 2 s ltac:(lia) ltac:(lia)). nia. }
  (* the non-residue z *)
  destruct (non_residue p Hp Hp3) as (z0 & Hz0 & Ez0).
  match goal with
  | |- context [loop fuel ?b 2] =>
      destruct (fun H => loop_rule
                  (fun z => 2 <= z <= z0)
                  (fun z => z ^ ((p - 1) / 2) mod p = p - 1)
                  (fun z => Z.to_nat (z0 - z)) b H fuel 2)
        as (z & Ez & Hz)
  end.
  { intros z Hz. rewrite py_pow_spec by lia. cbn [bind].
    destruct (Z.eqb_spec (z ^ ((p - 1) / 2) mod p) (p - 1)) as [Eq|Nq].
    - right. exists z. split; [reflexivity | exact Eq].
    - left. exists (z + 1). split; [reflexivity|].
      assert (z <> z0) by (intros ->; contradiction). split; lia. }
  { lia. }
  { lia. }
  rewrite Ez. cbn [bind].
  rewrite !py_pow_spec by (Z.to_euclidean_division_equations; lia).
  cbn [bind].
  (* the main loop *)
  match goal with
  | |- context [loop fuel ?b ?s0] =>
      destruct (fun H => loop_rule
                  (ts_inv p a s)
                  (fun r => (r * r) mod p = a mod p)
                  ts_mu b H fuel s0)
        as (r & Er & Hr)
  end.
  { intros [[[m c] t] r] Hinv.
    destruct (Z.eqb_spec t 0) as [->|Ht0].
    { exfalso. exact (ts_inv_nonzero p a Hp3 _ _ _ _ Hinv). }
    destruct (Z.eqb_spec t 1) as [Ht1|Ht1].
    { right. exists r. split; [reflexivity|].
      destruct Hinv as (_ & _ & _ & _ & Hrr). now apply (zp_square p a r t). }
    left. rewrite py_pow_spec by lia. cbn [bind].
    destruct (ts_step p a Hp Hp3 fuel s m c t r Hinv Ht1 ltac:(lia))
      as (i & t2i & Ei & Hi & Hinv').
    rewrite Ei. cbn [bind]. unfold py_shl1.
    destruct (Z.ltb_spec (m - i - 1) 0) as [|_]; [lia|]. cbn [bind].
    rewrite Z.shiftl_1_l.
    rewrite py_pow_spec by (pose proof (pow2_pos (m - i - 1) ltac:(lia)); lia).
    cbn [bind]. cbv zeta.
    eexists. split; [reflexivity|]. split; [exact Hinv'|].
    cbn [ts_mu]. lia. }
  { now apply ts_inv_init. }
  { cbn [ts_mu]. lia. }
  exists r. split; [exact Er | exact Hr].
Qed.

Lemma prime_7 : Z.prime 7.
Proof.
  split; [lia|]. intros m Hm [q Hq].
  assert (Hc : m = 2 \/ m = 3 \/ m = 4 \/ m = 5 \/ m = 6) by lia.
  repeat (destruct Hc as [->|Hc]; [lia|]). subst m. lia.
Qed.

(** C6: [modinv] and [modular_sqrt] are correct.  For every [a] and [m > 1]
    with [gcd a m = 1], [modinv a m] returns a value [v] in [[0, m - 1]]
    with [(a * v) mod m = 1].  For every prime [p] and every [a] in
    [[0, p - 1]] that is a square modulo [p], [modular_sqrt a p] returns an
    [r] with [r * r mod p = a]: through the guard on Euler's criterion,
    then the power [(p + 1) / 4] when [p = 3 mod 4], and the Tonelli-Shanks
    loops otherwise.  Both return within the stated fuel. *)
Theorem modinv_modular_sqrt_correct :
  (forall (fuel : nat) (a m : Z),
      1 < m -> Z.gcd a m = 1 -> (modinv_fuel m <= fuel)%nat ->
      exists v, modinv fuel a m = Ret v /\ 0 <= v < m /\ (a * v) mod m = 1) /\
  (forall (fuel : nat) (a p : Z),
      Z.prime p -> 0 <= a < p -> (exists v, (v * v) mod p = a) ->
      (Z.to_nat p <= fuel)%nat ->
      exists r, modular_sqrt fuel a p = Ret r /\ (r * r) mod p = a).
Proof.
  split.
  - intros fuel a m Hm Hg Hf. apply modinv_coprime; [exact Hm | exact Hg|].
    unfold modinv_fuel in Hf. pose proof (Z.log2_nonneg m). lia.
  - intros fuel a p Hp Ha [v Hv] Hf.
    pose proof (Z.prime_ge_2 _ Hp) as Hp2.
    destruct (Z.eq_dec a 0) as [->|Ha0].
    + exists 0. split; [reflexivity|]. now rewrite Z.mod_0_l by lia.
    + destruct (modular_sqrt_residue fuel a p Hp) as (r & E & Hr).
      * rewrite Z.mod_small by lia. exact Ha0.
      * exists v. now rewrite (Z.mod_small a) by lia.
      * exact Hf.
      * exists r. split; [exact E|]. now rewrite (Z.mod_small a) in Hr by lia.
Qed.

Lemma modinv_modular_sqrt_correct_witness :
  (exists v, modinv 6 3 7 = Ret v /\ 0 <= v < 7 /\ (3 * v) mod 7 = 1) /\
  (exists r, modular_sqrt 7 2 7 = Ret r /\ (r * r) mod 7 = 2) /\
  (exists r, modular_sqrt 17 2 17 = Ret r /\ (r * r) mod 17 = 2).
Proof.
  destruct modinv_modular_sqrt_correct as [T1 T2]. split; [|split].
  - apply T1; [lia | reflexivity | vm_compute; lia].
  - apply T2; [exact prime_7 | lia | exists 3; reflexivity | lia].
  - apply T2; [exact prime_17 | lia | exists 6; reflexivity | lia].
Defined.

(* ================================================================== *)
(** * Further properties of the code *)

(** The loop of [modinv] ends for every modulus above one, coprime to [a]
    or not, and leaves the gcd's verdict. *)
Lemma modinv_any (fuel : nat) (a m : Z) :
  a <> 0 -> 1 < m -> (modinv_fuel m <= fuel)%nat ->
  exists v, modinv fuel a m = Ret v /\ 0 <= v < m /\
            (a * v) mod m = (if Z.gcd a m =? 1 then 1 else 0).
Proof.
  intros Ha Hm Hf. unfold modinv.
  destruct (Z.eqb_spec a 0); [contradiction|].
  rewrite py_mod_nonzero by lia. cbn [bind].
  pose proof (Z.mod_pos_bound a m ltac:(lia)) as Hb.
  match goal with
  | |- context [while fuel ?c ?b ?s0] =>
      destruct (fun H => while_rule (modinv_inv a m) modinv_mu c b H fuel s0)
        as ([[[lm hm] low] high] & E & Hinv & Hlow)
  end.
  { intros [[[lm hm] low] high] Hinv Hc.
    apply Z.ltb_lt in Hc. eexists. split; [reflexivity|].
    apply modinv_step; assumption. }
  { cbv beta iota delta [modinv_inv]. split; [lia|]. split; [lia|]. split.
    - rewrite Z.mul_1_l. now rewrite Z.mod_mod by lia.
    - split; [cbn; now rewrite Z.mod_same by lia|].
      rewrite Z.gcd_mod by lia. apply Z.gcd_comm. }
  { cbv beta iota delta [modinv_mu]. unfold modinv_fuel in Hf.
    assert (Z.log2 (a mod m * m) <= 2 * Z.log2 m + 1).
    { destruct (Z.eq_dec (a mod m) 0) as [->|N0].
      - change (Z.log2 (0 * m)) with 0. pose proof (Z.log2_nonneg m). lia.
      - pose proof (Z.log2_mul_below (a mod m) m ltac:(lia) ltac:(lia)).
        pose proof (Z.log2_mul_above (a mod m) m ltac:(lia) ltac:(lia)).
        pose proof (Z.log2_le_mono (a mod m) m ltac:(lia)). lia. }
    pose proof (Z.log2_nonneg (a mod m * m)).
    pose proof (Z.log2_nonneg m).
    revert H H0 H1 Hf. generalize (Z.log2 (a mod m * m)) (Z.log2 m). lia. }
  apply Z.ltb_ge in Hlow.
  rewrite E. cbn [bind]. rewrite py_mod_nonzero by lia.
  exists (lm mod m). split; [reflexivity|].
  split; [apply Z.mod_pos_bound; lia|].
  cbv beta iota delta [modinv_inv] in Hinv.
  destruct Hinv as (Hl & Hh & Hlm & _ & Hg).
  rewrite Zmult_mod_idemp_r, Z.mul_comm, Hlm.
  destruct (Z.eq_dec low 0) as [->|N0].
  - rewrite Z.gcd_0_l, Z.abs_eq in Hg by lia.
    destruct (Z.eqb_spec (Z.gcd a m) 1); [lia|]. apply Z.mod_0_l. lia.
  - assert (low = 1) by lia. subst low.
    rewrite Z.gcd_1_l in Hg. rewrite <- Hg. cbn. apply Z.mod_1_l. lia.
Qed.

(** X1: [modinv] on every input.  [modinv(0, m)] raises [ValueError] and
    [modinv(a, 0)] for [a <> 0] raises [ZeroDivisionError]; for every other
    [a] and every modulus [m > 1] the loop ends within [2 log2 m + 2]
    turns, no exception is raised and the value lies in [[0, m - 1]]; it is
    an inverse of [a] exactly when [gcd a m = 1], and otherwise
    [a * modinv(a, m)] is [0] modulo [m]. *)
Theorem modinv_total :
  (forall (fuel : nat) (m : Z), modinv fuel 0 m = Raise ValueError) /\
  (forall (fuel : nat) (a : Z),
      a <> 0 -> modinv fuel a 0 = Raise ZeroDivisionError) /\
  (forall (fuel : nat) (a m : Z),
      a <> 0 -> 1 < m -> (modinv_fuel m <= fuel)%nat ->
      exists v, modinv fuel a m = Ret v /\ 0 <= v < m /\
                (a * v) mod m = (if Z.gcd a m =? 1 then 1 else 0)).
Proof.
  split; [|split].
  - reflexivity.
  - intros fuel a Ha. unfold modinv.
    destruct (Z.eqb_spec a 0); [contradiction | reflexivity].
  - intros fuel a m. apply modinv_any.
Qed.

Lemma modinv_total_witness :
  (exists v, modinv 8 6 9 = Ret v /\ 0 <= v < 9 /\ (6 * v) mod 9 = 0) /\
  (exists v, modinv 8 (-5) 9 = Ret v /\ 0 <= v < 9 /\ (-5 * v) mod 9 = 1).
Proof.
  destruct modinv_total as (_ & _ & T). split.
  - apply (T 8%nat 6 9); [lia | lia | vm_compute; lia].
  - apply (T 8%nat (-5) 9); [lia | lia | vm_compute; lia].
Defined.

(** Past its guard [modular_sqrt] needs nothing but Euler's power being
    one: it then returns a root. *)
Lemma modular_sqrt_euler (fuel : nat) (a p : Z) :
  Z.prime p -> 3 <= p -> a <> 0 -> a ^ ((p - 1) / 2) mod p = 1 ->
  (Z.to_nat p <= fuel)%nat ->
  exists r, modular_sqrt fuel a p = Ret r /\ (r * r) mod p = a mod p.
Proof.
  intros Hp Hp3 Ha0 Hls Hf.
  pose proof (prime_odd p Hp Hp3) as Hodd.
  pose proof (half_nonneg p Hp3) as Hh.
  unfold modular_sqrt.
  destruct (Z.eqb_spec a 0) as [|_]; [contradiction|].
  destruct (Z.eqb_spec p 2) as [|_]; [lia|].
  rewrite py_pow_spec by lia. cbn [bind]. rewrite Hls.
  change (negb (1 =? 1)) with false. cbv iota.
  rewrite py_mod_nonzero by lia. cbn [bind].
  destruct (Z.eqb_spec (p mod 4) 3) as [H4|H4].
  { assert (0 <= (p + 1) / 4) by (apply Z.div_pos; lia).
    rewrite py_pow_spec by lia.
    eexists. split; [reflexivity|]. now apply fast_path_square. }
  match goal with
  | |- context [while fuel ?c ?b ?s0] =>
      destruct (fun H => while_rule (ts_split p) (fun st => Z.to_nat (fst st))
                  c b H fuel s0)
        as ([q s] & E & (Hq & Hs & Hqs) & Hc)
  end.
  { intros [q s] (Hq & Hs & Hqs) Hc. apply Z.eqb_eq in Hc.
    eexists. split; [reflexivity|]. cbn [ts_split fst].
    assert (Hq2 : q = 2 * (q / 2)) by (apply Z.div_exact; lia).
    assert (Hq3 : 0 < q / 2) by lia.
    split; [|lia]. split; [exact Hq3|]. split; [lia|].
    rewrite Z.pow_add_r, Z.pow_1_r by lia. rewrite <- Hqs.
    rewrite Hq2 at 2. ring. }
  { cbn [ts_split]. split; [lia|]. split; [lia|]. cbn. lia. }
  { cbn [fst]. lia. }
  rewrite E. cbn [bind]. apply Z.eqb_neq in Hc.
  assert (Hq2 : q mod 2 = 1) by (pose proof (Z.mod_pos_bound q 2); lia).
  assert (Hs1 : 1 <= s).
  { destruct (Z.eq_dec s 0) as [->|]; [|lia]. exfalso.
    rewrite Z.pow_0_r, Z.mul_1_r in Hqs. subst q.
    rewrite <- Zminus_mod_idemp_l, Hodd in Hq2. discriminate Hq2. }
  assert (Hsp : s < p).
  { pose proof (Z.pow_gt_lin_r 2 s ltac:(lia) ltac:(lia)). nia. }
  destruct (non_residue p Hp Hp3) as (z0 & Hz0 & Ez0).
  match goal with
  | |- context [loop fuel ?b 2] =>
      destruct (fun H => loop_rule
                  (fun z => 2 <= z <= z0)
                  (fun z => z ^ ((p - 1) / 2) mod p = p - 1)
                  (fun z => Z.to_nat (z0 - z)) b H fuel 2)
        as (z & Ez & Hz)
  end.
  { intros z Hz. rewrite py_pow_spec by lia. cbn [bind].
    destruct (Z.eqb_spec (z ^ ((p - 1) / 2) mod p) (p - 1)) as [Eq|Nq].
    - right. exists z. split; [reflexivity | exact Eq].
    - left. exists (z + 1). split; [reflexivity|].
      assert (z <> z0) by (intros ->; contradiction). split; lia. }
  { lia. }
  { lia. }
  rewrite Ez. cbn [bind].
  assert (Hq0 : 0 <= q) by lia.
  assert (Hq1 : 0 <= (q + 1) / 2) by (apply Z.div_pos; lia).
  assert (Hpn : p <> 0) by lia.
  rewrite !py_pow_spec by assumption.
  cbn [bind].
  match goal with
  | |- context [loop fuel ?b ?s0] =>
      destruct (fun H => loop_rule
                  (ts_inv p a s)
                  (fun r => (r * r) mod p = a mod p)
                  ts_mu b H fuel s0)
        as (r & Er & Hr)
  end.
  { intros [[[m c] t] r] Hinv.
    destruct (Z.eqb_spec t 0) as [->|Ht0].
    { exfalso. exact (ts_inv_nonzero p a Hp3 _ _ _ _ Hinv). }
    destruct (Z.eqb_spec t 1) as [Ht1|Ht1].
    { right. exists r. split; [reflexivity|].
      destruct Hinv as (_ & _ & _ & _ & Hrr). now apply (zp_square p a r t). }
    left. rewrite py_pow_spec by lia. cbn [bind].
    destruct (ts_step p a Hp Hp3 fuel s m c t r Hinv Ht1 ltac:(lia))
      as (i & t2i & Ei & Hi & Hinv').
    rewrite Ei. cbn [bind]. unfold py_shl1.
    destruct (Z.ltb_spec (m - i - 1) 0) as [|_]; [lia|]. cbn [bind].
    rewrite Z.shiftl_1_l.
    rewrite py_pow_spec by (pose proof (pow2_pos (m - i - 1) ltac:(lia)); lia).
    cbn [bind]. cbv zeta.
    eexists. split; [reflexivity|]. split; [exact Hinv'|].
    cbn [ts_mu]. lia. }
  { now apply ts_inv_init. }
  { cbn [ts_mu]. lia. }
  exists r. split; [exact Er | exact Hr].
Qed.

Lemma pow_zero_mod (a p e : Z) :
  1 < p -> 0 < e -> a mod p = 0 -> a ^ e mod p = 0.
Proof.
  intros Hp He Ha. rewrite <- Z.mod_pow_l, Ha.
  rewrite Z.pow_0_l by lia. apply Z.mod_0_l. lia.
Qed.

(** X2: [modular_sqrt] rejects what has no root.  For an odd prime [p] and
    [a <> 0], the call raises [ValueError] when no [v] has
    [v * v = a (mod p)]; it also raises for a non-zero multiple of [p],
    although [0] is a root of it.  The guard is decided before any loop
    runs, so this holds for every fuel. *)
Theorem modular_sqrt_rejects_non_residues (fuel : nat) (a p : Z) :
  Z.prime p -> 3 <= p -> a <> 0 ->
  a mod p = 0 \/ (forall v, (v * v) mod p <> a mod p) ->
  modular_sqrt fuel a p = Raise ValueError.
Proof.
  intros Hp Hp3 Ha0 Hno.
  pose proof (half_nonneg p Hp3) as Hh.
  assert (Hls : a ^ ((p - 1) / 2) mod p <> 1).
  { intros Hls. destruct Hno as [Hz|Hno].
    - rewrite pow_zero_mod in Hls; try lia.
      apply Z.div_str_pos. lia.
    - destruct (modular_sqrt_euler (Z.to_nat p) a p Hp Hp3 Ha0 Hls (le_n _))
        as (r & _ & Hr).
      exact (Hno r Hr). }
  unfold modular_sqrt.
  destruct (Z.eqb_spec a 0) as [|_]; [contradiction|].
  destruct (Z.eqb_spec p 2) as [|_]; [lia|].
  rewrite py_pow_spec by lia. cbn [bind].
  destruct (Z.eqb_spec (a ^ ((p - 1) / 2) mod p) 1); [contradiction|].
  reflexivity.
Qed.

Lemma no_root_of_3_mod_7 (v : Z) : (v * v) mod 7 <> 3 mod 7.
Proof.
  rewrite Zmult_mod. pose proof (Z.mod_pos_bound v 7 ltac:(lia)) as Hb.
  assert (Hc : v mod 7 = 0 \/ v mod 7 = 1 \/ v mod 7 = 2 \/ v mod 7 = 3 \/
               v mod 7 = 4 \/ v mod 7 = 5 \/ v mod 7 = 6) by lia.
  destruct Hc as [E|[E|[E|[E|[E|[E|E]]]]]]; rewrite E; discriminate.
Defined.

Lemma modular_sqrt_rejects_non_residues_witness :
  modular_sqrt 0 3 7 = Raise ValueError /\
  modular_sqrt 0 14 7 = Raise ValueError.
Proof.
  split.
  - apply modular_sqrt_rejects_non_residues;
      [exact prime_7 | lia | lia | right; exact no_root_of_3_mod_7].
  - apply modular_sqrt_rejects_non_residues;
      [exact prime_7 | lia | lia | left; reflexivity].
Defined.

Lemma powmod_pos_range (a : Z) (e : positive) (m : Z) :
  0 < m -> 0 <= powmod_pos a e m < m.
Proof. intros Hm. destruct e; cbn [powmod_pos]; apply Z.mod_pos_bound; lia. Qed.

Lemma py_pow_range (a e m r : Z) :
  0 < m -> py_pow a e m = Ret r -> 0 <= r < m.
Proof.
  intros Hm. unfold py_pow. destruct (Z.eqb_spec m 0); [lia|].
  destruct e as [|e|e].
  - intros [= <-]. apply Z.mod_pos_bound. lia.
  - intros [= <-]. now apply powmod_pos_range.
  - destruct (Z.gcd a m =? 1); [|discriminate].
    intros [= <-]. now apply powmod_pos_range.
Qed.

(** X3: whatever [modular_sqrt] returns for a modulus [p >= 2] lies in
    [[0, p - 1]], on each of its return paths. *)
Theorem modular_sqrt_range (fuel : nat) (a p r : Z) :
  2 <= p -> modular_sqrt fuel a p = Ret r -> 0 <= r < p.
Proof.
  intros Hp. unfold modular_sqrt.
  destruct (Z.eqb_spec a 0) as [|_]. { intros [= <-]. lia. }
  destruct (Z.eqb_spec p 2) as [->|_].
  { rewrite py_mod_nonzero by lia. intros [= <-]. apply Z.mod_pos_bound. lia. }
  destruct (py_pow a ((p - 1) / 2) p) as [ls| |]; cbn [bind]; try discriminate.
  destruct (negb (ls =? 1)); [discriminate|].
  rewrite py_mod_nonzero by lia. cbn [bind].
  destruct (p mod 4 =? 3). { apply py_pow_range. lia. }
  match goal with
  | |- context [while fuel ?c ?b ?s0] =>
      destruct (while fuel c b s0) as [[q s]| |]; cbn [bind]; try discriminate
  end.
  match goal with
  | |- context [loop fuel ?b 2] =>
      destruct (loop fuel b 2) as [z| |]; cbn [bind]; try discriminate
  end.
  destruct (py_pow z q p) as [c| |]; cbn [bind]; try discriminate.
  destruct (py_pow a q p) as [t| |]; cbn [bind]; try discriminate.
  destruct (py_pow a ((q + 1) / 2) p) as [r0| |] eqn:Er0; cbn [bind];
    try discriminate.
  apply (loop_partial (fun st : ts_state => 0 <= snd st < p)
           (fun v : Z => 0 <= v < p)).
  - intros [[[m c1] t1] r1] st' Hr1. cbn [snd] in Hr1.
    destruct (t1 =? 0); [discriminate|]. destruct (t1 =? 1); [discriminate|].
    destruct (py_pow t1 2 p) as [t2| |]; cbn [bind]; try discriminate.
    match goal with
    | |- context [while fuel ?c ?b ?s0] =>
        destruct (while fuel c b s0) as [[i t2i]| |]; cbn [bind]; try discriminate
    end.
    destruct (py_shl1 (m - i - 1)) as [sh| |]; cbn [bind]; try discriminate.
    destruct (py_pow c1 sh p) as [b| |]; cbn [bind]; try discriminate.
    intros [= <-]. cbn [snd]. apply Z.mod_pos_bound. lia.
  - intros [[[m c1] t1] r1] r' Hr1. cbn [snd] in Hr1.
    destruct (t1 =? 0). { intros [= <-]. lia. }
    destruct (t1 =? 1). { intros [= <-]. exact Hr1. }
    destruct (py_pow t1 2 p) as [t2| |]; cbn [bind]; try discriminate.
    match goal with
    | |- context [while fuel ?c ?b ?s0] =>
        destruct (while fuel c b s0) as [[i t2i]| |]; cbn [bind]; try discriminate
    end.
    destruct (py_shl1 (m - i - 1)) as [sh| |]; cbn [bind]; try discriminate.
    destruct (py_pow c1 sh p) as [b| |]; cbn [bind]; discriminate.
  - cbn [snd]. eapply py_pow_range; [|exact Er0]. lia.
Qed.

Lemma modular_sqrt_range_witness :
  modular_sqrt 17 2 17 = Ret 6 /\ 0 <= 6 < 17.
Proof.
  assert (E : modular_sqrt 17 2 17 = Ret 6) by (vm_compute; reflexivity).
  split; [exact E|].
  apply (modular_sqrt_range 17 2 17 6); [lia | exact E].
Defined.

Lemma while_step {S : Type} (fuel : nat) (cond : S -> bool)
  (body : S -> res S) (s : S) :
  while (Datatypes.S fuel) cond body s
  = if cond s then s' <- body s ;; while fuel cond body s' else Ret s.
Proof.
  unfold while. cbn [loop]. destruct (cond s); cbn [bind]; [|reflexivity].
  destruct (body s); reflexivity.
Qed.

(** A [while] whose condition holds wherever its invariant does never
    comes back. *)
Lemma while_never {S : Type} (I : S -> Prop) (cond : S -> bool)
  (body : S -> res S) :
  (forall s, I s -> cond s = true) ->
  (forall s s', I s -> body s = Ret s' -> I s') ->
  forall fuel s s', I s -> while fuel cond body s <> Ret s'.
Proof.
  intros Hc Hb fuel s s' Hs E.
  apply (while_partial I cond body) in E; [|intros; eapply Hb; eauto | exact Hs].
  destruct E as [Hs' Hf]. rewrite (Hc s' Hs') in Hf. discriminate.
Qed.

Lemma base_point_some (c : Curve) (P : option Point) :
  exists B, base_point c P = Some B.
Proof. destruct P as [q|]; cbn; eauto. Qed.

(** X4: a negative scalar that is not a multiple of [n] never comes back
    from [scalar_mult]: [k >>= 1] keeps a negative [k] negative, so
    [while k] does not end; [ECDH.derive_shared_secret] with such a private
    scalar returns no secret either. *)
Theorem scalar_mult_negative_never_returns
  (fuel : nat) (c : Curve) (k : Z) (P : option Point) :
  k < 0 -> k mod n c <> 0 ->
  (forall R, scalar_mult fuel c k P <> Ret R) /\
  (forall (self : ECDH.ECDH) (v : Z), ECDH.curve self = c ->
      ECDH.derive_shared_secret fuel self k P <> Ret v).
Proof.
  intros Hk Hm.
  assert (H : forall R, scalar_mult fuel c k P <> Ret R).
  { intros R. unfold scalar_mult. fold (base_point c P).
    destruct (base_point_some c P) as [B ->].
    unfold py_mod. destruct (Z.eqb_spec (n c) 0) as [|Hn0]; [discriminate|].
    cbn [bind].
    destruct (Z.eqb_spec (k mod n c) 0) as [|_]; [contradiction|]. cbn [orb].
    match goal with
    | |- context [while fuel ?cond ?body ?s0] =>
        destruct (while fuel cond body s0) as [[[k' r'] a']| |] eqn:E;
        cbn [bind]; try discriminate;
        apply (while_never (fun s => fst (fst s) < 0) cond body) in E
    end.
    - contradiction.
    - intros [[k0 r0] a0] H0. cbn [fst] in H0.
      apply negb_true_iff, Z.eqb_neq. lia.
    - intros [[k0 r0] a0] [[k1 r1] a1] H0. cbn [fst] in *.
      destruct (negb (Z.land k0 1 =? 0)).
      + destruct (point_add fuel c r0 a0); cbn [bind]; try discriminate.
        destruct (point_add fuel c a0 a0); cbn [bind]; try discriminate.
        intros [= <- _ _]. now apply Z.shiftr_neg.
      + cbn [bind].
        destruct (point_add fuel c a0 a0); cbn [bind]; try discriminate.
        intros [= <- _ _]. now apply Z.shiftr_neg.
    - cbn [fst]. exact Hk. }
  split; [exact H|].
  intros self v <-. unfold ECDH.derive_shared_secret.
  pose proof (H : forall R, scalar_mult fuel (ECDH.curve self) k P <> Ret R) as H'.
  destruct (scalar_mult fuel (ECDH.curve self) k P) as [R| |];
    cbn [bind]; try discriminate.
  exfalso. exact (H' R eq_refl).
Qed.

Lemma scalar_mult_negative_never_returns_witness :
  scalar_mult 50 (Curve_init curve17) (-3) None = OutOfFuel.
Proof.
  destruct (scalar_mult_negative_never_returns 50 (Curve_init curve17) (-3) None)
    as [T _]; [lia | vm_compute; discriminate|].
  destruct (scalar_mult 50 (Curve_init curve17) (-3) None) as [R|e|] eqn:E.
  - exfalso. exact (T R eq_refl).
  - exfalso. vm_compute in E. discriminate E.
  - reflexivity.
Defined.

Section SmallScalars.

Variable c : Curve.
Hypothesis Hp : Z.prime (p c).
Hypothesis Hn : n c <> 0.

Lemma point_add_None_l (fuel : nat) (Q : option Point) :
  point_add fuel c None Q = Ret Q.
Proof. reflexivity. Qed.

(** X5: on a curve over a prime field, with a point of the curve as base
    (the generator when [P] is [None]), [scalar_mult(1, P)] is the base
    point itself and [scalar_mult(2, P)] is [point_add] of the base point
    with itself, whenever [n] does not divide the scalar. *)
Theorem scalar_mult_one_two (fuel : nat) (P : option Point) :
  valid_point c (base_point c P) ->
  (Nat.max (modinv_fuel (p c)) 3 <= fuel)%nat ->
  (1 mod n c <> 0 -> scalar_mult fuel c 1 P = Ret (base_point c P)) /\
  (2 mod n c <> 0 ->
   scalar_mult fuel c 2 P
   = point_add fuel c (base_point c P) (base_point c P)).
Proof.
  intros VB Hf.
  destruct (point_add_valid c Hp fuel _ _ VB VB ltac:(lia)) as (D & ED & VD & _).
  destruct (point_add_valid c Hp fuel _ _ VD VD ltac:(lia)) as (D2 & ED2 & _).
  destruct (base_point_some c P) as [B EB].
  destruct fuel as [|[|[|f]]]; try lia.
  set (fuel := Datatypes.S (Datatypes.S (Datatypes.S f))) in *.
  split; intros Hm; unfold scalar_mult; fold (base_point c P);
    rewrite py_mod_nonzero by exact Hn; cbn [bind];
    match goal with |- context [?v =? 0] =>
      destruct (Z.eqb_spec v 0) as [|_]; [contradiction|] end;
    rewrite EB in *; cbn [orb].
  - unfold fuel at 1. rewrite while_step. cbv beta iota.
    change (negb (1 =? 0)) with true. cbv iota.
    change (negb (Z.land 1 1 =? 0)) with true. cbv iota.
    rewrite point_add_None_l. cbn [bind]. rewrite ED. cbn [bind].
    change (Z.shiftr 1 1) with 0.
    rewrite while_step. cbv beta iota. reflexivity.
  - unfold fuel at 1. rewrite while_step. cbv beta iota.
    change (negb (2 =? 0)) with true. cbv iota.
    change (negb (Z.land 2 1 =? 0)) with false. cbv iota.
    cbn [bind]. rewrite ED. cbn [bind].
    change (Z.shiftr 2 1) with 1.
    rewrite while_step. cbv beta iota.
    change (negb (1 =? 0)) with true. cbv iota.
    change (negb (Z.land 1 1 =? 0)) with true. cbv iota.
    rewrite point_add_None_l. cbn [bind]. rewrite ED2. cbn [bind].
    change (Z.shiftr 1 1) with 0.
    rewrite while_step. cbv beta iota. reflexivity.
Qed.

Lemma land_even (k : Z) : Z.land (2 * k) 1 = 0.
Proof.
  change 1 with (Z.ones 1). rewrite Z.land_ones by lia.
  change (2 ^ 1) with 2. rewrite Z.mul_comm. apply Z.mod_mul. lia.
Qed.

Lemma shiftr_even (k : Z) : Z.shiftr (2 * k) 1 = k.
Proof.
  rewrite Z.shiftr_div_pow2 by lia. change (2 ^ 1) with 2.
  rewrite Z.mul_comm. apply Z.div_mul. lia.
Qed.

(** X6: doubling the scalar is doubling the point.  When
    [point_add(B, B)] of the base point is a point [D] (not [None]),
    [scalar_mult(2 k, P)] equals [scalar_mult(k, D)], for [k > 0] with
    neither [k] nor [2 k] a multiple of [n]. *)
Theorem scalar_mult_even (fuel : nat) (k : Z) (P : option Point) (D : Point) :
  valid_point c (base_point c P) ->
  0 < k -> k mod n c <> 0 -> (2 * k) mod n c <> 0 ->
  (scalar_mult_fuel c (2 * k) <= fuel)%nat ->
  point_add fuel c (base_point c P) (base_point c P) = Ret (Some D) ->
  scalar_mult fuel c (2 * k) P = scalar_mult fuel c k (Some D).
Proof.
  intros VB Hk Hm Hm2 Hf ED.
  destruct (scalar_mult_valid c Hp fuel (2 * k) P VB Hn ltac:(lia) Hf)
    as (R & ER & _).
  rewrite ER. symmetry. revert ER.
  unfold scalar_mult. fold (base_point c P).
  destruct (base_point_some c P) as [B EB]. rewrite EB in *.
  rewrite !py_mod_nonzero by exact Hn. cbn [bind].
  destruct (Z.eqb_spec ((2 * k) mod n c) 0) as [|_]; [contradiction|].
  destruct (Z.eqb_spec (k mod n c) 0) as [|_]; [contradiction|].
  cbn [orb].
  assert (Hfuel : exists f, fuel = Datatypes.S f).
  { destruct fuel as [|f]; [|now exists f].
    unfold scalar_mult_fuel in Hf. lia. }
  destruct Hfuel as [f Ef].
  match goal with
  | |- context [while fuel ?cond ?body (2 * k, ?r0, ?a0)] =>
      set (cnd := cond); set (bdy := body)
  end.
  rewrite Ef at 1. rewrite while_step.
  assert (Ec : cnd (2 * k, None, Some B) = true).
  { unfold cnd. apply negb_true_iff, Z.eqb_neq. lia. }
  rewrite Ec.
  assert (Eb : bdy (2 * k, None, Some B) = Ret (k, None, Some D)).
  { unfold bdy. rewrite land_even. change (negb (0 =? 0)) with false. cbv iota.
    cbn [bind]. rewrite ED. cbn [bind]. now rewrite shiftr_even. }
  rewrite Eb. cbn [bind].
  destruct (while f cnd bdy (k, None, Some D)) as [[[k' r'] a']| |] eqn:E;
    cbn [bind]; try discriminate.
  intros [= ->].
  assert (E' : while fuel cnd bdy (k, None, Some D) = Ret (k', R, a')).
  { eapply refines_ret; [|exact E].
    apply refines_while; [intros s; apply refines_refl | lia]. }
  rewrite E'. reflexivity.
Qed.

End SmallScalars.

Lemma small_scalars_witness :
  scalar_mult 20 (Curve_init curve17) 1 None
    = Ret (Some (mkPoint (Some 5) (Some 1))) /\
  scalar_mult 20 (Curve_init curve17) 2 None
    = point_add 20 (Curve_init curve17)
        (Some (mkPoint (Some 5) (Some 1))) (Some (mkPoint (Some 5) (Some 1))).
Proof.
  destruct (scalar_mult_one_two (Curve_init curve17) prime_17 ltac:(cbn; lia)
              20 None) as [T1 T2].
  - split; [reflexivity | cbn; lia].
  - vm_compute. lia.
  - split; [apply T1 | apply T2]; vm_compute; discriminate.
Defined.

Lemma scalar_mult_even_witness :
  scalar_mult 20 (Curve_init curve17) 6 None
  = scalar_mult 20 (Curve_init curve17) 3 (Some (mkPoint (Some 6) (Some 3))).
Proof.
  apply (scalar_mult_even (Curve_init curve17) prime_17 ltac:(cbn; lia)
           20 3 None (mkPoint (Some 6) (Some 3))).
  - split; [reflexivity | cbn; lia].
  - lia.
  - vm_compute. discriminate.
  - vm_compute. discriminate.
  - vm_compute. lia.
  - vm_compute. reflexivity.
Defined.

Lemma to_bytes_ret (v k : Z) (bs : bytes) :
  to_bytes v k = Ret bs -> 0 <= k /\ 0 <= v < 256 ^ k.
Proof.
  unfold to_bytes.
  destruct (Z.ltb_spec k 0); [discriminate|].
  destruct (Z.ltb_spec v 0); [discriminate|].
  destruct (Z.leb_spec (256 ^ k) v); [discriminate|]. lia.
Qed.

Lemma to_bytes_overflow (v k : Z) :
  0 <= k -> 256 ^ k <= v -> to_bytes v k = Raise OverflowError.
Proof.
  intros Hk Hv. unfold to_bytes.
  destruct (Z.ltb_spec k 0); [lia|].
  assert (0 < 256 ^ k) by (apply Z.pow_pos_nonneg; lia).
  destruct (Z.ltb_spec v 0); [lia|].
  destruct (Z.leb_spec (256 ^ k) v); [reflexivity | lia].
Qed.

Lemma bit_length_nonneg (v : Z) : 0 <= bit_length v.
Proof.
  unfold bit_length. destruct (v =? 0); [lia|].
  pose proof (Z.log2_nonneg (Z.abs v)). lia.
Qed.

Lemma rolen_nonneg (q : Z) : 0 <= (bit_length q + 7) / 8.
Proof. pose proof (bit_length_nonneg q). apply Z.div_pos; lia. Qed.

(** A loop whose body raises nothing raises nothing. *)
Lemma loop_no_raise {S R : Type} (body : S -> res (step S R)) :
  (forall s e, body s <> Raise e) ->
  forall fuel s e, loop fuel body s <> Raise e.
Proof.
  intros Hb. induction fuel as [|fuel IH]; intros s e; [discriminate|].
  cbn [loop]. destruct (body s) as [[s'|r]|e'|] eqn:E; cbn [bind].
  - apply IH.
  - discriminate.
  - exfalso. exact (Hb s e' E).
  - discriminate.
Qed.

Lemma while_no_raise {S : Type} (cond : S -> bool) (body : S -> res S) :
  (forall s e, body s <> Raise e) ->
  forall fuel s e, while fuel cond body s <> Raise e.
Proof.
  intros Hb fuel s e. unfold while. apply loop_no_raise.
  intros s0 e0. destruct (cond s0); [|discriminate].
  destruct (body s0) as [s1|e1|] eqn:E; cbn [bind]; try discriminate.
  exfalso. exact (Hb s0 e1 E).
Qed.

Lemma pow256_rolen (qlen : Z) :
  0 <= qlen -> 2 ^ qlen <= 256 ^ ((qlen + 7) / 8).
Proof.
  intros Hq. change 256 with (2 ^ 8).
  assert (Hr : 0 <= (qlen + 7) / 8) by (apply Z.div_pos; lia).
  rewrite <- Z.pow_mul_r by lia.
  apply Z.pow_le_mono_r; [lia|].
  pose proof (Z.div_mod (qlen + 7) 8 ltac:(lia)).
  pose proof (Z.mod_pos_bound (qlen + 7) 8 ltac:(lia)). lia.
Qed.

(** [bits2octets] never overflows for a positive [q]. *)
Lemma bits2octets_returns (h1 : bytes) (q : Z) :
  0 < q -> exists bs, bits2octets h1 q (bit_length q) = Ret bs.
Proof.
  intros Hq. unfold bits2octets, int2octets.
  pose proof (bit_length_nonneg q) as Hl.
  pose proof (bits2int_range h1 (bit_length q) Hl) as Hz.
  pose proof (pow256_rolen (bit_length q) Hl) as Hp.
  destruct (to_bytes_fits
              (if q <=? bits2int h1 (bit_length q)
               then bits2int h1 (bit_length q) - q
               else bits2int h1 (bit_length q))
              ((bit_length q + 7) / 8)) as (bs & E & _).
  - apply rolen_nonneg.
  - destruct (Z.leb_spec q (bits2int h1 (bit_length q))); lia.
  - exists bs. exact E.
Qed.

(** What a returned nonce went through: the guard of the candidate loop
    and the encoding of the private scalar. *)
Lemma generate_k_ret (fuel : nat) (hash_func : HashFunc) (q x k : Z)
  (h1 : bytes) :
  generate_k fuel hash_func q x h1 = Ret k ->
  1 <= k < q /\ 0 <= x < 256 ^ ((bit_length q + 7) / 8).
Proof.
  unfold generate_k, int2octets.
  destruct (to_bytes x ((bit_length q + 7) / 8)) as [xo| |] eqn:Ex;
    cbn [bind]; try discriminate.
  destruct (bits2octets h1 q (bit_length q)) as [ho| |]; cbn [bind];
    try discriminate.
  intros E. split; [|exact (proj2 (to_bytes_ret _ _ _ Ex))].
  revert E.
  apply (loop_partial (fun _ : bytes * bytes => True) (fun v : Z => 1 <= v < q));
    [| |exact I].
  - trivial.
  - intros [K V] r _.
    match goal with
    | |- context [while fuel ?c ?b ?s0] =>
        destruct (while fuel c b s0) as [[T V']| |]; cbn [bind]; try discriminate
    end.
    destruct (Z.leb_spec 1 (bits2int T (bit_length q)));
      destruct (Z.ltb_spec (bits2int T (bit_length q)) q);
      cbn [andb]; try discriminate.
    intros [= <-]. lia.
Qed.

(** X7: how [generate_k] can end.  (i) A nonce it returns lies in
    [[1, q - 1]], and it returns one only for a private scalar [x] that
    fits the [rolen = ceil(bit_length(q) / 8)] bytes of [int2octets].
    (ii) For [q > 0] and such an [x] it raises nothing, whatever the hash
    and the digest [h1] are: [bits2octets] always fits its [rolen] bytes,
    and the candidate loop only hashes.  (iii) For any other [x] it raises
    [OverflowError] before any hashing. *)
Theorem generate_k_contract (fuel : nat) (hash_func : HashFunc) (q x : Z)
  (h1 : bytes) :
  (forall k, generate_k fuel hash_func q x h1 = Ret k ->
             1 <= k < q /\ 0 <= x < 256 ^ ((bit_length q + 7) / 8)) /\
  (0 < q -> 0 <= x < 256 ^ ((bit_length q + 7) / 8) ->
   forall e, generate_k fuel hash_func q x h1 <> Raise e) /\
  (x < 0 \/ 256 ^ ((bit_length q + 7) / 8) <= x ->
   generate_k fuel hash_func q x h1 = Raise OverflowError).
Proof.
  split; [|split].
  - intros k. apply generate_k_ret.
  - intros Hq Hx e. unfold generate_k, int2octets.
    destruct (to_bytes_fits x _ (rolen_nonneg q) Hx) as (xo & Ex & _).
    rewrite Ex. cbn [bind].
    destruct (bits2octets_returns h1 q Hq) as (ho & Eh).
    rewrite Eh. cbn [bind].
    apply loop_no_raise. intros [K V] e0.
    match goal with
    | |- context [while fuel ?c ?b ?s0] =>
        pose proof (while_no_raise c b) as Hw;
        destruct (while fuel c b s0) as [[T V']|e1|] eqn:Ew; cbn [bind];
        try discriminate
    end.
    + destruct ((1 <=? bits2int T (bit_length q))
                && (bits2int T (bit_length q) <? q)); discriminate.
    + exfalso. revert Ew. apply Hw. intros [T0 V0] e2. discriminate.
  - intros Hx. unfold generate_k, int2octets, to_bytes.
    pose proof (rolen_nonneg q) as Hr.
    destruct (Z.ltb_spec ((bit_length q + 7) / 8) 0); [lia|].
    destruct Hx as [Hx|Hx].
    + destruct (Z.ltb_spec x 0); [reflexivity | lia].
    + assert (0 < 256 ^ ((bit_length q + 7) / 8))
        by (apply Z.pow_pos_nonneg; lia).
      destruct (Z.ltb_spec x 0); [lia|].
      destruct (Z.leb_spec (256 ^ ((bit_length q + 7) / 8)) x);
        [reflexivity | lia].
Qed.

Lemma generate_k_contract_witness :
  generate_k 20 fold_hash 19 7 (digest fold_hash [x68; x69]) = Ret 2 /\
  1 <= 2 < 19 /\
  generate_k 20 fold_hash 19 256 (digest fold_hash [x68; x69])
    = Raise OverflowError.
Proof.
  destruct (generate_k_contract 20 fold_hash 19 7 (digest fold_hash [x68; x69]))
    as (T1 & _ & _).
  destruct (generate_k_contract 20 fold_hash 19 256 (digest fold_hash [x68; x69]))
    as (_ & _ & T3).
  assert (E : generate_k 20 fold_hash 19 7 (digest fold_hash [x68; x69]) = Ret 2)
    by (vm_compute; reflexivity).
  split; [exact E|]. split; [exact (proj1 (T1 2 E))|].
  apply T3. right. vm_compute. discriminate.
Defined.

(** X8: [sign] raises [OverflowError] for a private key whose integer
    needs more than [rolen = ceil(bit_length(n) / 8)] bytes: [int2octets]
    inside [generate_k] refuses it before anything is signed. *)
Theorem sign_rejects_oversize_key (fuel : nat) (self : ECDSASigner.ECDSASigner)
  (private_key message : bytes) :
  256 ^ ((bit_length (n (ECDSASigner.curve self)) + 7) / 8)
    <= from_bytes private_key ->
  ECDSASigner.sign fuel self private_key message = Raise OverflowError.
Proof.
  intros H. unfold ECDSASigner.sign, generate_k, int2octets.
  rewrite to_bytes_overflow; [reflexivity | apply rolen_nonneg | exact H].
Qed.

Lemma sign_rejects_oversize_key_witness :
  ECDSASigner.sign 20 signer17 [x01; x00] [x68; x69] = Raise OverflowError.
Proof.
  apply sign_rejects_oversize_key. vm_compute. discriminate.
Defined.

Lemma byte_of_to_Z (b : byte) : byte_of_Z (byte_to_Z b) = b.
Proof.
  unfold byte_of_Z, byte_to_Z.
  pose proof (byte_to_Z_range b) as Hb. unfold byte_to_Z in Hb.
  rewrite Z.mod_small by exact Hb. rewrite N2Z.id.
  now rewrite Byte.of_to_N.
Qed.

Lemma byte_of_Z_mod (z : Z) : byte_of_Z (z mod 256) = byte_of_Z z.
Proof. unfold byte_of_Z. now rewrite Z.mod_mod by lia. Qed.

Lemma be_digits_from_bytes (bs : bytes) :
  be_digits (List.length bs) (from_bytes bs) = bs.
Proof.
  induction bs as [|b bs IH] using rev_ind; [reflexivity|].
  rewrite length_app. cbn [List.length]. rewrite Nat.add_1_r.
  cbn [be_digits]. rewrite from_bytes_snoc.
  pose proof (byte_to_Z_range b) as Hb.
  assert (H1 : (from_bytes bs * 256 + byte_to_Z b) / 256 = from_bytes bs).
  { rewrite Z.add_comm, Z.div_add by lia. rewrite Z.div_small by lia.
    reflexivity. }
  assert (H2 : byte_of_Z (from_bytes bs * 256 + byte_to_Z b) = b).
  { rewrite <- byte_of_Z_mod. rewrite Z.add_comm, Z.mod_add by lia.
    rewrite Z.mod_small by lia. apply byte_of_to_Z. }
  now rewrite H1, H2, IH.
Qed.

(** X9: [int2octets] and [int.from_bytes] are inverse.  A value
    [0 <= x < 256^rolen] is written on exactly [rolen] bytes that read back
    as [x], and [bits2int] of them is [x] shifted right by
    [8 rolen - qlen] bits when [qlen < 8 rolen] (so [x] itself only when
    [qlen] fills the bytes); every byte string is [int2octets] of its own
    value and length; a value of [256^rolen] or more raises
    [OverflowError]. *)
Theorem int2octets_round_trip :
  (forall x rolen : Z,
      0 <= rolen -> 0 <= x < 256 ^ rolen ->
      exists bs, int2octets x rolen = Ret bs /\ len bs = rolen /\
                 from_bytes bs = x /\
                 forall qlen,
                   bits2int bs qlen
                   = if qlen <? 8 * rolen then Z.shiftr x (8 * rolen - qlen)
                     else x) /\
  (forall bs : bytes, int2octets (from_bytes bs) (len bs) = Ret bs) /\
  (forall x rolen : Z,
      0 <= rolen -> 256 ^ rolen <= x ->
      int2octets x rolen = Raise OverflowError).
Proof.
  split; [|split].
  - intros x rolen Hr Hx.
    destruct (to_bytes_fits x rolen Hr Hx) as (bs & E & Hl & Hv).
    exists bs. split; [exact E|]. split; [exact Hl|]. split; [exact Hv|].
    intros qlen. unfold bits2int. rewrite Hl, Hv.
    replace (rolen * 8) with (8 * rolen) by ring. reflexivity.
  - intros bs. unfold int2octets, to_bytes, len.
    pose proof (from_bytes_range bs) as Hb. unfold len in Hb.
    destruct (Z.ltb_spec (Z.of_nat (List.length bs)) 0); [lia|].
    destruct (Z.ltb_spec (from_bytes bs) 0); [lia|].
    destruct (Z.leb_spec (256 ^ Z.of_nat (List.length bs)) (from_bytes bs));
      [lia|].
    rewrite Nat2Z.id. now rewrite be_digits_from_bytes.
  - intros x rolen Hr Hx. now apply to_bytes_overflow.
Qed.

Lemma int2octets_round_trip_witness :
  (exists bs, int2octets 258 2 = Ret bs /\ len bs = 2 /\ from_bytes bs = 258) /\
  int2octets 256 1 = Raise OverflowError.
Proof.
  destruct int2octets_round_trip as (T1 & _ & T3). split.
  - destruct (T1 258 2 ltac:(lia) ltac:(lia)) as (bs & E & Hl & Hv & _).
    exists bs. auto.
  - apply T3; lia.
Defined.


Lemma from_bytes_nonneg (l : bytes) : 0 <= from_bytes l.
Proof. exact (proj1 (from_bytes_range l)). Qed.

(** X10: what [verify] accepts.  A public key that [is_on_curve] refuses
    gives [False] whatever the signature is.  When [verify] returns [True]
    (with [n > 0]), the key was on the curve, the [s] read from the second
    half of the signature was not zero, and the [r] read from the first
    half is below [n]. *)
Theorem verify_accepts_only (fuel : nat) (self : ECDSASigner.ECDSASigner)
  (public_key message signature : bytes) :
  0 < n (ECDSASigner.curve self) ->
  (is_on_curve (ECDSASigner.curve self) (parse_public_key public_key)
     = Ret false ->
   ECDSASigner.verify fuel self public_key message signature = Ret false) /\
  (ECDSASigner.verify fuel self public_key message signature = Ret true ->
   is_on_curve (ECDSASigner.curve self) (parse_public_key public_key)
     = Ret true /\
   from_bytes (slice_from signature (len signature / 2)) <> 0 /\
   from_bytes (slice_to signature (len signature / 2))
     < n (ECDSASigner.curve self)).
Proof.
  intros Hn. split; [apply verify_off_curve|].
  unfold ECDSASigner.verify, parse_public_key.
  set (c := ECDSASigner.curve self) in *.
  set (r := from_bytes (slice_to signature (len signature / 2))).
  set (s := from_bytes (slice_from signature (len signature / 2))).
  destruct (is_on_curve c _) as [[|]| |]; cbn [bind negb]; try discriminate.
  intros E. split; [reflexivity|]. revert E.
  destruct (Z.eq_dec s 0) as [->|Hs]; [discriminate|].
  destruct (modinv fuel s (n c)) as [w| |]; cbn [bind]; try discriminate.
  rewrite !py_mod_nonzero by lia. cbn [bind].
  destruct (scalar_mult fuel c _ None) as [p1| |]; cbn [bind]; try discriminate.
  destruct (scalar_mult fuel c _ (Some _)) as [p2| |]; cbn [bind];
    try discriminate.
  destruct (point_add fuel c p1 p2) as [[pt|]| |]; cbn [bind]; try discriminate.
  cbn [attr_x bind]. destruct (x pt) as [px|]; cbn [as_int bind];
    try discriminate.
  rewrite py_mod_nonzero by lia. cbn [bind].
  destruct (Z.eqb_spec (px mod n c) r) as [E|]; [|discriminate].
  intros _. split; [exact Hs|].
  rewrite <- E. apply Z.mod_pos_bound. exact Hn.
Qed.

Lemma verify_accepts_only_witness :
  ECDSASigner.verify 30 signer17 [x0a; x06] [x68; x69] [x08] = Ret true /\
  from_bytes (slice_from [x08] (len [x08] / 2)) <> 0.
Proof.
  assert (E : ECDSASigner.verify 30 signer17 [x0a; x06] [x68; x69] [x08] = Ret true)
    by (vm_compute; reflexivity).
  split; [exact E|].
  destruct (verify_accepts_only 30 signer17 [x0a; x06] [x68; x69] [x08])
    as [_ T]; [cbn; lia|].
  exact (proj1 (proj2 (T E))).
Defined.

(** X11: the private key of [ECDSASigner.generate_keypair].  When the
    random bytes are a multiple of [n] the call raises [AttributeError]
    (the public point is [None]); when it returns, the private key is
    written on exactly [ceil(bit_length(n) / 8)] bytes and reads back as the
    random integer modulo [n], which is not zero. *)
Theorem ecdsa_keypair_private_bytes (fuel : nat)
  (self : ECDSASigner.ECDSASigner) (rnd : bytes) :
  0 < n (ECDSASigner.curve self) ->
  (from_bytes rnd mod n (ECDSASigner.curve self) = 0 ->
   ECDSASigner.generate_keypair fuel self rnd = Raise AttributeError) /\
  (forall public_key private_bytes,
      ECDSASigner.generate_keypair fuel self rnd
        = Ret (public_key, private_bytes) ->
      len private_bytes = (bit_length (n (ECDSASigner.curve self)) + 7) / 8 /\
      from_bytes private_bytes = from_bytes rnd mod n (ECDSASigner.curve self) /\
      from_bytes private_bytes <> 0).
Proof.
  intros Hn. unfold ECDSASigner.generate_keypair.
  set (c := ECDSASigner.curve self) in *.
  rewrite py_mod_nonzero by lia. cbn [bind].
  set (d := from_bytes rnd mod n c).
  split.
  - intros Hd. rewrite scalar_mult_zero_mod; [reflexivity | lia|].
    unfold d in *. rewrite Z.mod_mod by lia. exact Hd.
  - intros pk sk.
    destruct (Z.eq_dec d 0) as [Hd|Hd].
    { rewrite scalar_mult_zero_mod; [discriminate | lia|].
      unfold d in *. rewrite Z.mod_mod by lia. exact Hd. }
    destruct (scalar_mult fuel c d None) as [pt| |]; cbn [bind]; try discriminate.
    destruct (attr_x pt) as [ox| |]; cbn [bind]; try discriminate.
    destruct (as_int AttributeError ox) as [px| |]; cbn [bind]; try discriminate.
    destruct (minimal_bytes px) as [xb| |]; cbn [bind]; try discriminate.
    destruct (attr_y pt) as [oy| |]; cbn [bind]; try discriminate.
    destruct (as_int AttributeError oy) as [py| |]; cbn [bind]; try discriminate.
    destruct (minimal_bytes py) as [yb| |]; cbn [bind]; try discriminate.
    destruct (to_bytes d ((bit_length (n c) + 7) / 8)) as [bs| |] eqn:Eb;
      cbn [bind]; try discriminate.
    intros [= _ <-].
    destruct (to_bytes_ret _ _ _ Eb) as [Hr Hd'].
    destruct (to_bytes_fits d _ Hr Hd') as (bs' & Eb' & Hl & Hv).
    rewrite Eb in Eb'. injection Eb' as <-.
    rewrite Hv. auto.
Qed.

Lemma ecdsa_keypair_private_bytes_witness :
  ECDSASigner.generate_keypair 30 signer17 [x13] = Raise AttributeError /\
  ECDSASigner.generate_keypair 30 signer17 [x1a] = Ret ([x06], [x07]).
Proof.
  destruct (ecdsa_keypair_private_bytes 30 signer17 [x13]) as [T _];
    [cbn; lia|].
  split; [apply T; reflexivity | vm_compute; reflexivity].
Defined.

Section ECDHFacts.

Variable self : ECDH.ECDH.
Hypothesis Hp : Z.prime (p (ECDH.curve self)).

Local Abbreviation c := (ECDH.curve self).

(** X12: a shared secret that [derive_shared_secret] returns, for a peer
    point of the curve (or the generator when the peer point is [None]) on
    a curve over a prime field, lies in [[0, p - 1]]. *)
Theorem shared_secret_range (fuel : nat) (k v : Z) (P : option Point) :
  valid_point c (base_point c P) ->
  ECDH.derive_shared_secret fuel self k P = Ret v -> 0 <= v < p c.
Proof.
  intros VB. unfold ECDH.derive_shared_secret.
  destruct (scalar_mult fuel c k P) as [R| |] eqn:E; cbn [bind];
    try discriminate.
  pose proof (scalar_mult_valid_any c Hp fuel k P R VB E) as [_ VR].
  destruct (none_or_infinite R) eqn:EI; [discriminate|].
  destruct (finite_shape R EI) as (px & py & ->).
  cbn [attr_x x bind as_int]. intros [= <-]. cbn [reduced] in VR. tauto.
Qed.

(** X14: [ECDH.generate_keypair] on a curve over a prime field whose
    generator is on the curve: for every draw [rnd] of [range(n - 1)] it
    returns the private scalar [rnd + 1], in [[1, n - 1]], and a public
    point that [is_on_curve] accepts, with reduced coordinates. *)
Theorem ecdh_keypair_on_curve (fuel : nat) (rnd : Z) :
  valid_point c (Some (g c)) ->
  0 <= rnd < n c - 1 ->
  (scalar_mult_fuel c (rnd + 1) <= fuel)%nat ->
  exists public_point,
    ECDH.generate_keypair fuel self rnd = Ret (public_point, rnd + 1) /\
    1 <= rnd + 1 <= n c - 1 /\
    is_on_curve c public_point = Ret true /\ reduced c public_point.
Proof.
  intros VG Hr Hf. unfold ECDH.generate_keypair.
  destruct (Z.leb_spec (n c - 1) 0); [lia|].
  destruct (scalar_mult_valid c Hp fuel (rnd + 1) None VG ltac:(lia) ltac:(lia) Hf)
    as (R & E & V).
  rewrite E. cbn [bind]. exists R. split; [reflexivity|]. split; [lia | exact V].
Qed.

End ECDHFacts.

(** X13: [derive_shared_secret] raises [ValueError] for every private
    scalar that is a multiple of [n], whatever the peer point. *)
Theorem shared_secret_rejects_multiples_of_n (fuel : nat) (self : ECDH.ECDH)
  (k : Z) (P : option Point) :
  n (ECDH.curve self) <> 0 -> k mod n (ECDH.curve self) = 0 ->
  ECDH.derive_shared_secret fuel self k P = Raise ValueError.
Proof.
  intros Hn Hk. unfold ECDH.derive_shared_secret.
  now rewrite scalar_mult_zero_mod.
Qed.

(** X15: [is_on_curve] reads the coordinates modulo [p] only: adding
    multiples of [p] to [x] and [y] does not change its answer, so a point
    with coordinates of [p] or more can be accepted. *)
Theorem is_on_curve_modulo_p (c : Curve) (px py i j : Z) :
  is_on_curve c (Some (mkPoint (Some (px + i * p c)) (Some (py + j * p c))))
  = is_on_curve c (Some (mkPoint (Some px) (Some py))).
Proof.
  unfold is_on_curve. cbn [none_or_infinite is_infinite x y].
  unfold py_mod. destruct (Z.eqb_spec (p c) 0) as [|Hp]; [reflexivity|].
  cbn [bind]. do 2 f_equal.
  replace ((py + j * p c) ^ 2
           - ((px + i * p c) ^ 3 + a c * (px + i * p c) + b c))
    with (py ^ 2 - (px ^ 3 + a c * px + b c)
          + (2 * py * j + j * j * p c
             - (3 * px * px * i + 3 * px * i * i * p c
                + i * i * i * p c * p c + a c * i)) * p c) by ring.
  apply Z.mod_add. exact Hp.
Qed.

(** X16: for two finite points, [point_add] returns the point at infinity
    exactly when they have the same [x] and their [y] add up to zero modulo
    [p]; in every other case it returns a finite point or fails. *)
Theorem point_add_infinity_iff_opposite (fuel : nat) (c : Curve)
  (x1 y1 x2 y2 : Z) :
  p c <> 0 ->
  point_add fuel c (Some (mkPoint (Some x1) (Some y1)))
                   (Some (mkPoint (Some x2) (Some y2))) = Ret None
  <-> x1 = x2 /\ (y1 + y2) mod p c = 0.
Proof.
  intros Hp. unfold point_add. cbn [none_or_infinite is_infinite x y].
  rewrite !py_mod_nonzero by exact Hp.
  destruct (Z.eqb_spec x1 x2) as [Ex|Nx]; cbn [bind].
  - destruct (Z.eqb_spec ((y1 + y2) mod p c) 0) as [Ey|Ny].
    + tauto.
    + split; [|tauto].
      destruct (modinv fuel (2 * y1) (p c)); cbn [bind]; try discriminate.
      repeat (rewrite py_mod_nonzero by exact Hp; cbn [bind]). discriminate.
  - split; [|tauto].
    destruct (modinv fuel (x2 - x1) (p c)); cbn [bind]; try discriminate.
    repeat (rewrite py_mod_nonzero by exact Hp; cbn [bind]). discriminate.
Qed.

Lemma point_add_infinity_iff_opposite_witness :
  point_add 20 (Curve_init curve17) (Some (mkPoint (Some 5) (Some 1)))
                                    (Some (mkPoint (Some 5) (Some 16)))
  = Ret None.
Proof.
  apply point_add_infinity_iff_opposite; [cbn; lia|]. split; reflexivity.
Defined.

Lemma shared_secret_range_witness :
  ECDH.derive_shared_secret 20 ecdh17 3 None = Ret 10 /\ 0 <= 10 < 17.
Proof.
  assert (E : ECDH.derive_shared_secret 20 ecdh17 3 None = Ret 10)
    by (vm_compute; reflexivity).
  split; [exact E|].
  apply (shared_secret_range ecdh17 prime_17 20 3 10 None); [|exact E].
  split; [reflexivity | cbn; lia].
Defined.

Lemma shared_secret_rejects_multiples_of_n_witness :
  ECDH.derive_shared_secret 20 ecdh17 38 None = Raise ValueError.
Proof.
  apply shared_secret_rejects_multiples_of_n; [cbn; lia | reflexivity].
Defined.

Lemma ecdh_keypair_on_curve_witness :
  exists public_point,
    ECDH.generate_keypair 20 ecdh17 2 = Ret (public_point, 3) /\
    is_on_curve (Curve_init curve17) public_point = Ret true.
Proof.
  destruct (ecdh_keypair_on_curve ecdh17 prime_17 20 2)
    as (P & E & _ & On & _).
  - split; [reflexivity | cbn; lia].
  - cbn. lia.
  - vm_compute. lia.
  - exists P. split; [exact E | exact On].
Defined.

Lemma bit_length_mono (u v : Z) : 0 <= u <= v -> bit_length u <= bit_length v.
Proof.
  intros H. unfold bit_length.
  destruct (Z.eqb_spec u 0) as [->|Hu].
  - destruct (v =? 0); [lia|]. pose proof (Z.log2_nonneg (Z.abs v)). lia.
  - destruct (Z.eqb_spec v 0); [lia|].
    rewrite !Z.abs_eq by lia.
    pose proof (Z.log2_le_mono u v ltac:(lia)). lia.
Qed.

Lemma to_bytes_len (v k : Z) (bs : bytes) :
  to_bytes v k = Ret bs -> len bs = k /\ from_bytes bs = v.
Proof.
  intros E. destruct (to_bytes_ret _ _ _ E) as [Hk Hv].
  destruct (to_bytes_fits v k Hk Hv) as (bs' & E' & Hl & Hf).
  rewrite E in E'. injection E' as <-. now split.
Qed.

Lemma minimal_bytes_below (v m : Z) (bs : bytes) :
  0 <= v < m -> minimal_bytes v = Ret bs ->
  len bs <= (bit_length m + 7) / 8 /\ from_bytes bs = v.
Proof.
  intros Hv E. unfold minimal_bytes in E.
  destruct (to_bytes_len _ _ _ E) as [Hl Hf]. split; [|exact Hf].
  rewrite Hl. apply Z.div_le_mono; [lia|].
  pose proof (bit_length_mono v m ltac:(lia)). lia.
Qed.

Lemma len_app (u v : bytes) : len (u ++ v) = len u + len v.
Proof. unfold len. rewrite length_app. lia. Qed.

(** X17: what a signature is made of.  Whatever [sign] returns (with
    [n > 0]) comes from the nonce [k] of [generate_k], [1 <= k < n], the
    [x] coordinate [Rx] of [k * G] and the inverse [ki] that [modinv]
    returned for [k]: it is the minimal big-endian bytes of
    [r = Rx mod n] followed by those of [s = ki * (z + r * d) mod n],
    where [z] is the digest and [d] the private key read as integers.
    Each part has at most [rolen = ceil(bit_length(n) / 8)] bytes, so the
    signature has at most [2 rolen] bytes, and fewer when [r] or [s] is
    short: the boundary between the two parts is not recorded. *)
Theorem sign_output_shape (fuel : nat) (self : ECDSASigner.ECDSASigner)
  (private_key message signature : bytes) :
  0 < n (ECDSASigner.curve self) ->
  ECDSASigner.sign fuel self private_key message = Ret signature ->
  let c := ECDSASigner.curve self in
  let h := ECDSASigner.hash_func self in
  let z := from_bytes (digest h message) in
  let d := from_bytes private_key in
  let rolen := (bit_length (n c) + 7) / 8 in
  exists k Rx Ry ki r_bytes s_bytes,
    generate_k fuel h (n c) d (digest h message) = Ret k /\
    1 <= k < n c /\
    scalar_mult fuel c k None = Ret (Some (mkPoint (Some Rx) Ry)) /\
    modinv fuel k (n c) = Ret ki /\
    signature = r_bytes ++ s_bytes /\
    from_bytes r_bytes = Rx mod n c /\
    from_bytes s_bytes = (ki * (z + Rx mod n c * d)) mod n c /\
    len r_bytes = (bit_length (Rx mod n c) + 7) / 8 /\
    len s_bytes = (bit_length ((ki * (z + Rx mod n c * d)) mod n c) + 7) / 8 /\
    len r_bytes <= rolen /\ len s_bytes <= rolen /\
    len signature <= 2 * rolen.
Proof.
  intros Hn. unfold ECDSASigner.sign. cbv zeta.
  set (c := ECDSASigner.curve self) in *.
  destruct (generate_k _ _ _ _ _) as [k| |] eqn:Ek; cbn [bind];
    try discriminate.
  destruct (scalar_mult fuel c k None) as [[[[Rx|] Ry]|]| |] eqn:ER;
    cbn [bind]; try discriminate.
  cbn [attr_x x as_int bind].
  rewrite py_mod_nonzero by lia. cbn [bind].
  destruct (modinv fuel k (n c)) as [ki| |] eqn:Ei; cbn [bind];
    try discriminate.
  rewrite py_mod_nonzero by lia. cbn [bind].
  destruct (minimal_bytes (Rx mod n c)) as [rb| |] eqn:Er; cbn [bind];
    try discriminate.
  match goal with
  | |- bind (minimal_bytes ?v) _ = _ -> _ =>
      destruct (minimal_bytes v) as [sb| |] eqn:Es; cbn [bind];
      try discriminate
  end.
  intros [= <-].
  destruct (minimal_bytes_below _ (n c) _ (Z.mod_pos_bound _ _ Hn) Er)
    as [Lr Fr].
  destruct (minimal_bytes_below _ (n c) _ (Z.mod_pos_bound _ _ Hn) Es)
    as [Ls Fs].
  unfold minimal_bytes in Er, Es.
  destruct (to_bytes_len _ _ _ Er) as [Lr' _].
  destruct (to_bytes_len _ _ _ Es) as [Ls' _].
  exists k, Rx, Ry, ki, rb, sb.
  split; [reflexivity|]. split; [exact (proj1 (generate_k_ret _ _ _ _ _ _ Ek))|].
  split; [exact ER|]. split; [exact Ei|]. split; [reflexivity|].
  split; [exact Fr|]. split; [exact Fs|].
  split; [exact Lr'|]. split; [exact Ls'|].
  split; [exact Lr|]. split; [exact Ls|].
  rewrite len_app. lia.
Qed.

Lemma sign_output_shape_witness :
  0 < n (ECDSASigner.curve signer17) /\
  ECDSASigner.sign 20 signer17 [x07] [x68; x69] = Ret [x06; x0c] /\
  exists k Rx Ry ki r_bytes s_bytes,
    generate_k 20 fold_hash 19 7 (digest fold_hash [x68; x69]) = Ret k /\
    1 <= k < 19 /\
    scalar_mult 20 (Curve_init curve17) k None
      = Ret (Some (mkPoint (Some Rx) Ry)) /\
    modinv 20 k 19 = Ret ki /\
    [x06; x0c] = r_bytes ++ s_bytes /\
    from_bytes r_bytes = Rx mod 19 /\
    from_bytes s_bytes
      = (ki * (from_bytes (digest fold_hash [x68; x69]) + Rx mod 19 * 7))
        mod 19 /\
    len r_bytes = (bit_length (Rx mod 19) + 7) / 8 /\
    len s_bytes
      = (bit_length
           ((ki * (from_bytes (digest fold_hash [x68; x69]) + Rx mod 19 * 7))
            mod 19) + 7) / 8 /\
    len r_bytes <= 1 /\ len s_bytes <= 1 /\ len [x06; x0c] <= 2 * 1.
Proof.
  assert (Hn : 0 < n (ECDSASigner.curve signer17)) by (cbn; lia).
  assert (E : ECDSASigner.sign 20 signer17 [x07] [x68; x69] = Ret [x06; x0c])
    by (vm_compute; reflexivity).
  split; [exact Hn|]. split; [exact E|].
  exact (sign_output_shape 20 signer17 [x07] [x68; x69] [x06; x0c] Hn E).
Defined.

Lemma point_add_plain (fuel : nat) (c : Curve) (P Q R : option Point) :
  plain_point P -> plain_point Q ->
  point_add fuel c P Q = Ret R -> plain_point R.
Proof.
  intros HP HQ. unfold point_add.
  destruct (none_or_infinite P) eqn:EP. { now intros [= <-]. }
  destruct (none_or_infinite Q) eqn:EQ. { now intros [= <-]. }
  destruct (finite_shape P EP) as (x1 & y1 & ->).
  destruct (finite_shape Q EQ) as (x2 & y2 & ->).
  match goal with
  | |- bind ?m _ = _ -> _ => destruct m as [[|]| |]; cbn [bind]; try discriminate
  end.
  { now intros [= <-]. }
  match goal with
  | |- bind ?m _ = _ -> _ => destruct m as [m0| |]; cbn [bind]; try discriminate
  end.
  destruct (py_mod (m0 * m0 - x1 - x2) (p c)) as [xr| |]; cbn [bind];
    try discriminate.
  destruct (py_mod (m0 * (x1 - xr) - y1) (p c)) as [yr| |]; cbn [bind];
    try discriminate.
  intros [= <-]. reflexivity.
Qed.

Lemma scalar_mult_plain (fuel : nat) (c : Curve) (k : Z) (P R : option Point) :
  plain_point (base_point c P) ->
  scalar_mult fuel c k P = Ret R -> plain_point R.
Proof.
  intros HB. unfold scalar_mult. fold (base_point c P).
  destruct (py_mod k (n c)) as [km| |]; cbn [bind]; try discriminate.
  destruct ((km =? 0) || _). { now intros [= <-]. }
  match goal with
  | |- context [while fuel ?cond ?body ?s0] =>
      destruct (while fuel cond body s0) as [[[k' r'] a']| |] eqn:E;
      cbn [bind]; try discriminate;
      apply (while_partial
               (fun s => plain_point (snd (fst s)) /\ plain_point (snd s))
               cond body) in E
  end.
  - intros [= <-]. apply E.
  - intros [[k0 r0] a0] [[k1 r1] a1] [Hr Ha] _. cbn [fst snd] in *.
    destruct (negb (Z.land k0 1 =? 0)).
    + destruct (point_add fuel c r0 a0) as [r2| |] eqn:E1; cbn [bind];
        try discriminate.
      destruct (point_add fuel c a0 a0) as [a2| |] eqn:E2; cbn [bind];
        try discriminate.
      intros [= _ <- <-].
      split; [exact (point_add_plain _ _ _ _ _ Hr Ha E1)
             | exact (point_add_plain _ _ _ _ _ Ha Ha E2)].
    + cbn [bind].
      destruct (point_add fuel c a0 a0) as [a2| |] eqn:E2; cbn [bind];
        try discriminate.
      intros [= _ <- <-].
      split; [exact Hr | exact (point_add_plain _ _ _ _ _ Ha Ha E2)].
  - cbn [fst snd]. split; [exact I | exact HB].
Qed.

Section VerifyTotal.

Variable self : ECDSASigner.ECDSASigner.

Local Abbreviation c := (ECDSASigner.curve self).

Hypothesis Hp : Z.prime (p c).
Hypothesis Hn : 1 < n c.
Hypothesis VG : valid_point c (Some (g c)).
Hypothesis PG : plain_point (Some (g c)).

Lemma scalar_below_n (fuel : nat) (u : Z) (P : option Point) :
  valid_point c (base_point c P) -> plain_point (base_point c P) ->
  0 <= u < n c -> (verify_fuel c <= fuel)%nat ->
  exists R, scalar_mult fuel c u P = Ret R /\ valid_point c R /\ plain_point R.
Proof.
  intros VB PB Hu Hf.
  destruct (scalar_mult_valid c Hp fuel u P VB ltac:(lia) ltac:(lia))
    as (R & E & V).
  - unfold scalar_mult_fuel. unfold verify_fuel in Hf.
    pose proof (bit_length_mono u (n c) ltac:(lia)).
    pose proof (bit_length_nonneg u). lia.
  - exists R. split; [exact E|]. split; [exact V|].
    exact (scalar_mult_plain fuel c u P R PB E).
Qed.

(** X18: [verify] returns a boolean on well-formed input.  On a curve over
    a prime field with [n > 1] and an on-curve generator, for a public key
    whose two halves decode to coordinates in [[0, p - 1]], any message and
    any signature whose second half does not decode to zero, [verify]
    raises nothing and returns [True] or [False], within the fuel of one
    loop turn per bit of [n]. *)
Theorem verify_total (fuel : nat) (public_key message signature : bytes) :
  reduced c (parse_public_key public_key) ->
  from_bytes (slice_from signature (len signature / 2)) <> 0 ->
  (verify_fuel c <= fuel)%nat ->
  exists b, ECDSASigner.verify fuel self public_key message signature = Ret b.
Proof.
  intros RP Hs Hf.
  pose proof (Z.prime_ge_2 _ Hp) as Hp2.
  unfold ECDSASigner.verify. fold (parse_public_key public_key).
  set (P := parse_public_key public_key) in *.
  set (r := from_bytes (slice_to signature (len signature / 2))).
  set (s := from_bytes (slice_from signature (len signature / 2))) in *.
  destruct (is_on_curve c P) as [[|]| |] eqn:On; cbn [bind negb].
  - assert (VP : valid_point c P) by (split; assumption).
    assert (PP : plain_point P) by reflexivity.
    destruct (modinv_any fuel s (n c) Hs Hn) as (w & Ew & _).
    { unfold verify_fuel in Hf. lia. }
    rewrite Ew. cbn [bind]. rewrite !py_mod_nonzero by lia. cbn [bind].
    destruct (scalar_below_n fuel _ None VG PG
                (Z.mod_pos_bound (from_bytes (digest (ECDSASigner.hash_func self) message) * w)
                   (n c) ltac:(lia)) Hf)
      as (p1 & E1 & V1 & P1).
    rewrite E1. cbn [bind].
    destruct (scalar_below_n fuel _ P VP PP
                (Z.mod_pos_bound (r * w) (n c) ltac:(lia)) Hf)
      as (p2 & E2 & V2 & P2).
    rewrite E2. cbn [bind].
    destruct (point_add_valid c Hp fuel p1 p2 V1 V2) as (R & ER & VR & _).
    { unfold verify_fuel in Hf. lia. }
    rewrite ER. cbn [bind].
    pose proof (point_add_plain fuel c p1 p2 R P1 P2 ER) as PR.
    destruct R as [pt|]; [|now exists false].
    cbn [plain_point] in PR. unfold is_infinite in PR.
    cbn [attr_x bind]. destruct (x pt) as [px|]; [|discriminate].
    cbn [as_int bind]. rewrite py_mod_nonzero by lia. cbn [bind].
    eexists. reflexivity.
  - now exists false.
  - exfalso. unfold is_on_curve, P, parse_public_key in On.
    cbn [none_or_infinite is_infinite x y] in On.
    rewrite py_mod_nonzero in On by lia. discriminate On.
  - exfalso. unfold is_on_curve, P, parse_public_key in On.
    cbn [none_or_infinite is_infinite x y] in On.
    rewrite py_mod_nonzero in On by lia. discriminate On.
Qed.

End VerifyTotal.

Lemma verify_total_witness :
  exists b, ECDSASigner.verify 30 signer17 [x0a; x06] [x68; x69] [x08] = Ret b.
Proof.
  apply (verify_total signer17 prime_17).
  - cbn. lia.
  - split; [reflexivity | cbn; lia].
  - reflexivity.
  - change (0 <= 10 < 17 /\ 0 <= 6 < 17). lia.
  - vm_compute. discriminate.
  - vm_compute. lia.
Defined.

(* ================================================================== *)
(** * The group of the curve and the agreement of ECDH *)

(** Below a prime [q] every positive [k] has a multiple that is one more
    than a multiple of [q]. *)
Lemma inverse_below_prime (q k : nat) :
  Z.prime (Z.of_nat q) -> (0 < k < q)%nat ->
  exists u w : nat, (u * k = 1 + w * q)%nat.
Proof.
  intros Hq Hk.
  assert (Hg : Z.gcd (Z.of_nat k) (Z.of_nat q) = 1).
  { rewrite Z.gcd_comm. apply Z.coprime_prime_l; [exact Hq|].
    intros D. apply Z.divide_pos_le in D; lia. }
  destruct (Z.Bezout_coprime _ _ Hg) as [u [v Huv]].
  set (u' := u mod Z.of_nat q).
  assert (Hu : 0 <= u' < Z.of_nat q) by (apply Z.mod_pos_bound; lia).
  assert (Hm : (u' * Z.of_nat k) mod Z.of_nat q = 1).
  { unfold u'. rewrite Z.mul_mod_idemp_l by lia.
    replace (u * Z.of_nat k) with (1 + (- v) * Z.of_nat q) by lia.
    rewrite Z.mod_add by lia. apply Z.mod_small.
    pose proof (Z.prime_ge_2 _ Hq). lia. }
  exists (Z.to_nat u'), (Z.to_nat ((u' * Z.of_nat k) / Z.of_nat q)).
  pose proof (Z.div_mod (u' * Z.of_nat k) (Z.of_nat q) ltac:(lia)) as Hd.
  rewrite Hm in Hd.
  assert (0 <= (u' * Z.of_nat k) / Z.of_nat q) by (apply Z.div_pos; nia).
  nia.
Qed.

Module WeierstrassGroup.
Import NsatzTactic Ncring_initial.

Section Curve.

Context {F : Type} {zero one : F} {add mul sub : F -> F -> F} {opp : F -> F}
  {Ro : @Ring_ops F zero one add mul sub opp (@eq F)}
  {Rr : Ring (Ro := Ro)} {Rcr : Cring (Rr := Rr)}
  {Rid : Integral_domain (Rcr := Rcr)}.

Variable inv : F -> F.
Hypothesis inv_ok : forall v : F, v <> 0 -> v * inv v = 1.
Variable eq_dec : forall u v : F, {u = v} + {u <> v}.
Variables a b : F.

Hypothesis two_nz : (1 + 1 : F) <> 0.
Hypothesis three_nz : (1 + 1 + 1 : F) <> 0.
Hypothesis disc_nz :
  (1 + 1 + 1 + 1) * a * a * a
  + (1 + 1 + 1) * (1 + 1 + 1) * (1 + 1 + 1) * b * b <> 0.

Local Abbreviation wpoint := (@Weierstrass.wpoint F).
Local Abbreviation on := (Weierstrass.on a b).
Local Abbreviation wadd := (Weierstrass.wadd inv eq_dec a).
Local Abbreviation wmul := (Weierstrass.wmul inv eq_dec a).
Local Abbreviation slope_case := (Weierstrass.slope_case a).

Local Abbreviation wadd_spec := (WeierstrassFacts.wadd_spec inv inv_ok eq_dec a b).
Local Abbreviation wadd_on := (WeierstrassFacts.wadd_on inv inv_ok eq_dec a b).
Local Abbreviation wadd_comm := (WeierstrassFacts.wadd_comm inv inv_ok eq_dec a b).

Lemma const_mul (u v : Z) : IZR1 (u * v) = IZR1 u * IZR1 v.
Proof. exact (gen_phiZ_mul u v). Qed.

Lemma only23_nz (fuel : nat) (c : Z) :
  Weierstrass.only23 fuel c = true -> IZR1 c <> 0.
Proof.
  revert c. induction fuel as [|fuel IH]; intros c; cbn [Weierstrass.only23];
    [discriminate|].
  destruct ((c =? 1)%Z || (c =? -1)%Z) eqn:E1.
  { intros _. apply orb_true_iff in E1.
    destruct E1 as [E|E]; [apply Z.eqb_eq in E | apply Z.eqb_eq in E]; subst c; cbn.
    - exact (integral_domain_one_zero (Integral_domain := Rid)).
    - exact (integral_domain_minus_one_zero (Rid := Rid)). }
  destruct (Z.eqb_spec (c mod 2) 0) as [E2|_].
  { intros H. specialize (IH _ H).
    assert (Ec : c = (2 * (c / 2))%Z) by (apply Z.div_exact; lia).
    rewrite Ec, const_mul. intros E0.
    destruct (integral_domain_product _ _ E0) as [E|E]; [|contradiction].
    apply two_nz. exact E. }
  destruct (Z.eqb_spec (c mod 3) 0) as [E3|_]; [|discriminate].
  intros H. specialize (IH _ H).
  assert (Ec : c = (3 * (c / 3))%Z) by (apply Z.div_exact; lia).
  rewrite Ec, const_mul. intros E0.
  destruct (integral_domain_product _ _ E0) as [E|E]; [|contradiction].
  apply three_nz. rewrite <- E. cbn. unfold R2. nsatz.
Qed.

(** [nsatz], with the constant of its certificate shown invertible. *)
Ltac nsatz23 :=
  nsatz;
  lazymatch goal with
  | |- ~ interpret3 (PEc ?c) _ == 0 =>
      change (IZR1 c <> 0); apply (only23_nz 200); vm_compute; reflexivity
  end.

Lemma wadd_slope (x1 y1 x2 y2 : F) :
  y1 * y1 = x1 * x1 * x1 + a * x1 + b ->
  y2 * y2 = x2 * x2 * x2 + a * x2 + b ->
  slope_case x1 y1 x2 y2 (wadd (Some (x1, y1)) (Some (x2, y2))).
Proof.
  intros H1 H2.
  destruct (wadd_spec x1 y1 x2 y2 H1 H2)
    as [E1 E2 | i x3 y3 E1 E2 Hi E3 E4 _ | i x3 y3 Hi E3 E4 _].
  - now apply Weierstrass.slope_opp.
  - apply (Weierstrass.slope_dbl a _ _ _ _ i (((1 + 1 + 1) * x1 * x1 + a) * i));
      try assumption.
    + nsatz.
    + rewrite E4. unfold Weierstrass.dbl_y. rewrite <- E3. reflexivity.
  - apply (Weierstrass.slope_add a _ _ _ _ i ((y2 - y1) * i)); try assumption.
    + nsatz.
    + rewrite E4. unfold Weierstrass.add_y. rewrite <- E3. reflexivity.
Qed.

(** The case that [nsatz] does not settle in one step: [P + Q = R] and
    [Q + R = P], so that [Q] has order two and both sides double. *)
Lemma assoc_two_torsion
  (x1 y1 x2 y2 x3 y3 iS mS xS yS iT mT xT yT iL mL xL iR mR xR : F) :
  y1 * y1 = x1 * x1 * x1 + a * x1 + b ->
  y2 * y2 = x2 * x2 * x2 + a * x2 + b ->
  y3 * y3 = x3 * x3 * x3 + a * x3 + b ->
  (x2 - x1) * iS = 1 -> mS * (x2 - x1) = y2 - y1 ->
  xS = mS * mS - x1 - x2 -> yS = mS * (x1 - xS) - y1 ->
  yS * yS = xS * xS * xS + a * xS + b ->
  (x3 - x2) * iT = 1 -> mT * (x3 - x2) = y3 - y2 ->
  xT = mT * mT - x2 - x3 -> yT = mT * (x2 - xT) - y2 ->
  yT * yT = xT * xT * xT + a * xT + b ->
  xS = x3 -> yS = y3 -> (yS + yS) * iL = 1 ->
  mL * (yS + yS) = (1 + 1 + 1) * xS * xS + a -> xL = mL * mL - xS - xS ->
  x1 = xT -> y1 = yT -> (y1 + y1) * iR = 1 ->
  mR * (y1 + y1) = (1 + 1 + 1) * x1 * x1 + a -> xR = mR * mR - x1 - x1 ->
  xL = xR.
Proof.
  intros H1 H2 H3 S3 S4 S5 S6 OS T3 T4 T5 T6 OT L1 L2 L3 L4 L5 R1 R2 R3 R4 R5.
  assert (Y2 : y2 = 0) by nsatz23.
  clear H3 T3 T4 T5 T6 OT L1 L2 R1 R2.
  assert (H2' : 0 = x2 * x2 * x2 + a * x2 + b) by (rewrite <- H2, Y2; nsatz).
  assert (G1 : (xS - x2) * (x1 - x2) = (1 + 1 + 1) * x2 * x2 + a).
  { clear L3 L4 L5 R3 R4 R5 S6 OS H2. nsatz. }
  assert (G2 : yS * (x1 - x2) * (x1 - x2) = - y1 * ((1 + 1 + 1) * x2 * x2 + a)).
  { clear L3 L4 L5 R3 R4 R5 OS H2. nsatz. }
  assert (E : (((1 + 1 + 1) * xS * xS + a) * ((1 + 1 + 1) * xS * xS + a)
               - (1 + 1) * xS * (yS + yS) * (yS + yS)) * (y1 + y1) * (y1 + y1)
              = (((1 + 1 + 1) * x1 * x1 + a) * ((1 + 1 + 1) * x1 * x1 + a)
                 - (1 + 1) * x1 * (y1 + y1) * (y1 + y1)) * (yS + yS) * (yS + yS)).
  { clear L4 L5 R4 R5 S4 S5 S6 H2 Y2. nsatz23. }
  clear H1 H2 H2' Y2 S3 S4 S5 S6 OS G1 G2.
  nsatz.
Qed.

(** One leaf of the case analysis: [nsatz] with or without the equations
    of the two inner sums, or with the inverse of the discriminant. *)
Ltac leaf OS OT :=
  first
    [ solve [nsatz23]
    | solve [clear OS OT; nsatz23]
    | solve [pose proof (inv_ok _ disc_nz) as D;
             match type of D with _ * ?i = 1 =>
               let id := fresh "id" in set (id := i) in D; clearbody id end;
             nsatz23] ].

(** Associativity when the second and the third point differ. *)
Lemma wadd_assoc_ne (x1 y1 x2 y2 x3 y3 : F) :
  y1 * y1 = x1 * x1 * x1 + a * x1 + b ->
  y2 * y2 = x2 * x2 * x2 + a * x2 + b ->
  y3 * y3 = x3 * x3 * x3 + a * x3 + b ->
  (x2, y2) <> (x3, y3) ->
  wadd (wadd (Some (x1, y1)) (Some (x2, y2))) (Some (x3, y3))
  = wadd (Some (x1, y1)) (wadd (Some (x2, y2)) (Some (x3, y3))).
Proof.
  intros H1 H2 H3 Hne.
  pose proof (wadd_slope x1 y1 x2 y2 H1 H2) as C12.
  remember (wadd (Some (x1, y1)) (Some (x2, y2))) as S eqn:ES.
  destruct C12 as [S1 S2 | iS mS xS yS S1 S2 S3 S4 S5 S6 | iS mS xS yS S3 S4 S5 S6].
  all: pose proof (wadd_on (Some (x1, y1)) (Some (x2, y2)) H1 H2) as OS;
    rewrite <- ES in OS; cbn [Weierstrass.on] in OS; clear ES.
  all: pose proof (wadd_slope x2 y2 x3 y3 H2 H3) as C23;
    pose proof (wadd_on (Some (x2, y2)) (Some (x3, y3)) H2 H3) as OT';
    remember (wadd (Some (x2, y2)) (Some (x3, y3))) as T eqn:ET; clear ET;
    destruct C23 as [T1 T2 | iT mT xT yT T1 T2 T3 T4 T5 T6 | iT mT xT yT T3 T4 T5 T6];
    [ | exfalso; apply Hne; congruence | ];
    pose proof OT' as OT; clear OT'; cbn [Weierstrass.on] in OT; clear Hne.
  all: idtac; lazymatch goal with
       | |- wadd None ?X = _ => change (wadd None X) with X
       | |- wadd (Some (?u, ?v)) _ = _ =>
           pose proof (wadd_slope u v x3 y3 OS H3) as CL;
           remember (wadd (Some (u, v)) (Some (x3, y3))) as L eqn:EL; clear EL;
           destruct CL as [L1 L2 | iL mL xL yL L1 L2 L3 L4 L5 L6 | iL mL xL yL L3 L4 L5 L6]
       end.
  all: idtac; lazymatch goal with
       | |- _ = wadd ?X None => change (wadd X None) with X
       | |- _ = wadd _ (Some (?u, ?v)) =>
           pose proof (wadd_slope x1 y1 u v H1 OT) as CR;
           remember (wadd (Some (x1, y1)) (Some (u, v))) as R eqn:ER; clear ER;
           destruct CR as [R1 R2 | iR mR xR yR R1 R2 R3 R4 R5 R6 | iR mR xR yR R3 R4 R5 R6]
       end.
  all: idtac; lazymatch goal with
       | |- None = None => reflexivity
       | |- Some (?u, ?v) = Some (?u', ?v') =>
           assert (Ex : u = u');
           [ first [ leaf OS OT
                   | exact (assoc_two_torsion
                              x1 y1 x2 y2 x3 y3 iS mS xS yS iT mT xT yT
                              iL mL xL iR mR xR
                              H1 H2 H3 S3 S4 S5 S6 OS T3 T4 T5 T6 OT
                              L1 L2 L3 L4 L5 R1 R2 R3 R4 R5) ]
           | f_equal; f_equal; [exact Ex | leaf OS OT] ]
       | |- _ => exfalso; apply (integral_domain_one_zero (Integral_domain := Rid));
                 leaf OS OT
       end.
Qed.

Lemma wadd_None_r (P : wpoint) : wadd P None = P.
Proof. now destruct P as [[x1 y1]|]. Qed.

Lemma pair_eq_dec (u v : F * F) : {u = v} + {u <> v}.
Proof.
  destruct u as [u1 u2], v as [v1 v2].
  destruct (eq_dec u1 v1) as [E1|N1]; [|right; congruence].
  destruct (eq_dec u2 v2) as [E2|N2]; [left | right]; congruence.
Qed.

(** The addition of the curve is associative. *)
Lemma wadd_assoc (P Q R : wpoint) :
  on P -> on Q -> on R -> wadd (wadd P Q) R = wadd P (wadd Q R).
Proof.
  destruct P as [[x1 y1]|]; [|reflexivity].
  destruct Q as [[x2 y2]|]; [|reflexivity].
  destruct R as [[x3 y3]|]; [|intros; now rewrite !wadd_None_r].
  intros H1 H2 H3.
  destruct (pair_eq_dec (x2, y2) (x3, y3)) as [E|N];
    [|now apply wadd_assoc_ne].
  injection E as -> ->. clear H2.
  assert (OP : on (Some (x1, y1))) by exact H1.
  assert (OQ : on (Some (x3, y3))) by exact H3.
  destruct (pair_eq_dec (x3, y3) (x1, y1)) as [E|N].
  - injection E as -> ->. apply wadd_comm; [now apply wadd_on | exact OP].
  - rewrite (wadd_comm (wadd (Some (x1, y1)) (Some (x3, y3))) (Some (x3, y3)))
      by (try apply wadd_on; assumption).
    rewrite (wadd_comm (Some (x1, y1)) (Some (x3, y3))) by assumption.
    rewrite <- (wadd_assoc_ne x3 y3 x3 y3 x1 y1 H3 H3 H1 N).
    apply wadd_comm; [now apply wadd_on | exact OP].
Qed.

Lemma wmul_on (k : nat) (P : wpoint) : on P -> on (wmul k P).
Proof.
  intros H. induction k as [|k IH]; [exact I|].
  cbn [Weierstrass.wmul]. now apply wadd_on.
Qed.

Lemma wmul_add (m k : nat) (P : wpoint) :
  on P -> wmul (m + k) P = wadd (wmul m P) (wmul k P).
Proof.
  intros H. induction m as [|m IH]; [reflexivity|].
  cbn [Nat.add Weierstrass.wmul]. rewrite IH.
  symmetry. apply wadd_assoc; try apply wmul_on; assumption.
Qed.

Lemma wmul_None (k : nat) : wmul k None = None.
Proof. induction k as [|k IH]; [reflexivity | exact IH]. Qed.

Lemma wmul_mul (m k : nat) (P : wpoint) :
  on P -> wmul (m * k) P = wmul m (wmul k P).
Proof.
  intros H. induction m as [|m IH]; [reflexivity|].
  cbn [Nat.mul Weierstrass.wmul]. now rewrite wmul_add, IH.
Qed.

Lemma wmul_swap (m k : nat) (P : wpoint) :
  on P -> wmul m (wmul k P) = wmul k (wmul m P).
Proof. intros H. now rewrite <- !wmul_mul, Nat.mul_comm. Qed.

Lemma wmul_double (k : nat) (P : wpoint) :
  on P -> wmul k (wadd P P) = wmul (2 * k) P.
Proof.
  intros H. rewrite Nat.mul_comm, wmul_mul by assumption.
  cbn [Weierstrass.wmul]. now rewrite wadd_None_r.
Qed.

(** A point that a prime [q] sends to infinity has order [q]: no smaller
    multiple of it is infinity. *)
Lemma wmul_prime_order (q k : nat) (P : wpoint) :
  on P -> P <> None -> Z.prime (Z.of_nat q) -> wmul q P = None ->
  (0 < k < q)%nat -> wmul k P <> None.
Proof.
  intros H NP Hq Eq Hk E.
  destruct (inverse_below_prime q k Hq Hk) as (u & w & Hw).
  apply NP.
  assert (E1 : wmul (u * k) P = None).
  { rewrite wmul_mul by assumption. rewrite E. apply wmul_None. }
  rewrite Hw in E1. rewrite wmul_add in E1 by assumption.
  rewrite wmul_mul, Eq, wmul_None, wadd_None_r in E1 by assumption.
  cbn [Weierstrass.wmul] in E1. now rewrite wadd_None_r in E1.
Qed.

(** The same for every multiple that [q] does not divide. *)
Lemma wmul_prime_order_any (q k : nat) (P : wpoint) :
  on P -> P <> None -> Z.prime (Z.of_nat q) -> wmul q P = None ->
  (k mod q <> 0)%nat -> wmul k P <> None.
Proof.
  intros H NP Hq Eq Hk.
  assert (Hq0 : q <> 0%nat) by (pose proof (Z.prime_ge_2 _ Hq); lia).
  rewrite (Nat.div_mod_eq k q), Nat.mul_comm, wmul_add by assumption.
  rewrite wmul_mul, Eq, wmul_None by assumption.
  apply wmul_prime_order with q; try assumption.
  pose proof (Nat.mod_upper_bound k q Hq0). lia.
Qed.

End Curve.
End WeierstrassGroup.

Lemma odd_split (k : Z) :
  0 < k -> Z.land k 1 <> 0 ->
  Z.to_nat k = S (2 * Z.to_nat (Z.shiftr k 1)).
Proof.
  intros Hk Ho. rewrite Z.shiftr_div_pow2 by lia. change (2 ^ 1) with 2.
  change 1 with (Z.ones 1) in Ho. rewrite Z.land_ones in Ho by lia.
  change (2 ^ 1) with 2 in Ho.
  pose proof (Z.div_mod k 2 ltac:(lia)).
  pose proof (Z.mod_pos_bound k 2 ltac:(lia)).
  assert (0 <= k / 2) by (apply Z.div_pos; lia). lia.
Qed.

Lemma even_split (k : Z) :
  0 < k -> Z.land k 1 = 0 ->
  Z.to_nat k = (2 * Z.to_nat (Z.shiftr k 1))%nat.
Proof.
  intros Hk Ho. rewrite Z.shiftr_div_pow2 by lia. change (2 ^ 1) with 2.
  change 1 with (Z.ones 1) in Ho. rewrite Z.land_ones in Ho by lia.
  change (2 ^ 1) with 2 in Ho.
  pose proof (Z.div_mod k 2 ltac:(lia)).
  assert (0 <= k / 2) by (apply Z.div_pos; lia). lia.
Qed.

Section GroupLaw.

Variable c : Curve.
Hypothesis Hp : Z.prime (p c).
Hypothesis Hp3 : 3 < p c.
Hypothesis Hdisc : (4 * a c ^ 3 + 27 * b c ^ 2) mod p c <> 0.

Local Abbreviation zA := (Zmod.of_Z (p c) (a c)).
Local Abbreviation zB := (Zmod.of_Z (p c) (b c)).
Local Abbreviation zRid := (ZmodNsatz.Integral_domain_Zmod (p c) Hp).

Lemma small_nonzero (v : Z) : 0 < v < p c -> Zmod.of_Z (p c) v <> Zmod.zero.
Proof.
  intros Hv E. apply (of_Z_zero_iff c Hp) in E.
  rewrite Z.mod_small in E by lia. lia.
Qed.

Lemma zmod_two_nz : Zmod.add Zmod.one Zmod.one <> (Zmod.zero : Zmod (p c)).
Proof.
  rewrite <- Zmod.of_Z_1, <- Zmod.of_Z_add. apply small_nonzero. lia.
Qed.

Lemma zmod_three_nz :
  Zmod.add (Zmod.add Zmod.one Zmod.one) Zmod.one <> (Zmod.zero : Zmod (p c)).
Proof.
  rewrite <- Zmod.of_Z_1, <- !Zmod.of_Z_add. apply small_nonzero. lia.
Qed.

Lemma zmod_disc_nz :
  Zmod.add
    (Zmod.mul (Zmod.mul (Zmod.mul
       (Zmod.add (Zmod.add (Zmod.add Zmod.one Zmod.one) Zmod.one) Zmod.one)
       zA) zA) zA)
    (Zmod.mul (Zmod.mul (Zmod.mul (Zmod.mul
       (Zmod.add (Zmod.add Zmod.one Zmod.one) Zmod.one)
       (Zmod.add (Zmod.add Zmod.one Zmod.one) Zmod.one))
       (Zmod.add (Zmod.add Zmod.one Zmod.one) Zmod.one)) zB) zB)
  <> (Zmod.zero : Zmod (p c)).
Proof.
  rewrite <- Zmod.of_Z_1, <- !Zmod.of_Z_add, <- !Zmod.of_Z_mul, <- !Zmod.of_Z_add.
  intros E. apply (of_Z_zero_iff c Hp) in E. apply Hdisc. rewrite <- E.
  f_equal. ring.
Qed.

Lemma curve_add_assoc (P Q R : @Weierstrass.wpoint (Zmod (p c))) :
  curve_on c P -> curve_on c Q -> curve_on c R ->
  curve_add c (curve_add c P Q) R = curve_add c P (curve_add c Q R).
Proof.
  exact (WeierstrassGroup.wadd_assoc (Rid := zRid) Zmod.inv (zinv_ok' c Hp)
           (zeq_dec (p c)) zA zB zmod_two_nz zmod_three_nz zmod_disc_nz P Q R).
Qed.


Lemma curve_mul_on (k : nat) (P : @Weierstrass.wpoint (Zmod (p c))) :
  curve_on c P -> curve_on c (curve_mul c k P).
Proof.
  exact (WeierstrassGroup.wmul_on (Rid := zRid) Zmod.inv (zinv_ok' c Hp)
           (zeq_dec (p c)) zA zB k P).
Qed.

Lemma curve_mul_double (k : nat) (P : @Weierstrass.wpoint (Zmod (p c))) :
  curve_on c P -> curve_mul c k (curve_add c P P) = curve_mul c (2 * k) P.
Proof.
  exact (WeierstrassGroup.wmul_double (Rid := zRid) Zmod.inv (zinv_ok' c Hp)
           (zeq_dec (p c)) zA zB zmod_two_nz zmod_three_nz zmod_disc_nz k P).
Qed.

Lemma curve_mul_swap (m k : nat) (P : @Weierstrass.wpoint (Zmod (p c))) :
  curve_on c P ->
  curve_mul c m (curve_mul c k P) = curve_mul c k (curve_mul c m P).
Proof.
  exact (WeierstrassGroup.wmul_swap (Rid := zRid) Zmod.inv (zinv_ok' c Hp)
           (zeq_dec (p c)) zA zB zmod_two_nz zmod_three_nz zmod_disc_nz m k P).
Qed.

Lemma curve_add_None_r (P : @Weierstrass.wpoint (Zmod (p c))) :
  curve_add c P None = P.
Proof. now destruct P as [[x1 y1]|]. Qed.

(** [scalar_mult] computes the multiple: the loop keeps
    [result + k * addend] equal to the multiple asked for. *)
Lemma scalar_mult_multiple (fuel : nat) (k : Z) (P : option Point) :
  valid_point c (base_point c P) -> n c <> 0 -> 0 <= k -> k mod n c <> 0 ->
  (scalar_mult_fuel c k <= fuel)%nat ->
  exists R, scalar_mult fuel c k P = Ret R /\ valid_point c R /\
            to_wpoint c R
            = curve_mul c (Z.to_nat k) (to_wpoint c (base_point c P)).
Proof.
  intros VP Hn Hk Hkn Hf. unfold scalar_mult. fold (base_point c P).
  rewrite py_mod_nonzero by exact Hn. cbn [bind].
  destruct (base_point_some c P) as [B EB]. rewrite EB in *.
  destruct (Z.eqb_spec (k mod n c) 0) as [|_]; [contradiction|].
  cbn [orb].
  unfold scalar_mult_fuel in Hf.
  pose proof (valid_on c Hp _ VP) as OB.
  match goal with
  | |- context [while fuel ?cond ?body ?s0] =>
      destruct (fun H => while_rule
                  (fun s => let '(k', result, addend) := s in
                     valid_point c result /\ valid_point c addend /\ 0 <= k' /\
                     curve_add c (to_wpoint c result)
                       (curve_mul c (Z.to_nat k') (to_wpoint c addend))
                     = curve_mul c (Z.to_nat k) (to_wpoint c (Some B)))
                  sm_mu cond body H fuel s0)
        as ([[k' result] addend] & E & (Vr & Va & H0 & Inv) & Hc)
  end.
  - intros [[k0 r0] a0] (Vr & Va & H0 & Inv) Hc.
    apply negb_true_iff, Z.eqb_neq in Hc.
    destruct (point_add_valid c Hp fuel a0 a0 Va Va ltac:(lia))
      as (a' & Ea & Va' & Wa).
    assert (Hmu : (Z.to_nat (bit_length (Z.shiftr k0 1))
                   < Z.to_nat (bit_length k0))%nat).
    { pose proof (bit_length_halves k0 ltac:(lia)). lia. }
    assert (H1 : 0 <= Z.shiftr k0 1) by (apply Z.shiftr_nonneg; lia).
    pose proof (valid_on c Hp _ Vr) as Or.
    pose proof (valid_on c Hp _ Va) as Oa.
    destruct (Z.eqb_spec (Z.land k0 1) 0) as [Ev|Od]; cbn [negb].
    + cbn [bind]. rewrite Ea. cbn [bind].
      eexists. split; [reflexivity|]. cbn [sm_mu].
      split; [|exact Hmu]. split; [exact Vr|]. split; [exact Va'|].
      split; [exact H1|].
      rewrite Wa, curve_mul_double by exact Oa.
      rewrite <- (even_split k0) by (assumption || lia). exact Inv.
    + destruct (point_add_valid c Hp fuel r0 a0 Vr Va ltac:(lia))
        as (r' & Er & Vr' & Wr).
      rewrite Er. cbn [bind]. rewrite Ea. cbn [bind].
      eexists. split; [reflexivity|]. cbn [sm_mu].
      split; [|exact Hmu]. split; [exact Vr'|]. split; [exact Va'|].
      split; [exact H1|].
      rewrite Wr, Wa, curve_mul_double by exact Oa.
      rewrite curve_add_assoc by (try apply curve_mul_on; assumption).
      rewrite <- Inv. rewrite (odd_split k0) by (assumption || lia).
      reflexivity.
  - split; [apply valid_None|]. split; [exact VP|]. split; [exact Hk|].
    reflexivity.
  - cbn [sm_mu]. lia.
  - rewrite E. cbn [bind]. exists result. split; [reflexivity|].
    split; [exact Vr|].
    apply negb_false_iff, Z.eqb_eq in Hc. subst k'.
    rewrite <- Inv. cbn [Z.to_nat curve_mul Weierstrass.wmul].
    symmetry. apply curve_add_None_r.
Qed.


Lemma curve_mul_order (q k : nat) (P : @Weierstrass.wpoint (Zmod (p c))) :
  curve_on c P -> P <> None -> Z.prime (Z.of_nat q) ->
  curve_mul c q P = None -> (k mod q <> 0)%nat -> curve_mul c k P <> None.
Proof.
  exact (WeierstrassGroup.wmul_prime_order_any (Rid := zRid) Zmod.inv
           (zinv_ok' c Hp) (zeq_dec (p c)) zA zB zmod_two_nz zmod_three_nz zmod_disc_nz q k P).
Qed.

Lemma curve_mul_mul (m k : nat) (P : @Weierstrass.wpoint (Zmod (p c))) :
  curve_on c P -> curve_mul c (m * k) P = curve_mul c m (curve_mul c k P).
Proof.
  exact (WeierstrassGroup.wmul_mul (Rid := zRid) Zmod.inv (zinv_ok' c Hp)
           (zeq_dec (p c)) zA zB zmod_two_nz zmod_three_nz zmod_disc_nz m k P).
Qed.

End GroupLaw.

Lemma product_below_prime (q u v : Z) :
  Z.prime q -> 0 < u < q -> 0 < v < q ->
  ((Z.to_nat u * Z.to_nat v) mod Z.to_nat q <> 0)%nat.
Proof.
  intros Hq Hu Hv E.
  apply (f_equal Z.of_nat) in E.
  rewrite Nat2Z.inj_mod, Nat2Z.inj_mul, !Z2Nat.id in E by lia.
  apply Z.mod_divide in E; [|lia].
  apply (Z.divide_prime_mul _ _ _ Hq) in E.
  destruct E as [D|D]; apply Z.divide_pos_le in D; lia.
Qed.

Lemma below_prime (q u : Z) :
  Z.prime q -> 0 < u < q -> (Z.to_nat u mod Z.to_nat q <> 0)%nat.
Proof.
  intros Hq Hu. rewrite Nat.mod_small by lia. lia.
Qed.

Lemma to_wpoint_finite (c : Curve) (P : option Point) :
  to_wpoint c P <> None ->
  exists px py, P = Some (mkPoint (Some px) (Some py)).
Proof.
  destruct P as [[[px|] [py|]]|]; cbn [to_wpoint]; try congruence. eauto.
Qed.

Lemma plain_finite (pt : Point) :
  plain_point (Some pt) -> exists px py, pt = mkPoint (Some px) (Some py).
Proof.
  destruct pt as [[px|] [py|]]; cbn; try discriminate. eauto.
Qed.

Section ECDHAgreement.

Variable self : ECDH.ECDH.
Let c := ECDH.curve self.

Hypothesis Hp : Z.prime (p c).
Hypothesis Hp3 : 3 < p c.
Hypothesis Hdisc : (4 * a c ^ 3 + 27 * b c ^ 2) mod p c <> 0.
Hypothesis VG : valid_point c (Some (g c)).
Hypothesis PG : plain_point (Some (g c)).
Hypothesis Hn : Z.prime (n c).

Variable fuel : nat.
Hypothesis Hord : scalar_mult fuel c (n c - 1) None = Ret (negate c (Some (g c))).
Hypothesis Hf : (scalar_mult_fuel c (n c) <= fuel)%nat.

Let G := to_wpoint c (Some (g c)).

Lemma fuel_below_n (k : Z) : 0 <= k < n c -> (scalar_mult_fuel c k <= fuel)%nat.
Proof.
  intros Hk. unfold scalar_mult_fuel in *.
  pose proof (bit_length_mono k (n c) ltac:(lia)).
  pose proof (bit_length_nonneg k). lia.
Qed.

Lemma generator_finite : G <> None.
Proof.
  unfold G. destruct (plain_finite _ PG) as (gx & gy & ->).
  cbn [to_wpoint]. discriminate.
Qed.

Lemma generator_on : curve_on c G.
Proof. exact (valid_on c Hp _ VG). Qed.

(** The hypothesis on [n - 1] says that [n] times the generator is the
    point at infinity. *)
Lemma generator_order : curve_mul c (Z.to_nat (n c)) G = None.
Proof.
  pose proof (Z.prime_ge_2 _ Hn) as Hn2.
  destruct (scalar_mult_multiple c Hp Hp3 Hdisc fuel (n c - 1) None)
    as (R & E & VR & WR).
  - exact VG.
  - lia.
  - lia.
  - rewrite Z.mod_small by lia. lia.
  - apply fuel_below_n. lia.
  - rewrite Hord in E. injection E as <-.
    cbn [base_point] in WR. fold G in WR.
    replace (Z.to_nat (n c)) with (S (Z.to_nat (n c - 1))) by lia.
    cbn [curve_mul Weierstrass.wmul]. fold (curve_mul c (Z.to_nat (n c - 1)) G).
    rewrite <- WR. unfold G.
    destruct (plain_finite _ PG) as (gx & gy & ->).
    cbn [negate to_wpoint curve_add Weierstrass.wadd].
    destruct (zeq_dec (p c) (Zmod.of_Z (p c) gx) (Zmod.of_Z (p c) gx));
      [|congruence].
    match goal with
    | |- (if ?d then _ else _) = _ => destruct d as [_|N]; [reflexivity|]
    end.
    exfalso. apply N.
    change (Zmod.add (Zmod.of_Z (p c) gy) (Zmod.of_Z (p c) (p c - gy))
            = Zmod.zero).
    rewrite <- Zmod.of_Z_add. apply (of_Z_zero_iff c Hp).
    replace (gy + (p c - gy)) with (p c) by ring. apply Z.mod_same. lia.
Qed.

(** A private scalar of [[1, n - 1]] gives a finite point of the curve,
    whatever finite point of the generator's group it multiplies. *)
Lemma multiple_finite (k : nat) :
  (k mod Z.to_nat (n c) <> 0)%nat -> curve_mul c k G <> None.
Proof.
  intros Hk. apply (curve_mul_order c Hp Hp3 Hdisc (Z.to_nat (n c))).
  - exact generator_on.
  - exact generator_finite.
  - rewrite Z2Nat.id by (pose proof (Z.prime_ge_2 _ Hn); lia). exact Hn.
  - exact generator_order.
  - exact Hk.
Qed.

Lemma keypair (rnd : Z) :
  0 <= rnd < n c - 1 ->
  exists px py,
    ECDH.generate_keypair fuel self rnd
      = Ret (Some (mkPoint (Some px) (Some py)), rnd + 1) /\
    valid_point c (Some (mkPoint (Some px) (Some py))) /\
    to_wpoint c (Some (mkPoint (Some px) (Some py)))
      = curve_mul c (Z.to_nat (rnd + 1)) G.
Proof.
  intros Hr. unfold ECDH.generate_keypair. fold c.
  destruct (Z.leb_spec (n c - 1) 0) as [|_]; [lia|].
  destruct (scalar_mult_multiple c Hp Hp3 Hdisc fuel (rnd + 1) None)
    as (A & E & VA & WA).
  - exact VG.
  - lia.
  - lia.
  - rewrite Z.mod_small by lia. lia.
  - apply fuel_below_n. lia.
  - cbn [base_point] in WA. fold G in WA.
    destruct (to_wpoint_finite c A) as (px & py & ->).
    { rewrite WA. apply multiple_finite. apply below_prime; [exact Hn | lia]. }
    exists px, py. rewrite E. cbn [bind]. now split.
Qed.

Lemma shared_secret (u v : Z) (px py : Z) :
  0 < u < n c -> 0 < v < n c ->
  valid_point c (Some (mkPoint (Some px) (Some py))) ->
  to_wpoint c (Some (mkPoint (Some px) (Some py)))
    = curve_mul c (Z.to_nat v) G ->
  exists sx sy,
    ECDH.derive_shared_secret fuel self u (Some (mkPoint (Some px) (Some py)))
      = Ret sx /\
    0 <= sx < p c /\ 0 <= sy < p c /\
    Some (Zmod.of_Z (p c) sx, Zmod.of_Z (p c) sy)
      = curve_mul c (Z.to_nat u * Z.to_nat v) G.
Proof.
  intros Hu Hv VA WA. unfold ECDH.derive_shared_secret. fold c.
  destruct (scalar_mult_multiple c Hp Hp3 Hdisc fuel u
              (Some (mkPoint (Some px) (Some py))))
    as (R & E & VR & WR).
  - exact VA.
  - lia.
  - lia.
  - rewrite Z.mod_small by lia. lia.
  - apply fuel_below_n. lia.
  - cbn [base_point] in WR. rewrite WA in WR.
    rewrite <- curve_mul_mul in WR by (assumption || exact generator_on).
    destruct (to_wpoint_finite c R) as (sx & sy & ->).
    { rewrite WR. apply multiple_finite.
      apply product_below_prime; [exact Hn | lia | lia]. }
    exists sx, sy. rewrite E. cbn [bind none_or_infinite is_infinite x y
                                    attr_x as_int].
    destruct VR as [_ [Rx Ry]].
    split; [reflexivity|]. split; [exact Rx|]. split; [exact Ry|]. exact WR.
Qed.

End ECDHAgreement.

Lemma prime_19 : Z.prime 19.
Proof.
  split; [lia|]. intros m Hm [q Hq].
  assert (Hc : m = 2 \/ m = 3 \/ m = 4 \/ m = 5 \/ m = 6 \/ m = 7 \/ m = 8 \/
               m = 9 \/ m = 10 \/ m = 11 \/ m = 12 \/ m = 13 \/ m = 14 \/
               m = 15 \/ m = 16 \/ m = 17 \/ m = 18) by lia.
  repeat (destruct Hc as [->|Hc]; [lia|]). subst m. lia.
Qed.

(** C8: ECDH agreement.  On a curve over a prime field with [p > 3] and
    non-zero discriminant, whose generator is a finite point of the curve
    of prime order [n] (that [n] times the generator is the point at
    infinity is asked of the code: [scalar_mult (n - 1)] returns the
    opposite of the generator), two calls of [ECDH.generate_keypair]
    return key pairs [(A, skA)] and [(B, skB)] with private scalars in
    [[1, n - 1]], and [derive_shared_secret skA B] and
    [derive_shared_secret skB A] both return, with the same integer.  The
    two sides are [skA * (skB * G)] and [skB * (skA * G)]: [scalar_mult]
    computes multiples in the group of the curve, whose addition is
    associative and commutative. *)
Theorem ecdh_agreement (self : ECDH.ECDH) (fuel : nat) (rndA rndB : Z) :
  let c := ECDH.curve self in
  Z.prime (p c) -> 3 < p c ->
  (4 * a c ^ 3 + 27 * b c ^ 2) mod p c <> 0 ->
  valid_point c (Some (g c)) -> plain_point (Some (g c)) ->
  Z.prime (n c) ->
  scalar_mult fuel c (n c - 1) None = Ret (negate c (Some (g c))) ->
  (scalar_mult_fuel c (n c) <= fuel)%nat ->
  0 <= rndA < n c - 1 -> 0 <= rndB < n c - 1 ->
  exists A B skA skB secret,
    ECDH.generate_keypair fuel self rndA = Ret (A, skA) /\
    ECDH.generate_keypair fuel self rndB = Ret (B, skB) /\
    skA = rndA + 1 /\ skB = rndB + 1 /\
    ECDH.derive_shared_secret fuel self skA B = Ret secret /\
    ECDH.derive_shared_secret fuel self skB A = Ret secret.
Proof.
  cbv zeta. intros Hp Hp3 Hdisc VG PG Hn Hord Hf HA HB.
  destruct (keypair self Hp Hp3 Hdisc VG PG Hn fuel Hord Hf rndA HA)
    as (ax & ay & EA & VA & WA).
  destruct (keypair self Hp Hp3 Hdisc VG PG Hn fuel Hord Hf rndB HB)
    as (bx & by_ & EB & VB & WB).
  destruct (shared_secret self Hp Hp3 Hdisc VG PG Hn fuel Hord Hf
              (rndA + 1) (rndB + 1) bx by_ ltac:(lia) ltac:(lia) VB WB)
    as (s1 & t1 & E1 & R1 & _ & W1).
  destruct (shared_secret self Hp Hp3 Hdisc VG PG Hn fuel Hord Hf
              (rndB + 1) (rndA + 1) ax ay ltac:(lia) ltac:(lia) VA WA)
    as (s2 & t2 & E2 & R2 & _ & W2).
  rewrite Nat.mul_comm, <- W1 in W2.
  assert (Es : s2 = s1).
  { apply (of_Z_small_inj (ECDH.curve self)); try assumption. congruence. }
  subst s2.
  exists (Some (mkPoint (Some ax) (Some ay))),
         (Some (mkPoint (Some bx) (Some by_))), (rndA + 1), (rndB + 1), s1.
  repeat (split; [assumption || reflexivity|]). exact E2.
Qed.

Lemma ecdh_agreement_witness :
  exists A B secret,
    ECDH.generate_keypair 20 ecdh17 2 = Ret (A, 3) /\
    ECDH.generate_keypair 20 ecdh17 6 = Ret (B, 7) /\
    ECDH.derive_shared_secret 20 ecdh17 3 B = Ret secret /\
    ECDH.derive_shared_secret 20 ecdh17 7 A = Ret secret.
Proof.
  destruct (ecdh_agreement ecdh17 20 2 6)
    as (A & B & skA & skB & secret & EA & EB & -> & -> & E1 & E2).
  - exact prime_17.
  - cbn. lia.
  - vm_compute. discriminate.
  - split; [reflexivity | cbn; lia].
  - reflexivity.
  - exact prime_19.
  - vm_compute. reflexivity.
  - vm_compute. lia.
  - cbn. lia.
  - cbn. lia.
  - exists A, B, secret. auto.
Defined.
